(** * Sudoku backtracking solver (project2/sudoku.py, project2/dfs.py)

    A shallow embedding of the board, its four legal-move strategies, the
    candidate cache and the two depth-first search drivers, followed by the
    properties established about them.

    Modelling conventions
    - the numpy array [_board] is a list of rows of [Z]; its element type
      is the signed 64-bit integer, so storing a Python int outside that
      range raises [OverflowError] ([store_cell]), and a dimension of an
      array is itself below 2^63 ([wf_board]);
    - indices are [nat]: every index the program produces comes from
      [range(size)]; a negative coordinate handed to [apply_move] or
      [undo_move] from outside, which numpy counts from the end of the
      axis, is not covered;
    - a Python [set] of integers is a [gset Z]; iterating it is [elements],
      whose order is as unspecified as Python's;
    - a Python [dict] is an association list in insertion order;
    - exceptions are an error monad; printing and the wall clock are
      left out. *)

From Stdlib Require Import Qcanon.
From stdpp Require Import gmap list sorting.

Open Scope Z_scope.

(** ** Python values, exceptions, dictionaries *)

Inductive exn :=
  | IndexError
  | KeyError
  | OverflowError
  | InvalidRow
  | InconsistentCompleteState
  | QueueEmpty.

Inductive res (A : Type) :=
  | Ok (a : A)
  | Raise (e : exn).
Arguments Ok {A} a.
Arguments Raise {A} e.

Definition res_bind {A B} (r : res A) (k : A → res B) : res B :=
  match r with
  | Ok a => k a
  | Raise e => Raise e
  end.

Notation "x ←! r ; k" := (res_bind r (λ x, k))
  (at level 20, r at level 100, k at level 200, right associativity,
   format "x  ←!  r ;  '/' k").

(** The argument of [get_row] is an arbitrary Python object.
    [isinstance(row, int)] accepts the integers and, [bool] being a
    subclass of [int], the two truth values; these compare as 1 and 0 but
    numpy does not read them as indices. *)
Inductive pyobj :=
  | PyInt (z : Z)
  | PyBool (t : bool)
  | PyOther.

Abbreviation pydict K V := (list (K * V)).

Section pydict.
Context {K V : Type} `{EqDecision K}.

Fixpoint dict_get (d : pydict K V) (k : K) : option V :=
  match d with
  | [] => None
  | (k', v) :: d' => if decide (k' = k) then Some v else dict_get d' k
  end.

(** [d[k] = v]: an existing key keeps its position, a new key goes last. *)
Fixpoint dict_set (d : pydict K V) (k : K) (v : V) : pydict K V :=
  match d with
  | [] => [(k, v)]
  | (k', v') :: d' =>
      if decide (k' = k) then (k, v) :: d' else (k', v') :: dict_set d' k v
  end.

(** [del d[k]] raises [KeyError] when the key is missing. *)
Definition dict_del (d : pydict K V) (k : K) : res (pydict K V) :=
  match dict_get d k with
  | Some _ => Ok (filter (λ e, e.1 ≠ k) d)
  | None => Raise KeyError
  end.

Definition dict_wf (d : pydict K V) : Prop := NoDup d.*1.
End pydict.

(** [sorted(l, reverse=True, key=…)]: descending and stable. *)
Section sorted_desc.
Context {A : Type} (key : A → nat).

Fixpoint insert_desc (x : A) (l : list A) : list A :=
  match l with
  | [] => [x]
  | y :: l' =>
      if decide (key x < key y)%nat then y :: insert_desc x l'
      else x :: y :: l'
  end.

Definition sorted_desc (l : list A) : list A := foldr insert_desc [] l.
End sorted_desc.

(** ** numpy helpers *)

Abbreviation grid := (list (list Z)).

Definition grid_get (a : grid) (x y : nat) : Z := nth y (nth x a []) 0.

Definition grid_set (a : grid) (x y : nat) (v : Z) : grid :=
  alter (λ row, <[y := v]> row) x a.

(** [a.T] *)
Definition np_T (a : grid) : grid :=
  map (λ j, map (λ row, nth j row 0) a) (seq 0 (length (hd [] a))).

(** [a[i:i+g, j:j+g]] *)
Definition np_slice (a : grid) (i j g : nat) : grid :=
  map (λ row, take g (drop j row)) (take g (drop i a)).

(** [np.unique]: the sorted distinct values of the flattened array. *)
Definition np_unique (l : list Z) : list Z := merge_sort Z.le (remove_dups l).

(** [range(0, stop, step)]; Python rejects [step = 0], here the list is
    empty. *)
Definition range_step (stop step : nat) : list nat :=
  map (λ k, k * step)%nat (seq 0 ((stop + step - 1) / step)).

(** [a.tobytes()] for a C-contiguous int64 array: eight little-endian bytes
    per cell, two's complement. *)
Definition int64_le (z : Z) : list Z :=
  map (λ k, (z `div` 256 ^ Z.of_nat k) `mod` 256) (seq 0 8).

Definition tobytes (a : grid) : list Z := flat_map int64_le (concat a).

(** ** The board *)

Definition EMPTY_SPACE : Z := 0.

Inductive Version := NAIVE | IMPROVED | SORTED | STORE_LEGAL.

Abbreviation cell := (nat * nat)%type.
Abbreviation move := (nat * nat * Z)%type.

(** [_seed] only feeds the random generator of the puzzle generator and is
    left out. *)
Record SudokuBoard := {
  size : nat;
  size_sqrt : nat;
  _board : grid;
  last_move : option move;
  (** [None] when the attribute does not exist ([hasattr] is false) *)
  _move_cache : option (pydict cell (gset Z));
}.

(** [SudokuBoard(n)] *)
Definition SudokuBoard_init (n : nat) : SudokuBoard :=
  {| size := n * n;
     size_sqrt := n;
     _board := replicate (n * n) (replicate (n * n) EMPTY_SPACE);
     last_move := None;
     _move_cache := None |}.

Definition with_board (b : SudokuBoard) (a : grid) : SudokuBoard :=
  {| size := size b; size_sqrt := size_sqrt b; _board := a;
     last_move := last_move b; _move_cache := _move_cache b |}.

Definition with_cache (b : SudokuBoard) (c : pydict cell (gset Z)) :
    SudokuBoard :=
  {| size := size b; size_sqrt := size_sqrt b; _board := _board b;
     last_move := last_move b; _move_cache := Some c |}.

Definition set_board (b : SudokuBoard) (a : grid) : SudokuBoard :=
  with_board b a.

(** What [self._board[x][row]] evaluates to.  With an integer it is the
    cell.  A truth value is a mask over a new leading axis of the row
    [self._board[x]]: [True] gives the row as an array of shape 1×size,
    [False] an array of shape 0×size. *)
Inductive np_item :=
  | Scalar (v : Z)
  | Array (a : grid).

Definition get_row (b : SudokuBoard) (row : pyobj) : res (list np_item) :=
  match row with
  | PyInt r =>
      if bool_decide (r < 0 ∨ Z.of_nat (size b) ≤ r) then Raise InvalidRow
      else Ok (map (λ x, Scalar (grid_get (_board b) x (Z.to_nat r)))
                   (seq 0 (size b)))
  | PyBool t =>
      if bool_decide (Z.of_nat (size b) ≤ Z.b2z t) then Raise InvalidRow
      else Ok (map (λ x, Array (if t then [nth x (_board b) []] else []))
                   (seq 0 (size b)))
  | PyOther => Raise InvalidRow
  end.

(** One test of [is_legal_state]: the distinct nonzero values are as many
    as the nonzero entries. *)
Definition group_ok (vals : list Z) : bool :=
  bool_decide (length (np_unique (filter (λ v, v ≠ 0) vals))
               = length (filter (λ v, v ≠ 0) vals)).

Definition is_legal_state (b : SudokuBoard) : bool :=
  forallb group_ok (_board b)
  && forallb group_ok (np_T (_board b))
  && forallb (λ i,
       forallb (λ j,
         group_ok (concat (np_slice (_board b) i j (size_sqrt b))))
         (range_step (size b) (size_sqrt b)))
       (range_step (size b) (size_sqrt b)).

Definition all_cells (n : nat) : list cell :=
  x ← seq 0 n; y ← seq 0 n; [(x, y)].

(** ** Candidate sets (shared by Improved, Sorted and the cache) *)

Definition allowed_values (b : SudokuBoard) : gset Z :=
  list_to_set (map Z.of_nat (seq 1 (size b))).

Definition sub_grids (b : SudokuBoard) : list (list Z) :=
  i ← range_step (size b) (size_sqrt b);
  j ← range_step (size b) (size_sqrt b);
  [np_unique (concat (np_slice (_board b) i j (size_sqrt b)))].

Definition get_subgrid_index (b : SudokuBoard) (x y : nat) : nat :=
  (x / size_sqrt b * size_sqrt b + y / size_sqrt b)%nat.

Definition missing_sets (b : SudokuBoard) (groups : list (list Z)) :
    list (gset Z) :=
  map (λ g, allowed_values b ∖ list_to_set g) groups.

(** [rows[x] ∩ cols[y] ∩ subgrids[get_subgrid_index(x, y)]] *)
Definition possible_values (b : SudokuBoard) (x y : nat) : gset Z :=
  let rows := missing_sets b (_board b) in
  let cols := missing_sets b (np_T (_board b)) in
  let subgrids := missing_sets b (sub_grids b) in
  nth x rows ∅ ∩ nth y cols ∅ ∩ nth (get_subgrid_index b x y) subgrids ∅.

Definition moves_of (p : cell) (s : gset Z) : list move :=
  map (λ v, (p.1, p.2, v)) (elements s).

(** [get_move_cache(field=(x, y))] *)
Definition get_move_cache_field (b : SudokuBoard) (field : cell) : gset Z :=
  possible_values b field.1 field.2.

(** [get_move_cache()]: one entry per empty cell, in scanning order. *)
Definition get_move_cache (b : SudokuBoard) : pydict cell (gset Z) :=
  foldl (λ move_cache p,
           if decide (grid_get (_board b) p.1 p.2 = EMPTY_SPACE)
           then dict_set move_cache p (possible_values b p.1 p.2)
           else move_cache)
        [] (all_cells (size b)).

(** The three coordinate sets of [get_affected_coordinates].  They are
    Python sets of distinct tuples; [update_move_cache] only iterates them
    and its result does not depend on the order, so they are kept as the
    lists in which they are built. *)
Definition get_affected_coordinates (b : SudokuBoard) (x y : nat) :
    list cell * list cell * list cell :=
  let row := map (λ j, (x, j)) (seq 0 (size b)) in
  let col := map (λ j, (j, y)) (seq 0 (size b)) in
  let i_start := (x - x `mod` size_sqrt b)%nat in
  let j_start := (y - y `mod` size_sqrt b)%nat in
  let subgrid :=
    i ← seq 0 (size_sqrt b); j ← seq 0 (size_sqrt b);
    [((i_start + i)%nat, (j_start + j)%nat)] in
  (row, col, subgrid).

(** The body of [for field in group] in [update_move_cache]; the state is
    the cache, [remaining] and [fields]. *)
Definition update_field (val : Z)
    (st : pydict cell (gset Z) * gset Z * nat) (field : cell) :
    pydict cell (gset Z) * gset Z * nat :=
  let '(c, remaining, fields) := st in
  match dict_get c field with
  | None => st
  | Some s =>
      let s' := s ∖ {[val]} in
      (dict_set c field s', remaining ∪ s', S fields)
  end.

Definition update_group (val : Z) (c : pydict cell (gset Z))
    (group : list cell) : pydict cell (gset Z) :=
  let '(c', remaining, fields) := foldl (update_field val) (c, ∅, 0%nat) group in
  if decide (base.size remaining < fields)%nat
  then dict_set c' (0%nat, 0%nat) ∅
  else c'.

Definition update_move_cache (b : SudokuBoard) (c : pydict cell (gset Z))
    (m : move) : pydict cell (gset Z) :=
  let '(x, y, val) := m in
  let '(row, col, subgrid) := get_affected_coordinates b x y in
  foldl (update_group val) c [row; col; subgrid].

(** The Python ints a cell of the array can take. *)
Definition fits_int64 (v : Z) : Prop := - 2 ^ 63 ≤ v < 2 ^ 63.

Global Instance fits_int64_dec v : Decision (fits_int64 v).
Proof. unfold fits_int64. apply _. Defined.

(** [self._board[x][y] = val]: numpy checks the index first and then
    converts the value to the element type. *)
Definition store_cell (b : SudokuBoard) (x y : nat) (val : Z) : res SudokuBoard :=
  if decide (x < length (_board b) ∧ y < length (nth x (_board b) []))%nat
  then if decide (fits_int64 val)
       then Ok (with_board b (grid_set (_board b) x y val))
       else Raise OverflowError
  else Raise IndexError.

Definition apply_move (b : SudokuBoard) (m : move) : res SudokuBoard :=
  let '(x, y, val) := m in
  b1 ←! store_cell b x y val;
  let b2 := {| size := size b1; size_sqrt := size_sqrt b1; _board := _board b1;
               last_move := Some m; _move_cache := _move_cache b1 |} in
  match _move_cache b2 with
  | Some c =>
      c' ←! dict_del c (x, y);
      Ok (with_cache b2 (update_move_cache b2 c' m))
  | None => Ok b2
  end.

Definition undo_move (b : SudokuBoard) (m : move) : res SudokuBoard :=
  let '(x, y, val) := m in
  b1 ←! store_cell b x y EMPTY_SPACE;
  match _move_cache b1 with
  | Some _ => Ok (with_cache b1 (get_move_cache b1))
  | None => Ok b1
  end.

Definition is_complete (b : SudokuBoard) : res bool :=
  if existsb (λ p, bool_decide (grid_get (_board b) p.1 p.2 = EMPTY_SPACE))
             (all_cells (size b))
  then Ok false
  else if is_legal_state b then Ok true
  else Raise InconsistentCompleteState.

(** *** Naive *)

(** One trial [self._board[x][y] = i; if self.is_legal_state(): …]. *)
Definition naive_try (b : SudokuBoard) (x y : nat)
    (acc : list move * gset cell) (i : nat) : list move * gset cell :=
  if is_legal_state (with_board b (grid_set (_board b) x y (Z.of_nat i)))
  then (acc.1 ++ [(x, y, Z.of_nat i)], {[(x, y)]} ∪ acc.2)
  else acc.

(** The board is restored to [EMPTY_SPACE] after the trials of a cell, so
    every trial starts from the board as it was. *)
Definition naive_scan (b : SudokuBoard)
    (acc : list move * gset cell * nat) (p : cell) :
    list move * gset cell * nat :=
  let '(legal_moves, fields, empty_fields) := acc in
  if decide (grid_get (_board b) p.1 p.2 = EMPTY_SPACE)
  then
    let '(legal_moves', fields') :=
      foldl (naive_try b p.1 p.2) (legal_moves, fields) (seq 1 (size b)) in
    (legal_moves', fields', S empty_fields)
  else acc.

Definition naive_get_legal_moves (b : SudokuBoard) : list move :=
  let '(legal_moves, fields, empty_fields) :=
    foldl (naive_scan b) ([], ∅, 0%nat) (all_cells (size b)) in
  if decide (base.size fields = empty_fields) then legal_moves else [].

(** *** Improved / Sorted *)

(** The scan that fills the [legal_moves] dictionary; [None] is the early
    [return []] at a cell without candidates. *)
Fixpoint improved_scan (b : SudokuBoard) (cells : list cell) :
    option (pydict cell (list move)) :=
  match cells with
  | [] => Some []
  | p :: cells' =>
      if decide (grid_get (_board b) p.1 p.2 = EMPTY_SPACE) then
        let possible := possible_values b p.1 p.2 in
        if decide (possible = ∅) then None
        else (λ d, (p, moves_of p possible) :: d) <$> improved_scan b cells'
      else improved_scan b cells'
  end.

Definition improved_get_legal_moves (b : SudokuBoard) (version : Version) :
    list move :=
  match improved_scan b (all_cells (size b)) with
  | None => []
  | Some legal_moves =>
      match version with
      | SORTED => concat (sorted_desc length legal_moves.*2)
      | _ => concat legal_moves.*2
      end
  end.

(** *** Store-Legal *)

(** The loop of [cache_get_legal_moves] over the sorted items; [None] is
    the [return []] at an entry without candidates. *)
Fixpoint cache_scan (items : list (cell * gset Z)) : option (list move) :=
  match items with
  | [] => Some []
  | (p, moves) :: items' =>
      if decide (moves = ∅) then None
      else (λ l, moves_of p moves ++ l) <$> cache_scan items'
  end.

Definition cache_get_legal_moves (b : SudokuBoard) : list move * SudokuBoard :=
  let c := match _move_cache b with
           | Some c => c
           | None => get_move_cache b
           end in
  (default [] (cache_scan (sorted_desc (λ item, base.size item.2) c)),
   with_cache b c).

Definition get_legal_moves (b : SudokuBoard) (version : Version) :
    list move * SudokuBoard :=
  match version with
  | NAIVE => (naive_get_legal_moves b, b)
  | STORE_LEGAL => cache_get_legal_moves b
  | _ => (improved_get_legal_moves b version, b)
  end.

(** ** Example boards *)

Definition mk_board (n : nat) (a : grid) : SudokuBoard :=
  set_board (SudokuBoard_init n) a.

Definition board_A : SudokuBoard :=
  mk_board 2 [[1; 2; 0; 0];
              [0; 0; 4; 0];
              [0; 0; 0; 0];
              [0; 0; 0; 0]].

Definition board_B : SudokuBoard :=
  mk_board 2 [[0; 3; 4; 0];
              [4; 1; 0; 3];
              [0; 0; 0; 1];
              [1; 2; 3; 4]].

(** No value is left for cell (0, 3). *)
Definition board_dead : SudokuBoard :=
  mk_board 2 [[1; 2; 3; 0];
              [0; 0; 0; 4];
              [0; 0; 0; 0];
              [0; 0; 0; 0]].

(** Two 1s in the first row. *)
Definition board_illegal : SudokuBoard :=
  mk_board 2 [[1; 1; 0; 0];
              [0; 0; 0; 0];
              [0; 0; 0; 0];
              [0; 0; 0; 0]].

(** [board_A] after a first call of the Cached strategy: it now carries
    its candidate cache. *)
Definition board_A_cached : SudokuBoard := (cache_get_legal_moves board_A).2.

Definition board_C : SudokuBoard :=
  mk_board 2 [[0; 0; 0; 4];
              [0; 0; 0; 0];
              [0; 0; 0; 0];
              [2; 3; 0; 0]].

Definition board_C_cached : SudokuBoard := (cache_get_legal_moves board_C).2.

(** A solved board. *)
Definition board_full : SudokuBoard :=
  mk_board 2 [[1; 2; 3; 4];
              [3; 4; 1; 2];
              [2; 1; 4; 3];
              [4; 3; 2; 1]].

(** A stand-in digest, used where a statement is instantiated. *)
Definition toy_md5 (bytes : list Z) : Z := foldl (λ a x, a * 7 + x) 0 bytes.

(** ** Fingerprints *)

Section fingerprint.
(** [int(hashlib.md5(p).hexdigest(), 16)], the digest of a byte string
    read as a number; [hashlib] is a library, not code of the program. *)
Variable md5 : list Z → Z.

Definition __hash__ (b : SudokuBoard) : Z :=
  md5 (tobytes (_board b)) `mod` 10 ^ 16.

Definition __eq__ (b other : SudokuBoard) : bool :=
  bool_decide (__hash__ b = __hash__ other).

(** ** The search driver (dfs.py) *)

(** [visited_states] is a dictionary keyed by boards; boards hash and
    compare by fingerprint, so the field holds the fingerprints put in.
    For [solve], whose keys are copies, a lookup is membership in that
    set; for the lookups of [solve_recursive] see below.
    [branching_factor] is a float in the source and an exact rational
    here; [start_time] is left out.  [visit_log] is a ghost field, absent
    from the source: the boards handed to the driver (popped by [solve],
    passed to [solve_recursive]), latest first. *)
Record SudokuDFS := {
  state : SudokuBoard;
  visited_states : gset Z;
  revistited_states : nat;
  node_expansions : nat;
  branching_factor : Qc;
  branches : nat;
  invalid_states : nat;
  visit_log : list SudokuBoard;
}.

Definition reset_stats (d : SudokuDFS) : SudokuDFS :=
  {| state := state d;
     visited_states := ∅;
     revistited_states := 0;
     node_expansions := 0;
     branching_factor := 0%Qc;
     branches := 0;
     invalid_states := 0;
     visit_log := [] |}.

(** [SudokuDFS(board)] *)
Definition SudokuDFS_init (board : SudokuBoard) : SudokuDFS :=
  reset_stats
    {| state := board; visited_states := ∅; revistited_states := 0;
       node_expansions := 0; branching_factor := 0%Qc; branches := 0;
       invalid_states := 0; visit_log := [] |}.

Definition log_visit (s : SudokuBoard) (d : SudokuDFS) : SudokuDFS :=
  {| state := state d; visited_states := visited_states d;
     revistited_states := revistited_states d;
     node_expansions := node_expansions d;
     branching_factor := branching_factor d; branches := branches d;
     invalid_states := invalid_states d;
     visit_log := s :: visit_log d |}.

(** [self.visited_states[state] = True; self.node_expansions += 1] *)
Definition mark_expanded (s : SudokuBoard) (d : SudokuDFS) : SudokuDFS :=
  {| state := state d;
     visited_states := {[__hash__ s]} ∪ visited_states d;
     revistited_states := revistited_states d;
     node_expansions := S (node_expansions d);
     branching_factor := branching_factor d; branches := branches d;
     invalid_states := invalid_states d;
     visit_log := visit_log d |}.

(** [self.branches += 1] *)
Definition count_branch (d : SudokuDFS) : SudokuDFS :=
  {| state := state d; visited_states := visited_states d;
     revistited_states := revistited_states d;
     node_expansions := node_expansions d;
     branching_factor := branching_factor d; branches := S (branches d);
     invalid_states := invalid_states d;
     visit_log := visit_log d |}.

Definition update_branching_factor (d : SudokuDFS) (val : nat) : SudokuDFS :=
  let with_factor (br : nat) (bf : Qc) (inv : nat) :=
    {| state := state d; visited_states := visited_states d;
       revistited_states := revistited_states d;
       node_expansions := node_expansions d;
       branching_factor := bf; branches := br;
       invalid_states := inv;
       visit_log := visit_log d |} in
  let q (n : nat) : Qc := Qc_of_Z (Z.of_nat n) in
  if decide (val = 0%nat) then
    with_factor (branches d) (branching_factor d) (S (invalid_states d))
  else if decide (branching_factor d = 0%Qc) then
    with_factor 1%nat (q val) (invalid_states d)
  else
    with_factor (S (branches d))
      (branching_factor d
       + (q val - branching_factor d) / q (S (branches d)))%Qc
      (invalid_states d).

(** *** [solve]: explicit stack, one copy of the board per node *)

(** What one pass through the body of [while True] leads to. *)
Inductive iteration :=
  | Continue (d : SudokuDFS) (queue : list SudokuBoard)
  | Return (d : SudokuDFS) (s : SudokuBoard).

(** [for move in …: self.branches += 1; next_state = deepcopy(state);
    next_state.apply_move(move); queue.put(next_state)]; the head of the
    list is the top of the LIFO queue. *)
Fixpoint push_moves (s : SudokuBoard) (moves : list move)
    (d : SudokuDFS) (queue : list SudokuBoard) :
    res (SudokuDFS * list SudokuBoard) :=
  match moves with
  | [] => Ok (d, queue)
  | m :: moves' =>
      next_state ←! apply_move s m;
      push_moves s moves' (count_branch d) (next_state :: queue)
  end.

Definition solve_iteration (version : Version) (d : SudokuDFS)
    (queue : list SudokuBoard) : res iteration :=
  match queue with
  | [] => Raise QueueEmpty
  | s :: queue' =>
      let d := log_visit s d in
      if decide (__hash__ s ∈ visited_states d) then Ok (Continue d queue')
      else
        let d := mark_expanded s d in
        complete ←! is_complete s;
        if complete : bool then Ok (Return d s)
        else
          let '(moves, s) := get_legal_moves s version in
          r ←! push_moves s moves d queue';
          Ok (Continue r.1 r.2)
  end.

Inductive solve_outcome :=
  | Returned (d : SudokuDFS) (s : SudokuBoard)
  | Raised (e : exn)
  | Running (d : SudokuDFS) (queue : list SudokuBoard).

(** The loop, cut off after [fuel] iterations. *)
Fixpoint solve_loop (fuel : nat) (version : Version) (d : SudokuDFS)
    (queue : list SudokuBoard) : solve_outcome :=
  match fuel with
  | O => Running d queue
  | S fuel' =>
      match solve_iteration version d queue with
      | Raise e => Raised e
      | Ok (Return d' s) => Returned d' s
      | Ok (Continue d' queue') => solve_loop fuel' version d' queue'
      end
  end.

Definition solve (fuel : nat) (version : Version) (d : SudokuDFS) :
    solve_outcome :=
  let d := reset_stats d in
  solve_loop fuel version d [state d].

(** *** [solve_recursive]: one board, moves applied and undone in place *)

(** The function returns [None] or the board object it was given, so the
    result is a flag next to the threaded board.  [fuel] bounds the depth
    of the recursion; [None] means it was not enough. *)

(** [for move in legal_moves: …], with the recursive call as [rec]. *)
Fixpoint solve_recursive_loop
    (rec : SudokuBoard → SudokuDFS → option (res (bool * SudokuBoard * SudokuDFS)))
    (moves : list move) (s : SudokuBoard) (d : SudokuDFS) :
    option (res (bool * SudokuBoard * SudokuDFS)) :=
  match moves with
  | [] => Some (Ok (false, s, d))
  | m :: moves' =>
      let d := count_branch d in
      match apply_move s m with
      | Raise e => Some (Raise e)
      | Ok s =>
          match rec s d with
          | None => None
          | Some (Raise e) => Some (Raise e)
          | Some (Ok (result, s, d)) =>
              match is_complete s with
              | Raise e => Some (Raise e)
              | Ok true => Some (Ok (true, s, d))
              | Ok false =>
                  match undo_move s m with
                  | Raise e => Some (Raise e)
                  | Ok s =>
                      if result : bool then Some (Ok (true, s, d))
                      else solve_recursive_loop rec moves' s d
                  end
              end
          end
      end
  end.

(** [solve_recursive] works on one board object, changes it in place, and
    uses that one object as the key of every lookup and insertion in
    [visited_states].  A lookup in a CPython dictionary answers "found" as
    soon as it meets an entry whose key is the very object looked up,
    before it compares hashes; so a lookup finds every fingerprint that was
    put in, and it can also hit an entry that was stored under an earlier
    fingerprint of the board, depending on the layout of the table.  [hit]
    stands for the latter: whether, in this state of the driver, the
    lookup of a fingerprint that was not put in meets such an entry. *)
Section shared_key.
Variable hit : SudokuDFS → Z → bool.

Fixpoint solve_recursive_shared (fuel : nat) (version : Version)
    (s : SudokuBoard) (d : SudokuDFS) :
    option (res (bool * SudokuBoard * SudokuDFS)) :=
  match fuel with
  | O => None
  | S fuel' =>
      let d := log_visit s d in
      if decide (__hash__ s ∈ visited_states d ∨ hit d (__hash__ s) = true)
      then Some (Ok (false, s, d))
      else
        let d := mark_expanded s d in
        match is_complete s with
        | Raise e => Some (Raise e)
        | Ok true => Some (Ok (true, s, d))
        | Ok false =>
            let '(legal_moves, s) := get_legal_moves s version in
            let d := update_branching_factor d (length legal_moves) in
            solve_recursive_loop (solve_recursive_shared fuel' version)
                                 legal_moves s d
        end
  end.
End shared_key.
End fingerprint.

(** ** Specification vocabulary *)

(** The shape of the array the class works on: [size] rows of [size]
    cells, [size] the square of a positive [size_sqrt] and, being a
    dimension of a numpy array, below 2^63. *)
Definition wf_board (b : SudokuBoard) : Prop :=
  (0 < size_sqrt b)%nat ∧
  size b = (size_sqrt b * size_sqrt b)%nat ∧
  length (_board b) = size b ∧
  Forall (λ row, length row = size b) (_board b) ∧
  Z.of_nat (size b) < 2 ^ 63.

Definition cell_value (b : SudokuBoard) (p : cell) : Z :=
  grid_get (_board b) p.1 p.2.

Definition in_range (b : SudokuBoard) (p : cell) : Prop :=
  (p.1 < size b ∧ p.2 < size b)%nat.

Definition row_cells (n x : nat) : list cell := map (λ j, (x, j)) (seq 0 n).
Definition col_cells (n y : nat) : list cell := map (λ j, (j, y)) (seq 0 n).
Definition block_cells (g i j : nat) : list cell :=
  a ← seq 0 g; c ← seq 0 g; [((i + a)%nat, (j + c)%nat)].

(** Two cells constrain each other when they share a row, a column or a
    subgrid. *)
Definition related (g : nat) (p q : cell) : Prop :=
  p.1 = q.1 ∨ p.2 = q.2 ∨ (p.1 / g = q.1 / g ∧ p.2 / g = q.2 / g)%nat.

Definition legal (b : SudokuBoard) : Prop :=
  ∀ p q, in_range b p → in_range b q → p ≠ q → related (size_sqrt b) p q →
         cell_value b p = cell_value b q → cell_value b p = 0.

Global Instance related_dec g p q : Decision (related g p q).
Proof. unfold related. apply _. Defined.

Definition group_distinct (b : SudokuBoard) (cs : list cell) : Prop :=
  ∀ p q, p ∈ cs → q ∈ cs → p ≠ q →
         cell_value b p = cell_value b q → cell_value b p = 0.

Definition desc {A} (key : A → nat) (a b : A) : Prop := (key b ≤ key a)%nat.

(** The number an object is for [isinstance(row, int)] and for the
    comparisons of [get_row]: [True] and [False] count as 1 and 0. *)
Definition int_value (row : pyobj) : option Z :=
  match row with
  | PyInt r => Some r
  | PyBool t => Some (Z.b2z t)
  | PyOther => None
  end.

(** When the board carries a cache, [apply_move] needs the target cell to
    be one of its keys. *)
Definition cache_tracks (b : SudokuBoard) (p : cell) : Prop :=
  match _move_cache b with
  | Some c => is_Some (dict_get c p)
  | None => True
  end.

(** The empty cells in scanning order, and the candidate dictionary a
    from-scratch computation gives them. *)
Definition empty_cells (b : SudokuBoard) : list cell :=
  filter (λ p, cell_value b p = EMPTY_SPACE) (all_cells (size b)).

Definition fresh_cache (b : SudokuBoard) : pydict cell (gset Z) :=
  map (λ p, (p, possible_values b p.1 p.2)) (empty_cells b).

Definition group_moves (gs : list (cell * gset Z)) : list move :=
  concat (map (λ g, moves_of g.1 g.2) gs).

Definition by_size (g : cell * gset Z) : nat := base.size g.2.

(** A move list is grouped by cell in descending group size, relative to a
    candidate dictionary [d]: it is the concatenation of the moves of
    groups [gs], one per cell, each an entry of [d] with candidates, the
    larger sets first.  Every entry of [d] is there; only when some entry
    of [d] has no candidate at all (a dead end) is no group given
    instead.  The move a LIFO consumer pops first, the last of the list,
    then belongs to a cell whose set is as small as any. *)
Definition grouped_desc (d : pydict cell (gset Z)) (ms : list move) : Prop :=
  ∃ gs : list (cell * gset Z),
    ms = group_moves gs ∧
    NoDup gs.*1 ∧
    (∀ g, g ∈ gs → g ∈ d ∧ g.2 ≠ ∅) ∧
    StronglySorted (desc by_size) gs ∧
    (gs ≡ₚ d ∨ (gs = [] ∧ ∃ g, g ∈ d ∧ g.2 = ∅)) ∧
    (∀ m, last ms = Some m →
       ∃ s, ((m.1.1, m.1.2), s) ∈ gs ∧ m.2 ∈ s ∧
            ∀ g, g ∈ gs → (base.size s ≤ base.size g.2)%nat).

(** The moves Naive keeps for one cell: the values whose trial leaves the
    board legal. *)
Definition naive_cell (b : SudokuBoard) (p : cell) : list move :=
  map (λ i, (p.1, p.2, Z.of_nat i))
      (filter (λ i, is_legal_state
                      (with_board b (grid_set (_board b) p.1 p.2 (Z.of_nat i)))
                    = true)
              (seq 1 (size b))).

(** The cache, when there is one, answers every lookup as a from-scratch
    rebuild would. *)
Definition cache_exact (b : SudokuBoard) : Prop :=
  ∀ c, _move_cache b = Some c →
       dict_wf c ∧ ∀ p, dict_get c p = dict_get (get_move_cache b) p.

(** Interleavings of [apply_move] and [undo_move].  [ops_ok] asks of every
    applied move what the data model says of moves: the target is an empty
    cell of the grid and the value is not [EMPTY_SPACE] (and is one that a
    cell of the array can take). *)
Inductive cache_op :=
  | Apply (m : move)
  | Undo (m : move).

Fixpoint run_ops (ops : list cache_op) (b : SudokuBoard) : res SudokuBoard :=
  match ops with
  | [] => Ok b
  | Apply m :: ops' => b' ←! apply_move b m; run_ops ops' b'
  | Undo m :: ops' => b' ←! undo_move b m; run_ops ops' b'
  end.

Fixpoint ops_ok (n : nat) (a : grid) (ops : list cache_op) : Prop :=
  match ops with
  | [] => True
  | Apply (x, y, v) :: ops' =>
      (x < n)%nat ∧ (y < n)%nat ∧ grid_get a x y = EMPTY_SPACE ∧ v ≠ EMPTY_SPACE ∧
      fits_int64 v ∧
      ops_ok n (grid_set a x y v) ops'
  | Undo (x, y, v) :: ops' =>
      (x < n)%nat ∧ (y < n)%nat ∧ ops_ok n (grid_set a x y EMPTY_SPACE) ops'
  end.

(** A dictionary [c] follows the lookup function [F] except that the entry
    of cell (0, 0) may be the empty dead-end mark of [update_move_cache]. *)
Definition follows (c : pydict cell (gset Z)) (F : cell → option (gset Z)) : Prop :=
  ∀ p, dict_get c p = F p ∨ (p = (0%nat, 0%nat) ∧ dict_get c p = Some ∅).

Definition cache_agrees (b : SudokuBoard) (c : pydict cell (gset Z)) : Prop :=
  follows c (dict_get (get_move_cache b)).

(** The lookup function after one group of [update_move_cache]. *)
Definition strike (val : Z) (group : list cell)
    (F : cell → option (gset Z)) : cell → option (gset Z) :=
  λ p, if decide (p ∈ group) then (λ s, s ∖ {[val]}) <$> F p else F p.

(** What the search relies on in a board: it is well formed and legal, and
    its cache, when it has one, has distinct keys and agrees with a
    rebuild. *)
Definition cache_sound (b : SudokuBoard) : Prop :=
  ∀ c, _move_cache b = Some c → dict_wf c ∧ cache_agrees b c.

Definition good (b : SudokuBoard) : Prop :=
  wf_board b ∧ legal b ∧ cache_sound b.

(** A move a strategy may hand out on [b]: a candidate for an empty cell. *)
Definition move_ok (b : SudokuBoard) (m : move) : Prop :=
  (m.1.1 < size b)%nat ∧ (m.1.2 < size b)%nat ∧
  cell_value b (m.1.1, m.1.2) = EMPTY_SPACE ∧
  m.2 ∈ possible_values b m.1.1 m.1.2.

(** Two boards with the same grid and sizes. *)
Definition same_grid (b1 b2 : SudokuBoard) : Prop :=
  size b1 = size b2 ∧ size_sqrt b1 = size_sqrt b2 ∧ _board b1 = _board b2.

(** The boards an outcome of [solve] has popped, and those still waiting
    on its stack. *)
Definition popped (o : solve_outcome) : list SudokuBoard :=
  match o with
  | Returned d _ | Running d _ => visit_log d
  | Raised _ => []
  end.

Definition pending (o : solve_outcome) : list SudokuBoard :=
  match o with
  | Running _ queue => queue
  | _ => []
  end.

(** * More of the program *)

(** ** [get_first_legal_move] *)

(** The trials [for i in range(1, size + 1)] at one empty cell: the first
    value whose trial board passes [is_legal_state]. *)
Fixpoint first_legal_value (b : SudokuBoard) (x y : nat) (vals : list nat) :
    option nat :=
  match vals with
  | [] => None
  | i :: vals' =>
      if is_legal_state (with_board b (grid_set (_board b) x y (Z.of_nat i)))
      then Some i
      else first_legal_value b x y vals'
  end.

(** The scan.  The function returns from inside the trial loop, after
    [self._board[x][y] = i] and before the cell is reset, so the board it
    leaves behind holds the move; a cell whose trials all fail is reset and
    the scan goes on from the board as it was.  [None] is the exception
    "No legal move found." raised after the scan. *)
Fixpoint first_legal_scan (b : SudokuBoard) (cells : list cell) :
    option (move * SudokuBoard) :=
  match cells with
  | [] => None
  | p :: cells' =>
      if decide (grid_get (_board b) p.1 p.2 = EMPTY_SPACE) then
        match first_legal_value b p.1 p.2 (seq 1 (size b)) with
        | Some i =>
            Some ((p.1, p.2, Z.of_nat i),
                  with_board b (grid_set (_board b) p.1 p.2 (Z.of_nat i)))
        | None => first_legal_scan b cells'
        end
      else first_legal_scan b cells'
  end.

Definition get_first_legal_move (b : SudokuBoard) : option (move * SudokuBoard) :=
  first_legal_scan b (all_cells (size b)).

(** ** [remove_random_number] *)

(** A call draws a cell with two calls of [random.randrange(0, size)] and
    calls itself again when the cell is empty.  The cells the generator
    will deliver are a parameter, one per call; [None] means that they did
    not suffice, the recursion is still going on (the recursion limit of
    the interpreter is not modelled).  The cache is not touched. *)
Fixpoint remove_random_number (draws : list cell) (b : SudokuBoard) :
    option SudokuBoard :=
  match draws with
  | [] => None
  | (x, y) :: draws' =>
      if decide (grid_get (_board b) x y ≠ 0)
      then Some (with_board b (grid_set (_board b) x y 0))
      else remove_random_number draws' b
  end.

(** ** [solve_recursive] and the dictionary of CPython *)

(** A stand-in for [hit], used where a statement is instantiated: a table
    of eight slots in which a lookup hits whatever entry occupies the slot
    it probes first. *)
Definition slot_hit (d : SudokuDFS) (h : Z) : bool :=
  bool_decide (h `mod` 8 ∈ (set_map (λ h', h' `mod` 8) (visited_states d) : gset Z)).

(** ** More example boards *)

(** A board with the solution [board_full]. *)
Definition board_D : SudokuBoard :=
  mk_board 2 [[0; 2; 3; 4];
              [3; 0; 1; 2];
              [2; 1; 0; 3];
              [4; 3; 2; 1]].

(** [board_D] carrying the cache the Cached strategy has built for it. *)
Definition board_D_cached : SudokuBoard := (cache_get_legal_moves board_D).2.

(** A legal board with a cache that is out of date: the cache was built
    by the Cached strategy while the board was empty, and the grid was
    put in afterwards with [set_board], which leaves the cache alone.
    Every value conflicts at cell (3, 3): its row holds 3, 2, 1 and its
    column 4. *)
Definition board_stale : SudokuBoard :=
  set_board (cache_get_legal_moves (SudokuBoard_init 2)).2
            [[0; 1; 2; 3];
             [4; 0; 0; 0];
             [0; 0; 0; 4];
             [3; 2; 1; 0]].

(** ** Solutions *)

(** [s] keeps the sizes and every filled cell of [b]. *)
Definition extends (b s : SudokuBoard) : Prop :=
  size s = size b ∧ size_sqrt s = size_sqrt b ∧
  ∀ p, in_range b p → cell_value b p ≠ EMPTY_SPACE →
       cell_value s p = cell_value b p.

(** A solved board: well formed, without conflicts, every cell holding one
    of the values 1 … size. *)
Definition solved (s : SudokuBoard) : Prop :=
  wf_board s ∧ legal s ∧
  ∀ p, in_range s p → 1 ≤ cell_value s p ≤ Z.of_nat (size s).

(** A cache [c] is the rebuild of the board [b], except that the entry of
    cell (0, 0) may be the empty dead-end mark of [update_move_cache] when
    the board cannot be completed: no solved board keeps its filled
    cells. *)
Definition cache_marked (b : SudokuBoard) (c : pydict cell (gset Z)) : Prop :=
  ∀ p, dict_get c p = dict_get (get_move_cache b) p ∨
       (p = (0%nat, 0%nat) ∧ dict_get c p = Some ∅ ∧
        ¬ ∃ σ, solved σ ∧ extends b σ).

(** Every cell holds [EMPTY_SPACE] or one of the values 1 … size. *)
Definition clues_in_range (b : SudokuBoard) : Prop :=
  ∀ p, in_range b p → 0 ≤ cell_value b p ≤ Z.of_nat (size b).

(** The invariant behind the soundness of both drivers: the board is well
    formed, keeps the filled cells of the initial board and, when that one
    holds nothing but [EMPTY_SPACE] and the values 1 … size, so does it. *)
Definition keeps_clues (b0 s : SudokuBoard) : Prop :=
  wf_board s ∧ extends b0 s ∧ (clues_in_range b0 → clues_in_range s).

(** The board [b] with the move [m] written into its grid. *)
Definition placed (b : SudokuBoard) (m : move) : SudokuBoard :=
  with_board b (grid_set (_board b) m.1.1 m.1.2 m.2).

(** The order in which the double loop over [range(size)] meets the
    cells. *)
Definition scan_before (p q : cell) : Prop :=
  (p.1 < q.1 ∨ (p.1 = q.1 ∧ p.2 < q.2))%nat.

(** ** Termination and statistics of the drivers *)

(** A bound on the number of passes of the loop of [solve] that a stack
    entry with [k] empty cells can cause, when no board has more than
    [width] moves: one pass for the entry and the passes of its
    successors. *)
Fixpoint solve_bound (width k : nat) : nat :=
  match k with
  | O => 1
  | S k' => 1 + width * solve_bound width k'
  end.

Definition solve_fuel (b : SudokuBoard) : nat :=
  S (solve_bound (size b * size b * size b) (length (empty_cells b))).

(** Every move there can be on a board of size [n]. *)
Definition all_moves (n : nat) : list move :=
  p ← all_cells n; v ← seq 1 n; [(p.1, p.2, Z.of_nat v)].

(** The passes the entries of a stack can still cause. *)
Definition queue_weight (width : nat) (queue : list SudokuBoard) : nat :=
  sum_list_with (λ s, solve_bound width (length (empty_cells s))) queue.

(** The statistics [solve] maintains: one expansion per fingerprint in
    [visited_states], and the three fields it never writes after
    [reset_stats]. *)
Definition solve_stats (d : SudokuDFS) : Prop :=
  node_expansions d = base.size (visited_states d) ∧
  revistited_states d = 0%nat ∧
  branching_factor d = 0%Qc ∧
  invalid_states d = 0%nat.

(** The bookkeeping of [solve_recursive] between two drivers: fingerprints
    are only added, every addition is counted as one expansion, and the
    revisit counter is not written. *)
Definition rec_stats (d d' : SudokuDFS) : Prop :=
  visited_states d ⊆ visited_states d' ∧
  (node_expansions d' + base.size (visited_states d)
   = node_expansions d + base.size (visited_states d'))%nat ∧
  revistited_states d' = revistited_states d.

(** ** Completeness of the drivers *)

(** No two of the boards share a fingerprint without sharing the grid. *)
Definition no_collision (md5 : list Z → Z) (l : list SudokuBoard) : Prop :=
  ∀ s t, s ∈ l → t ∈ l → __hash__ md5 s = __hash__ md5 t → _board s = _board t.

(** The boolean test of [no_collision]. *)
Definition no_collision_check (md5 : list Z → Z) (l : list SudokuBoard) : bool :=
  forallb (λ s, forallb (λ t,
    implb (bool_decide (__hash__ md5 s = __hash__ md5 t))
          (bool_decide (_board s = _board t))) l) l.

(** What the loop of [solve] maintains with respect to a solution [σ] of
    the initial board [b0], as long as fingerprints do not collide: the
    stack holds a board not yet expanded that [σ] extends, and beyond
    every popped board that [σ] extends there is such a board. *)
Definition search_inv (md5 : list Z → Z) (σ b0 : SudokuBoard)
    (d : SudokuDFS) (queue : list SudokuBoard) : Prop :=
  Forall (λ s, good s ∧ size s = size b0 ∧ size_sqrt s = size_sqrt b0 ∧
               (extends s σ → cache_exact s)) queue ∧
  Forall (λ t, size t = size b0 ∧ size_sqrt t = size_sqrt b0) (visit_log d) ∧
  (∀ h, h ∈ visited_states d → ∃ t, t ∈ visit_log d ∧ __hash__ md5 t = h) ∧
  (∃ s, s ∈ queue ∧ (__hash__ md5 s ∉ visited_states d) ∧ extends s σ) ∧
  (∀ t, t ∈ visit_log d → extends t σ →
     ∃ s, s ∈ queue ∧ (__hash__ md5 s ∉ visited_states d) ∧
          extends s σ ∧ extends t s).

(** What [solve_recursive] maintains in its driver: every fingerprint in
    [visited_states] is the one of a board it was called on, and those
    boards have the sizes of the initial board [b0]. *)
Definition rec_inv (md5 : list Z → Z) (b0 : SudokuBoard) (d : SudokuDFS) : Prop :=
  (∀ h, h ∈ visited_states d → ∃ t, t ∈ visit_log d ∧ __hash__ md5 t = h) ∧
  Forall (λ t, size t = size b0 ∧ size_sqrt t = size_sqrt b0) (visit_log d).

(** What a call of [solve_recursive] has to deliver with respect to a
    solution [σ]: the bookkeeping is kept; from a board that [σ] extends,
    and that differs from every board that [σ] extends and that was
    handled before, the answer is the board; and a call that answers
    [None] has been given no board that [σ] extends. *)
Definition rec_complete (md5 : list Z → Z) (σ b0 : SudokuBoard)
    (rec : SudokuBoard → SudokuDFS → option (res (bool * SudokuBoard * SudokuDFS)))
    (fuel : nat) : Prop :=
  ∀ s d r s' d',
    good s → (extends s σ → cache_exact s) →
    (length (empty_cells s) < fuel)%nat →
    size s = size b0 → size_sqrt s = size_sqrt b0 →
    Forall good (visit_log d) → rec_inv md5 b0 d →
    (∀ t, t ∈ visit_log d → extends t σ → extends t s ∧ _board t ≠ _board s) →
    rec s d = Some (Ok (r, s', d')) →
    no_collision md5 (visit_log d') →
    rec_inv md5 b0 d' ∧
    (extends s σ → r = true) ∧
    (r = false → ∀ t, t ∈ visit_log d' → extends t σ → t ∈ visit_log d).

(** * Properties *)

(** ** Lists, dictionaries, sorting *)

Lemma res_bind_Ok {A B} (r : res A) (k : A → res B) b :
  res_bind r k = Ok b ↔ ∃ a, r = Ok a ∧ k a = Ok b.
Proof.
  destruct r; simpl; split.
  - eauto.
  - by intros (? & [= ->] & ?).
  - done.
  - by intros (? & ? & ?).
Qed.

Lemma nth_seq_map {A} (l : list A) d :
  l = map (λ i, nth i l d) (seq 0 (length l)).
Proof.
  induction l as [|a l IH]; [done|]. simpl. f_equal.
  rewrite <- seq_shift, map_map. exact IH.
Qed.

Lemma take_drop_seq_map {A} (l : list A) d j g :
  (j + g ≤ length l)%nat →
  take g (drop j l) = map (λ k, nth (j + k) l d) (seq 0 g).
Proof.
  intros Hle.
  rewrite (nth_seq_map (take g (drop j l)) d).
  rewrite length_take, length_drop, Nat.min_l by lia.
  apply map_ext_in. intros k Hk%in_seq.
  rewrite !nth_lookup, lookup_take_lt, lookup_drop by lia. done.
Qed.

Lemma concat_map_map_bind {A B C} (F : A → B → C) (l1 : list A) (l2 : list B) :
  concat (map (λ i, map (F i) l2) l1) = (i ← l1; j ← l2; [F i j]).
Proof.
  induction l1 as [|i l1 IH]; [done|]. simpl. rewrite IH. by f_equal.
Qed.

Lemma map_bind_pairs {A B C D} (f : C → D) (F : A → B → C)
    (l1 : list A) (l2 : list B) :
  map f (i ← l1; j ← l2; [F i j]) = (i ← l1; j ← l2; [f (F i j)]).
Proof.
  induction l1 as [|i l1 IH]; [done|]. simpl. rewrite map_app. f_equal; [|exact IH].
  clear. induction l2 as [|j l2 IH]; [done|]. simpl. by f_equal.
Qed.

Lemma length_remove_dups_le (l : list Z) : (length (remove_dups l) ≤ length l)%nat.
Proof.
  induction l as [|a l IH]; simpl; [done|].
  destruct (decide_rel _ _ _); simpl; lia.
Qed.

Lemma length_remove_dups_NoDup (l : list Z) :
  length (remove_dups l) = length l ↔ NoDup l.
Proof.
  induction l as [|a l IH]; simpl.
  - split; [constructor|done].
  - pose proof (length_remove_dups_le l).
    destruct (decide_rel _ _ _) as [Hin|Hin]; simpl.
    + split; [lia|]. intros [? _]%NoDup_cons. done.
    + rewrite NoDup_cons. split.
      * intros ?. split; [done|]. apply IH. lia.
      * intros [_ ?%IH]. lia.
Qed.

Lemma elem_of_np_unique (l : list Z) v : v ∈ np_unique l ↔ v ∈ l.
Proof.
  unfold np_unique. rewrite merge_sort_Permutation. apply elem_of_remove_dups.
Qed.

Lemma group_ok_NoDup (vals : list Z) :
  group_ok vals = true ↔ NoDup (filter (λ v, v ≠ 0) vals).
Proof.
  unfold group_ok, np_unique. rewrite bool_decide_eq_true.
  rewrite (Permutation_length (merge_sort_Permutation _ _)).
  apply length_remove_dups_NoDup.
Qed.

(** A group given by the cells it covers has no repeated nonzero value
    exactly when distinct cells never share a nonzero value. *)
Lemma NoDup_filter_nonzero_map {A} (f : A → Z) (cs : list A) :
  NoDup cs →
  NoDup (filter (λ v, v ≠ 0) (map f cs)) ↔
  ∀ p q, p ∈ cs → q ∈ cs → p ≠ q → f p = f q → f p = 0.
Proof.
  induction 1 as [|c cs Hc Hnd IH]; simpl.
  - split; [|constructor]. intros _ p q Hp. by apply elem_of_nil in Hp.
  - rewrite filter_cons. destruct (decide (f c ≠ 0)) as [Hnz|Hz].
    + rewrite NoDup_cons, IH. split.
      * intros [Hnin Hrest] p q Hp Hq Hpq Heq.
        apply elem_of_cons in Hp as [->|Hp], Hq as [->|Hq]; try done.
        -- exfalso. apply Hnin, list_elem_of_filter. split; [done|].
           apply list_elem_of_fmap. eauto.
        -- exfalso. apply Hnin, list_elem_of_filter. split; [done|].
           apply list_elem_of_fmap. eauto.
        -- eauto.
      * intros Hall. split.
        -- intros [_ (q & Hq1 & Hq2)%list_elem_of_fmap]%list_elem_of_filter.
           apply Hnz, (Hall c q); [left|by right| |done]. by intros ->.
        -- intros p q Hp Hq. apply Hall; by right.
    + apply dec_stable in Hz. rewrite IH. split.
      * intros Hall p q Hp Hq Hpq Heq.
        apply elem_of_cons in Hp as [->|Hp], Hq as [->|Hq]; try done; eauto.
        congruence.
      * intros Hall p q Hp Hq. apply Hall; by right.
Qed.

Section pydict_lemmas.
Context {K V : Type} `{EqDecision K}.
Implicit Types (d : pydict K V) (k : K) (v : V).

Lemma dict_get_set d k v k' :
  dict_get (dict_set d k v) k' = if decide (k = k') then Some v else dict_get d k'.
Proof.
  induction d as [|[k0 v0] d IH]; simpl.
  - done.
  - destruct (decide (k0 = k)) as [->|Hne]; simpl.
    + by destruct (decide (k = k')).
    + destruct (decide (k0 = k')) as [->|]; [|done].
      by rewrite decide_False by congruence.
Qed.

Lemma dict_get_filter_ne d k k' :
  dict_get (filter (λ e, e.1 ≠ k) d) k' =
  if decide (k = k') then None else dict_get d k'.
Proof.
  induction d as [|[k0 v0] d IH].
  - simpl. by destruct (decide _).
  - rewrite filter_cons. simpl. destruct (decide (k0 ≠ k)) as [Hne|Heq]; simpl.
    + rewrite IH. destruct (decide (k0 = k')) as [->|]; [|done].
      by rewrite decide_False by congruence.
    + apply dec_stable in Heq as ->. rewrite IH.
      destruct (decide (k = k')); done.
Qed.

Lemma dict_get_Some_elem_of d k v : dict_get d k = Some v → (k, v) ∈ d.
Proof.
  induction d as [|[k0 v0] d IH]; simpl; [done|].
  destruct (decide (k0 = k)) as [->|]; [intros [= ->]; left|right; auto].
Qed.

Lemma dict_get_None d k : dict_get d k = None ↔ k ∉ d.*1.
Proof.
  induction d as [|[k0 v0] d IH]; simpl.
  - split; [intros _ []%elem_of_nil|done].
  - rewrite not_elem_of_cons. destruct (decide (k0 = k)) as [->|Hne].
    + split; [done|]. by intros [? _].
    + rewrite IH. split; [|by intros [_ ?]]. intros ?. split; [congruence|done].
Qed.

Lemma elem_of_dict_get d k v : dict_wf d → (k, v) ∈ d → dict_get d k = Some v.
Proof.
  unfold dict_wf. induction d as [|[k0 v0] d IH]; simpl.
  - by intros _ ?%elem_of_nil.
  - intros [Hnin Hnd]%NoDup_cons [[= -> ->]|Hin]%elem_of_cons.
    + by rewrite decide_True.
    + rewrite decide_False; [auto|]. intros ->. apply Hnin.
      apply list_elem_of_fmap. by exists (k, v).
Qed.

Lemma dict_set_keys_in d k v : k ∈ d.*1 → (dict_set d k v).*1 = d.*1.
Proof.
  induction d as [|[k0 v0] d IH]; simpl; [by intros ?%elem_of_nil|].
  destruct (decide (k0 = k)) as [->|Hne]; simpl; [done|].
  intros [?|?]%elem_of_cons; [done|]. f_equal. auto.
Qed.

Lemma dict_set_keys_fresh d k v : k ∉ d.*1 → dict_set d k v = d ++ [(k, v)].
Proof.
  induction d as [|[k0 v0] d IH]; simpl; [done|].
  intros [? ?]%not_elem_of_cons.
  rewrite decide_False by done. f_equal. auto.
Qed.

Lemma dict_set_wf d k v : dict_wf d → dict_wf (dict_set d k v).
Proof.
  unfold dict_wf. intros Hnd. destruct (decide (k ∈ d.*1)).
  - by rewrite dict_set_keys_in.
  - rewrite dict_set_keys_fresh, fmap_app by done. simpl.
    apply NoDup_app. split_and!; [done| |apply NoDup_singleton].
    intros x Hx ->%list_elem_of_singleton. done.
Qed.

Lemma dict_filter_wf (P : K * V → Prop) `{∀ e, Decision (P e)} d :
  dict_wf d → dict_wf (filter P d).
Proof.
  unfold dict_wf. induction d as [|[k0 v0] d IH]; simpl; [done|].
  intros [Hnin Hnd]%NoDup_cons. rewrite filter_cons.
  destruct (decide _); simpl; [|auto].
  apply NoDup_cons. split; [|auto].
  intros ([k1 v1] & ? & [_ ?]%list_elem_of_filter)%list_elem_of_fmap.
  simpl in *. subst. apply Hnin, list_elem_of_fmap. by exists (k1, v1).
Qed.
End pydict_lemmas.

Section sorted_desc_lemmas.
Context {A : Type} (key : A → nat).

Lemma insert_desc_Permutation x l : insert_desc key x l ≡ₚ x :: l.
Proof.
  induction l as [|y l IH]; simpl; [done|].
  destruct (decide _); [|done]. rewrite IH. apply perm_swap.
Qed.

Lemma sorted_desc_Permutation l : sorted_desc key l ≡ₚ l.
Proof.
  induction l as [|x l IH]; simpl; [done|].
  by rewrite insert_desc_Permutation, IH.
Qed.


Lemma insert_desc_sorted x l :
  StronglySorted (desc key) l → StronglySorted (desc key) (insert_desc key x l).
Proof.
  induction 1 as [|y l Hs IH Hall]; simpl.
  - repeat constructor.
  - destruct (decide _) as [Hlt|Hge].
    + constructor; [done|].
      rewrite insert_desc_Permutation. constructor; [unfold desc; lia|done].
    + constructor; [by constructor|].
      constructor; [unfold desc; lia|].
      eapply Forall_impl; [exact Hall|]. unfold desc. intros; simpl in *; lia.
Qed.

Lemma sorted_desc_sorted l : StronglySorted (desc key) (sorted_desc key l).
Proof.
  induction l; simpl; [constructor|]. by apply insert_desc_sorted.
Qed.
End sorted_desc_lemmas.

(** ** Well-formed boards and the cells of a group *)


Lemma get_affected_coordinates_cells b x y :
  get_affected_coordinates b x y =
  (row_cells (size b) x, col_cells (size b) y,
   block_cells (size_sqrt b) (x - x `mod` size_sqrt b) (y - y `mod` size_sqrt b)).
Proof. reflexivity. Qed.

Lemma elem_of_row_cells n x q : q ∈ row_cells n x ↔ q.1 = x ∧ (q.2 < n)%nat.
Proof.
  unfold row_cells. rewrite list_elem_of_fmap. destruct q as [q1 q2]. simpl. split.
  - intros (j & [= -> ->] & Hj%elem_of_seq). lia.
  - intros [-> ?]. exists q2. split; [done|]. apply elem_of_seq. lia.
Qed.

Lemma elem_of_col_cells n y q : q ∈ col_cells n y ↔ q.2 = y ∧ (q.1 < n)%nat.
Proof.
  unfold col_cells. rewrite list_elem_of_fmap. destruct q as [q1 q2]. simpl. split.
  - intros (j & [= -> ->] & Hj%elem_of_seq). lia.
  - intros [-> ?]. exists q1. split; [done|]. apply elem_of_seq. lia.
Qed.

Lemma elem_of_block_cells g i j q :
  q ∈ block_cells g i j ↔
  (i ≤ q.1 < i + g)%nat ∧ (j ≤ q.2 < j + g)%nat.
Proof.
  unfold block_cells. rewrite list_elem_of_bind. destruct q as [q1 q2]. simpl. split.
  - intros (a & (c & Hq & Hc%elem_of_seq)%list_elem_of_bind & Ha%elem_of_seq).
    apply list_elem_of_singleton in Hq as [= -> ->]. lia.
  - intros [? ?]. exists (q1 - i)%nat. split; [|apply elem_of_seq; lia].
    apply list_elem_of_bind. exists (q2 - j)%nat. split; [|apply elem_of_seq; lia].
    apply list_elem_of_singleton. f_equal; lia.
Qed.

Lemma NoDup_row_cells n x : NoDup (row_cells n x).
Proof. apply NoDup_fmap_2; [intros ?? [=]; done|apply NoDup_seq]. Qed.

Lemma NoDup_col_cells n y : NoDup (col_cells n y).
Proof. apply NoDup_fmap_2; [intros ?? [=]; done|apply NoDup_seq]. Qed.

Lemma NoDup_block_cells g i j : NoDup (block_cells g i j).
Proof.
  unfold block_cells. apply NoDup_bind; [| |apply NoDup_seq].
  - intros a1 a2 q _ _ (c1 & Hq1 & _)%list_elem_of_bind (c2 & Hq2 & _)%list_elem_of_bind.
    apply list_elem_of_singleton in Hq1, Hq2. subst q. injection Hq2. lia.
  - intros a _. apply NoDup_bind; [| |apply NoDup_seq].
    + intros c1 c2 q _ _ Hq1%list_elem_of_singleton Hq2%list_elem_of_singleton.
      subst q. injection Hq2. lia.
    + intros c _. apply NoDup_singleton.
Qed.

Lemma elem_of_all_cells n q : q ∈ all_cells n ↔ (q.1 < n ∧ q.2 < n)%nat.
Proof.
  unfold all_cells. rewrite list_elem_of_bind. destruct q as [q1 q2]. simpl. split.
  - intros (a & (c & Hq & Hc%elem_of_seq)%list_elem_of_bind & Ha%elem_of_seq).
    apply list_elem_of_singleton in Hq as [= -> ->]. lia.
  - intros [? ?]. exists q1. split; [|apply elem_of_seq; lia].
    apply list_elem_of_bind. exists q2. split; [|apply elem_of_seq; lia].
    by apply list_elem_of_singleton.
Qed.

Lemma NoDup_all_cells n : NoDup (all_cells n).
Proof.
  unfold all_cells. apply NoDup_bind; [| |apply NoDup_seq].
  - intros a1 a2 q _ _ (c1 & Hq1 & _)%list_elem_of_bind (c2 & Hq2 & _)%list_elem_of_bind.
    apply list_elem_of_singleton in Hq1, Hq2. subst q. by injection Hq2.
  - intros a _. apply NoDup_bind; [| |apply NoDup_seq].
    + intros c1 c2 q _ _ Hq1%list_elem_of_singleton Hq2%list_elem_of_singleton.
      subst q. by injection Hq2.
    + intros c _. apply NoDup_singleton.
Qed.

Section wf_facts.
Context (b : SudokuBoard) (Hwf : wf_board b).

Lemma wf_row_length x : (x < size b)%nat → length (nth x (_board b) []) = size b.
Proof.
  destruct Hwf as (_ & _ & Hlen & Hrows & _). intros Hx.
  destruct (nth_lookup_or_length (_board b) x []) as [Hl|?]; [|lia].
  by eapply Forall_lookup_1 in Hrows.
Qed.

Lemma row_values x :
  (x < size b)%nat →
  nth x (_board b) [] = map (cell_value b) (row_cells (size b) x).
Proof.
  intros Hx. unfold row_cells. rewrite map_map.
  rewrite (nth_seq_map (nth x (_board b) []) 0) at 1.
  by rewrite wf_row_length.
Qed.

Lemma col_values y :
  map (λ row, nth y row 0) (_board b) = map (cell_value b) (col_cells (size b) y).
Proof.
  destruct Hwf as (_ & _ & Hlen & _).
  unfold col_cells. rewrite map_map.
  rewrite (nth_seq_map (_board b) []) at 1. rewrite map_map, Hlen. done.
Qed.

Lemma np_T_cols :
  np_T (_board b) = map (λ y, map (cell_value b) (col_cells (size b) y)) (seq 0 (size b)).
Proof.
  unfold np_T. replace (length (hd [] (_board b))) with (size b).
  - apply map_ext. intros y. apply col_values.
  - destruct Hwf as (Hg & Hsz & Hlen & Hrows & _).
    destruct (_board b) as [|r rs]; simpl in *.
    + rewrite <- Hlen in Hsz. destruct (size_sqrt b); simpl in *; lia.
    + by apply Forall_cons in Hrows as [-> _].
Qed.

Lemma block_values i j g :
  (i + g ≤ size b)%nat → (j + g ≤ size b)%nat →
  concat (np_slice (_board b) i j g) = map (cell_value b) (block_cells g i j).
Proof.
  intros Hi Hj. destruct Hwf as (_ & _ & Hlen & _).
  unfold np_slice, block_cells.
  rewrite (take_drop_seq_map _ []) by lia.
  rewrite map_map, map_bind_pairs.
  rewrite <- (concat_map_map_bind (λ a c, cell_value b ((i + a)%nat, (j + c)%nat))).
  f_equal. apply map_ext_in. intros a Ha%in_seq.
  rewrite (take_drop_seq_map _ 0) by (rewrite wf_row_length; lia). done.
Qed.

Lemma range_step_wf :
  range_step (size b) (size_sqrt b) = map (λ k, k * size_sqrt b)%nat (seq 0 (size_sqrt b)).
Proof.
  destruct Hwf as (Hg & Hsz & _). unfold range_step. f_equal. f_equal.
  rewrite Hsz.
  replace (size_sqrt b * size_sqrt b + size_sqrt b - 1)%nat
    with (size_sqrt b - 1 + size_sqrt b * size_sqrt b)%nat by lia.
  rewrite Nat.div_add by lia. rewrite Nat.div_small; lia.
Qed.

Lemma block_start_le k :
  (k < size_sqrt b)%nat → (k * size_sqrt b + size_sqrt b ≤ size b)%nat.
Proof. destruct Hwf as (Hg & Hsz & _). rewrite Hsz. nia. Qed.

Lemma div_lt_sqrt x : (x < size b)%nat → (x / size_sqrt b < size_sqrt b)%nat.
Proof.
  destruct Hwf as (Hg & Hsz & _). rewrite Hsz. intros.
  apply Nat.Div0.div_lt_upper_bound. lia.
Qed.
End wf_facts.

(** ** What the candidate sets and the legality test compute *)


Lemma related_sym g p q : related g p q → related g q p.
Proof. unfold related. intros [?|[?|[? ?]]]; auto. Qed.

Lemma nth_map_lt {A B} (f : A → B) (l : list A) i d d' :
  (i < length l)%nat → nth i (map f l) d = f (nth i l d').
Proof.
  intros Hi. rewrite (nth_indep _ d (f d')) by (rewrite length_map; lia).
  apply map_nth.
Qed.

Lemma nth_bind_pairs {A B C} (F : A → B → C) (l1 : list A) (l2 : list B) a c d d1 d2 :
  (a < length l1)%nat → (c < length l2)%nat →
  nth (a * length l2 + c) (i ← l1; j ← l2; [F i j]) d = F (nth a l1 d1) (nth c l2 d2).
Proof.
  revert a. induction l1 as [|i l1 IH]; intros a Ha Hc; simpl in Ha; [lia|].
  rewrite bind_cons.
  assert (Hlen : length (j ← l2; [F i j]) = length l2).
  { change (j ← l2; [F i j]) with (map (F i) l2). apply length_map. }
  destruct a as [|a]; simpl.
  - rewrite app_nth1 by lia.
    change (j ← l2; [F i j]) with (map (F i) l2). by apply nth_map_lt.
  - rewrite app_nth2 by lia. rewrite Hlen.
    replace (length l2 + a * length l2 + c - length l2)%nat
      with (a * length l2 + c)%nat by lia.
    apply IH; lia.
Qed.

Lemma length_bind_pairs {A B C} (F : A → B → C) (l1 : list A) (l2 : list B) :
  length (i ← l1; j ← l2; [F i j]) = (length l1 * length l2)%nat.
Proof.
  induction l1 as [|i l1 IH]; [done|].
  rewrite bind_cons, length_app, IH. simpl. f_equal.
  change (j ← l2; [F i j]) with (map (F i) l2). apply length_map.
Qed.

Lemma div_block g a q :
  (0 < g)%nat → (a * g ≤ q ∧ q < a * g + g)%nat ↔ (q / g = a)%nat.
Proof.
  intros Hg. split.
  - intros [? ?]. symmetry. apply (Nat.div_unique q g a (q - a * g)); lia.
  - intros <-. pose proof (Nat.div_mod_eq q g).
    pose proof (Nat.mod_upper_bound q g). nia.
Qed.

Lemma sub_mod_block g x : (x - x `mod` g = x / g * g)%nat.
Proof. pose proof (Nat.div_mod_eq x g). lia. Qed.

Lemma forallb_map_seq {A} (f : A → bool) (h : nat → A) n :
  forallb f (map h (seq 0 n)) = true ↔ ∀ k, (k < n)%nat → f (h k) = true.
Proof.
  rewrite forallb_forall. split.
  - intros H k Hk. apply H, in_map, in_seq. lia.
  - intros H x (k & <- & Hk%in_seq)%in_map_iff. apply H. lia.
Qed.

Lemma elem_of_allowed_values b v :
  v ∈ allowed_values b ↔ 1 ≤ v ≤ Z.of_nat (size b).
Proof.
  unfold allowed_values. rewrite elem_of_list_to_set, list_elem_of_fmap. split.
  - intros (k & -> & Hk%elem_of_seq). lia.
  - intros ?. exists (Z.to_nat v). split; [lia|]. apply elem_of_seq. lia.
Qed.

Section wf_candidates.
Context (b : SudokuBoard) (Hwf : wf_board b).

Lemma board_rows :
  _board b = map (λ x, map (cell_value b) (row_cells (size b) x)) (seq 0 (size b)).
Proof.
  destruct Hwf as (_ & _ & Hlen & _).
  rewrite (nth_seq_map (_board b) []) at 1. rewrite Hlen.
  apply map_ext_in. intros x Hx%in_seq. apply row_values; [done|lia].
Qed.

Lemma length_sub_grids : length (sub_grids b) = (size_sqrt b * size_sqrt b)%nat.
Proof.
  unfold sub_grids. rewrite range_step_wf by done.
  by rewrite length_bind_pairs, length_map, length_seq.
Qed.

Lemma sub_grids_nth x y :
  (x < size b)%nat → (y < size b)%nat →
  nth (get_subgrid_index b x y) (sub_grids b) [] =
  np_unique (map (cell_value b)
    (block_cells (size_sqrt b) (x / size_sqrt b * size_sqrt b)
                 (y / size_sqrt b * size_sqrt b))).
Proof.
  intros Hx Hy. unfold sub_grids, get_subgrid_index.
  rewrite range_step_wf by done.
  pose proof (div_lt_sqrt b Hwf x Hx) as Hdx.
  pose proof (div_lt_sqrt b Hwf y Hy) as Hdy.
  set (g := size_sqrt b) in *.
  set (R := map (λ k, k * g)%nat (seq 0 g)).
  assert (HR : length R = g) by (unfold R; by rewrite length_map, length_seq).
  rewrite <- HR at 2.
  rewrite (nth_bind_pairs _ R R _ _ _ 0%nat 0%nat) by lia.
  unfold R. rewrite !(nth_map_lt _ _ _ _ 0%nat) by (rewrite length_seq; lia).
  rewrite !seq_nth by lia. simpl.
  rewrite block_values; [done|done|apply block_start_le; done..].
Qed.

Lemma possible_values_spec x y v :
  (x < size b)%nat → (y < size b)%nat →
  v ∈ possible_values b x y ↔
  1 ≤ v ≤ Z.of_nat (size b) ∧
  ∀ q, in_range b q → related (size_sqrt b) (x, y) q → cell_value b q ≠ v.
Proof.
  intros Hx Hy. destruct Hwf as (Hg & Hsz & Hlen & Hrows).
  unfold possible_values, missing_sets.
  rewrite (nth_map_lt _ _ x _ []) by lia.
  rewrite (nth_map_lt _ _ y _ []) by (rewrite np_T_cols, length_map, length_seq; done).
  rewrite (nth_map_lt _ _ _ _ []).
  2:{ rewrite length_sub_grids. unfold get_subgrid_index.
      pose proof (div_lt_sqrt b Hwf x Hx). pose proof (div_lt_sqrt b Hwf y Hy).
      nia. }
  rewrite sub_grids_nth by done.
  rewrite row_values by done.
  rewrite np_T_cols by done.
  rewrite (nth_map_lt _ _ y _ 0%nat) by (rewrite length_seq; done).
  rewrite seq_nth by done. simpl.
  rewrite !elem_of_intersection, !elem_of_difference, !elem_of_list_to_set.
  rewrite elem_of_np_unique, !list_elem_of_fmap, elem_of_allowed_values.
  split.
  - intros [[[Hv Hrow] [_ Hcol]] [_ Hblk]]. split; [done|].
    intros q Hqr Hrel Hq. destruct Hqr as [Hq1 Hq2].
    destruct Hrel as [Hr|[Hc|[Hb1 Hb2]]]; simpl in *.
    + apply Hrow. exists q. split; [done|]. by apply elem_of_row_cells.
    + apply Hcol. exists q. split; [done|]. by apply elem_of_col_cells.
    + apply Hblk. exists q. split; [done|]. apply elem_of_block_cells.
      split; by apply div_block.
  - intros [Hv Hall]. split_and!; try lia.
    + intros (q & Hq & [Hq1 Hq2]%elem_of_row_cells).
      apply (Hall q); [split; lia|by left|done].
    + intros (q & Hq & [Hq1 Hq2]%elem_of_col_cells).
      apply (Hall q); [split; lia|by right; left|done].
    + intros (q & Hq & [Hq1 Hq2]%elem_of_block_cells).
      apply div_block in Hq1, Hq2; [|done..].
      pose proof (block_start_le b Hwf _ (div_lt_sqrt b Hwf x Hx)).
      pose proof (block_start_le b Hwf _ (div_lt_sqrt b Hwf y Hy)).
      assert (in_range b q).
      { assert (Hq1' := Hq1). assert (Hq2' := Hq2).
        apply div_block in Hq1', Hq2'; [|done..]. split; lia. }
      apply (Hall q); [done| |done]. right; right. done.
Qed.
End wf_candidates.

Section wf_legal.
Context (b : SudokuBoard) (Hwf : wf_board b).


Lemma group_ok_cells cs :
  NoDup cs → group_ok (map (cell_value b) cs) = true ↔ group_distinct b cs.
Proof. intros. rewrite group_ok_NoDup. by apply NoDup_filter_nonzero_map. Qed.

Lemma rows_ok :
  forallb group_ok (_board b) = true ↔
  ∀ x, (x < size b)%nat → group_distinct b (row_cells (size b) x).
Proof.
  rewrite board_rows by done. rewrite forallb_map_seq.
  split; intros H x Hx; apply group_ok_cells; auto using NoDup_row_cells.
Qed.

Lemma cols_ok :
  forallb group_ok (np_T (_board b)) = true ↔
  ∀ y, (y < size b)%nat → group_distinct b (col_cells (size b) y).
Proof.
  rewrite np_T_cols by done. rewrite forallb_map_seq.
  split; intros H y Hy; apply group_ok_cells; auto using NoDup_col_cells.
Qed.

Lemma blocks_ok :
  forallb (λ i,
    forallb (λ j, group_ok (concat (np_slice (_board b) i j (size_sqrt b))))
            (range_step (size b) (size_sqrt b)))
    (range_step (size b) (size_sqrt b)) = true ↔
  ∀ a c, (a < size_sqrt b)%nat → (c < size_sqrt b)%nat →
    group_distinct b (block_cells (size_sqrt b) (a * size_sqrt b) (c * size_sqrt b)).
Proof.
  rewrite range_step_wf by done. rewrite forallb_map_seq. split.
  - intros H a c Ha Hc. specialize (H a Ha).
    rewrite forallb_map_seq in H. specialize (H c Hc).
    rewrite block_values in H by auto using block_start_le.
    apply group_ok_cells in H; auto using NoDup_block_cells.
  - intros H a Ha. rewrite forallb_map_seq. intros c Hc.
    rewrite block_values by auto using block_start_le.
    apply group_ok_cells; auto using NoDup_block_cells.
Qed.

(** [is_legal_state] decides [legal]. *)
Lemma is_legal_state_spec : is_legal_state b = true ↔ legal b.
Proof.
  unfold is_legal_state. rewrite !andb_true_iff, rows_ok, cols_ok, blocks_ok.
  assert (Hg : (0 < size_sqrt b)%nat) by apply Hwf.
  split.
  - intros [[Hr Hc] Hb] p q [Hp1 Hp2] [Hq1 Hq2] Hne [Hrel|[Hrel|[Hrel1 Hrel2]]].
    + apply (Hr p.1 Hp1); [by apply elem_of_row_cells..|done].
    + apply (Hc p.2 Hp2); [by apply elem_of_col_cells..|done].
    + apply (Hb (p.1 / size_sqrt b)%nat (p.2 / size_sqrt b)%nat);
        [by apply div_lt_sqrt..| | |done].
      * apply elem_of_block_cells. split; by apply div_block.
      * apply elem_of_block_cells. split; by apply div_block.
  - intros Hl. split_and!.
    + intros x Hx p q [Hp1 Hp2]%elem_of_row_cells [Hq1 Hq2]%elem_of_row_cells Hne.
      apply Hl; [split; lia..|done|]. left. congruence.
    + intros y Hy p q [Hp1 Hp2]%elem_of_col_cells [Hq1 Hq2]%elem_of_col_cells Hne.
      apply Hl; [split; lia..|done|]. right; left. congruence.
    + intros a c Ha Hc p q [Hp1 Hp2]%elem_of_block_cells [Hq1 Hq2]%elem_of_block_cells Hne.
      pose proof (block_start_le b Hwf a Ha). pose proof (block_start_le b Hwf c Hc).
      apply Hl; [split; lia..|done|]. right; right.
      apply div_block in Hp1, Hp2, Hq1, Hq2; [|done..]. split; congruence.
Qed.

Lemma is_legal_state_false : is_legal_state b = false ↔ ¬ legal b.
Proof. rewrite <- is_legal_state_spec. by destruct (is_legal_state b). Qed.
End wf_legal.

(** ** Writing a cell *)

Lemma grid_get_set a x y v x' y' :
  (x < length a)%nat → (y < length (nth x a []))%nat →
  grid_get (grid_set a x y v) x' y' =
  if decide ((x, y) = (x', y')) then v else grid_get a x' y'.
Proof.
  intros Hx Hy. unfold grid_get, grid_set. rewrite !nth_lookup.
  destruct (decide (x = x')) as [<-|Hne].
  - rewrite list_lookup_alter_eq.
    destruct (a !! x) as [row|] eqn:Hrow; simpl.
    2:{ apply lookup_ge_None in Hrow. lia. }
    rewrite nth_lookup, Hrow in Hy. simpl in Hy.
    destruct (decide (y = y')) as [<-|Hne].
    + rewrite decide_True by done. by rewrite list_lookup_insert_eq by lia.
    + rewrite decide_False by congruence. by rewrite list_lookup_insert_ne.
  - rewrite decide_False by congruence. by rewrite list_lookup_alter_ne.
Qed.

Lemma with_board_wf b x y v : wf_board b → wf_board (with_board b (grid_set (_board b) x y v)).
Proof.
  intros (Hg & Hsz & Hlen & Hrows & Hfit). split_and!; simpl; try done.
  - unfold grid_set. by rewrite length_alter.
  - unfold grid_set. apply Forall_lookup. intros i row.
    rewrite list_lookup_alter. case_decide as Hi.
    + subst i. destruct (_board b !! x) as [r|] eqn:Hr; simpl; [|done].
      intros [= <-]. rewrite length_insert. by eapply Forall_lookup_1 in Hrows.
    + intros Hr. by eapply Forall_lookup_1 in Hrows.
Qed.

Lemma cell_value_with_board b x y v q :
  wf_board b → (x < size b)%nat → (y < size b)%nat →
  cell_value (with_board b (grid_set (_board b) x y v)) q =
  if decide ((x, y) = q) then v else cell_value b q.
Proof.
  intros Hwf Hx Hy. unfold cell_value. simpl. destruct q as [q1 q2].
  apply grid_get_set.
  - destruct Hwf as (_ & _ & -> & _). done.
  - by rewrite wf_row_length.
Qed.


Section placing.
Context (b : SudokuBoard) (Hwf : wf_board b) (x y : nat) (v : Z).
Context (Hx : (x < size b)%nat) (Hy : (y < size b)%nat).

Let b' := with_board b (grid_set (_board b) x y v).

Lemma cell_value_placed q :
  cell_value b' q = if decide ((x, y) = q) then v else cell_value b q.
Proof. by apply cell_value_with_board. Qed.

(** Writing a nonzero value into an empty cell of a legal board keeps it
    legal exactly when no related cell already holds the value. *)
Lemma legal_place :
  legal b → cell_value b (x, y) = 0 → v ≠ 0 →
  legal b' ↔
  ∀ q, in_range b q → related (size_sqrt b) (x, y) q → cell_value b q ≠ v.
Proof.
  intros Hl Hempty Hv. split.
  - intros Hl' q Hq Hrel Hqv.
    assert (Hne : (x, y) ≠ q) by (intros <-; congruence).
    apply Hv. rewrite <- (decide_True (P := (x, y) = (x, y)) v (cell_value b (x, y))) by done.
    rewrite <- cell_value_placed.
    apply (Hl' (x, y) q); [by split|done|done|done|].
    rewrite !cell_value_placed, decide_True, decide_False by done. done.
  - intros Hall p q Hp Hq Hne Hrel. rewrite !cell_value_placed.
    destruct (decide ((x, y) = p)) as [<-|Hxp], (decide ((x, y) = q)) as [<-|Hxq];
      try done.
    + intros Heq. exfalso. by apply (Hall q).
    + intros Heq. exfalso. apply (Hall p); [done| |done]. by apply related_sym.
    + by apply Hl.
Qed.

Lemma place_legal_candidate :
  legal b → cell_value b (x, y) = 0 → 1 ≤ v ≤ Z.of_nat (size b) →
  is_legal_state b' = true ↔ v ∈ possible_values b x y.
Proof.
  intros Hl Hempty Hv.
  rewrite is_legal_state_spec by (by apply with_board_wf).
  rewrite legal_place by (done || lia).
  rewrite possible_values_spec by done. split; [by intros ?|by intros [_ ?]].
Qed.

(** The candidates of the other cells after the write: the value leaves
    the sets of the related cells, all other sets stay. *)
Lemma possible_values_place x' y' :
  (x' < size b)%nat → (y' < size b)%nat → cell_value b (x, y) = 0 →
  possible_values b' x' y' =
  if decide (related (size_sqrt b) (x, y) (x', y'))
  then possible_values b x' y' ∖ {[v]}
  else possible_values b x' y'.
Proof.
  intros Hx' Hy' Hempty. apply set_eq. intros w.
  assert (Hwf' : wf_board b') by (by apply with_board_wf).
  rewrite (possible_values_spec b' Hwf') by done.
  change (size b') with (size b). change (size_sqrt b') with (size_sqrt b).
  destruct (decide (related (size_sqrt b) (x, y) (x', y'))) as [Hrel|Hnrel].
  - rewrite elem_of_difference, not_elem_of_singleton, possible_values_spec by done.
    split.
    + intros [Hw Hall]. split; [split; [done|]|].
      * intros q Hq Hr. specialize (Hall q Hq Hr). rewrite cell_value_placed in Hall.
        destruct (decide ((x, y) = q)) as [<-|]; [rewrite Hempty; lia|done].
      * specialize (Hall (x, y) (conj Hx Hy) (related_sym _ _ _ Hrel)).
        rewrite cell_value_placed, decide_True in Hall by done. congruence.
    + intros [[Hw Hall] Hwv]. split; [done|]. intros q Hq Hr.
      rewrite cell_value_placed. destruct (decide _); [congruence|by apply Hall].
  - rewrite possible_values_spec by done. split.
    + intros [Hw Hall]. split; [done|]. intros q Hq Hr.
      specialize (Hall q Hq Hr). rewrite cell_value_placed in Hall.
      destruct (decide ((x, y) = q)) as [<-|]; [|done].
      exfalso. by apply Hnrel, related_sym.
    + intros [Hw Hall]. split; [done|]. intros q Hq Hr.
      rewrite cell_value_placed. destruct (decide ((x, y) = q)) as [<-|]; [|by apply Hall].
      exfalso. by apply Hnrel, related_sym.
Qed.
End placing.

(** ** Cell writes, [apply_move] and [undo_move] *)

Lemma grid_set_restore a x y v :
  grid_get a x y = 0 → (x < length a)%nat → (y < length (nth x a []))%nat →
  grid_set (grid_set a x y v) x y 0 = a.
Proof.
  intros H0 Hx Hy. unfold grid_set, grid_get in *.
  apply list_eq. intros i. rewrite !list_lookup_alter.
  case_decide as Hi; [subst i|done].
  rewrite (nth_lookup a x []) in H0, Hy.
  destruct (a !! x) as [row|] eqn:Hrow; simpl in *; [|lia].
  rewrite decide_True by done. simpl. f_equal. rewrite list_insert_insert_eq. apply list_insert_id.
  rewrite nth_lookup in H0.
  destruct (row !! y) eqn:Hc; simpl in *; [by subst|].
  apply lookup_ge_None in Hc. lia.
Qed.

Lemma store_cell_Ok b x y v :
  wf_board b → (x < size b)%nat → (y < size b)%nat → fits_int64 v →
  store_cell b x y v = Ok (with_board b (grid_set (_board b) x y v)).
Proof.
  intros Hwf Hx Hy Hv. unfold store_cell. rewrite decide_True.
  - by rewrite decide_True.
  - rewrite wf_row_length by done. destruct Hwf as (_ & _ & -> & _). done.
Qed.

Lemma fits_int64_0 : fits_int64 0.
Proof. unfold fits_int64. lia. Qed.

(** The values 1 … size of a well-formed board fit the cells. *)
Lemma fits_int64_value b v :
  wf_board b → 0 ≤ v ≤ Z.of_nat (size b) → fits_int64 v.
Proof. intros (_ & _ & _ & _ & Hfit) Hv. unfold fits_int64. lia. Qed.

Lemma apply_move_Ok b x y v :
  wf_board b → (x < size b)%nat → (y < size b)%nat → fits_int64 v →
  cache_tracks b (x, y) →
  ∃ b', apply_move b (x, y, v) = Ok b' ∧
        _board b' = grid_set (_board b) x y v ∧
        size b' = size b ∧ size_sqrt b' = size_sqrt b ∧
        (_move_cache b = None → _move_cache b' = None).
Proof.
  intros Hwf Hx Hy Hv Ht. unfold apply_move. rewrite store_cell_Ok by done. simpl.
  unfold cache_tracks in Ht. destruct (_move_cache b) as [c|] eqn:Hc.
  - destruct Ht as [s Hs]. unfold dict_del. rewrite Hs. simpl.
    eexists. split; [done|]. simpl. split_and!; done.
  - eexists. split; [done|]. simpl. split_and!; done.
Qed.

Lemma undo_move_Ok b x y v :
  wf_board b → (x < size b)%nat → (y < size b)%nat →
  ∃ b', undo_move b (x, y, v) = Ok b' ∧
        _board b' = grid_set (_board b) x y 0 ∧
        size b' = size b ∧ size_sqrt b' = size_sqrt b ∧
        (_move_cache b = None → _move_cache b' = None) ∧
        (∀ c, _move_cache b = Some c →
           _move_cache b' =
           Some (get_move_cache (with_board b (grid_set (_board b) x y 0)))).
Proof.
  intros Hwf Hx Hy. unfold undo_move.
  rewrite store_cell_Ok by (done || apply fits_int64_0). simpl.
  destruct (_move_cache b) as [c|] eqn:Hc.
  - eexists. split; [done|]. simpl. split_and!; try done.
  - eexists. split; [done|]. simpl. split_and!; done.
Qed.

(** ** The strategies in closed form *)

Lemma foldl_dict_set_fresh {A} (f : A → gset Z) (P : A → Prop)
    `{∀ p, Decision (P p)} `{EqDecision A} (cells : list A) (acc : pydict A (gset Z)) :
  NoDup cells → (∀ p, p ∈ cells → p ∉ acc.*1) →
  foldl (λ c p, if decide (P p) then dict_set c p (f p) else c) acc cells =
  acc ++ map (λ p, (p, f p)) (filter P cells).
Proof.
  revert acc. induction cells as [|p cells IH]; intros acc Hnd Hfresh; simpl.
  - by rewrite app_nil_r.
  - apply NoDup_cons in Hnd as [Hp Hnd]. rewrite filter_cons.
    destruct (decide (P p)); simpl.
    + rewrite dict_set_keys_fresh by (apply Hfresh; left).
      rewrite IH; [by rewrite <- app_assoc|done|].
      intros q Hq. rewrite fmap_app. simpl.
      intros [?|Hq2%list_elem_of_singleton]%elem_of_app; [|by subst].
      by apply (Hfresh q); [right|].
    + apply IH; [done|]. intros q Hq. apply Hfresh. by right.
Qed.

Lemma get_move_cache_fresh b : get_move_cache b = fresh_cache b.
Proof.
  unfold get_move_cache, fresh_cache, empty_cells.
  rewrite (foldl_dict_set_fresh (λ p, possible_values b p.1 p.2)
             (λ p, cell_value b p = EMPTY_SPACE)).
  - done.
  - apply NoDup_all_cells.
  - intros p _ []%elem_of_nil.
Qed.

Lemma fresh_cache_keys b : (fresh_cache b).*1 = empty_cells b.
Proof.
  unfold fresh_cache. rewrite <- list_fmap_compose.
  apply list_eq. intros i. rewrite list_lookup_fmap. by destruct (_ !! i).
Qed.

Lemma NoDup_empty_cells b : NoDup (empty_cells b).
Proof. apply NoDup_filter, NoDup_all_cells. Qed.

Lemma fresh_cache_wf b : dict_wf (fresh_cache b).
Proof. unfold dict_wf. rewrite fresh_cache_keys. apply NoDup_empty_cells. Qed.

Lemma elem_of_empty_cells b p :
  p ∈ empty_cells b ↔ in_range b p ∧ cell_value b p = EMPTY_SPACE.
Proof.
  unfold empty_cells. rewrite list_elem_of_filter, elem_of_all_cells.
  unfold in_range. tauto.
Qed.

Lemma dict_get_fresh_cache b p :
  dict_get (fresh_cache b) p =
  if decide (in_range b p ∧ cell_value b p = EMPTY_SPACE)
  then Some (possible_values b p.1 p.2) else None.
Proof.
  case_decide as Hp.
  - apply elem_of_dict_get; [apply fresh_cache_wf|].
    apply list_elem_of_fmap. exists p. split; [done|]. by apply elem_of_empty_cells.
  - apply dict_get_None. rewrite fresh_cache_keys. by rewrite elem_of_empty_cells.
Qed.

(** The scan of Improved/Sorted over the empty cells. *)
Lemma improved_scan_fresh b cells :
  improved_scan b cells =
  if decide (Forall (λ g : cell * gset Z, g.2 ≠ ∅)
               (map (λ p, (p, possible_values b p.1 p.2))
                    (filter (λ p, cell_value b p = EMPTY_SPACE) cells)))
  then Some (map (λ g, (g.1, moves_of g.1 g.2))
               (map (λ p, (p, possible_values b p.1 p.2))
                    (filter (λ p, cell_value b p = EMPTY_SPACE) cells)))
  else None.
Proof.
  induction cells as [|p cells IH].
  - rewrite decide_True by constructor. done.
  - cbn [improved_scan].
    destruct (decide (grid_get (_board b) p.1 p.2 = EMPTY_SPACE)) as [He|He].
    2:{ rewrite filter_cons_False by done. exact IH. }
    rewrite filter_cons_True by done. rewrite !map_cons.
    destruct (decide (possible_values b p.1 p.2 = ∅)) as [Hp|Hp].
    + rewrite decide_False; [done|]. by intros [? _]%Forall_cons.
    + rewrite IH. destruct (decide (Forall _ _)) as [Hall|Hall].
      * rewrite decide_True; [done|]. by constructor.
      * rewrite decide_False; [done|]. by intros [_ ?]%Forall_cons.
Qed.

Lemma cache_scan_spec items :
  cache_scan items =
  if decide (Forall (λ g : cell * gset Z, g.2 ≠ ∅) items)
  then Some (group_moves items) else None.
Proof.
  induction items as [|[p s] items IH].
  - rewrite decide_True by constructor. done.
  - cbn [cache_scan]. destruct (decide (s = ∅)) as [Hs|Hs].
    + rewrite decide_False; [done|]. by intros [? _]%Forall_cons.
    + rewrite IH. destruct (decide (Forall _ items)) as [Hall|Hall].
      * rewrite decide_True; [done|]. by constructor.
      * rewrite decide_False; [done|]. by intros [_ ?]%Forall_cons.
Qed.

Lemma sorted_desc_map {A B} (key : B → nat) (f : A → B) (l : list A) :
  sorted_desc key (map f l) = map f (sorted_desc (key ∘ f) l).
Proof.
  induction l as [|x l IH]; simpl; [done|]. rewrite IH.
  generalize (sorted_desc (key ∘ f) l). clear. intros l.
  induction l as [|y l IH]; simpl; [done|].
  destruct (decide _); simpl; [by rewrite IH|done].
Qed.

Lemma sorted_desc_ext {A} (key1 key2 : A → nat) (l : list A) :
  (∀ x, key1 x = key2 x) → sorted_desc key1 l = sorted_desc key2 l.
Proof.
  intros Hk. induction l as [|x l IH]; simpl; [done|]. rewrite IH.
  generalize (sorted_desc key2 l). clear -Hk. intros l.
  induction l as [|y l IH]; simpl; [done|].
  rewrite !Hk. destruct (decide _); simpl; [by rewrite IH|done].
Qed.

Lemma length_moves_of p s : length (moves_of p s) = base.size s.
Proof. unfold moves_of. by rewrite length_map. Qed.

Lemma elem_of_moves_of p s m :
  m ∈ moves_of p s ↔ (m.1.1, m.1.2) = p ∧ m.2 ∈ s.
Proof.
  unfold moves_of. rewrite list_elem_of_fmap. destruct m as [[m1 m2] v], p as [p1 p2].
  simpl. split.
  - intros (w & [= -> -> ->] & Hw%elem_of_elements). done.
  - intros [[= -> ->] Hv]. exists v. split; [done|]. by apply elem_of_elements.
Qed.

Lemma group_moves_cons g gs :
  group_moves (g :: gs) = moves_of g.1 g.2 ++ group_moves gs.
Proof. reflexivity. Qed.

Lemma group_moves_app gs1 gs2 :
  group_moves (gs1 ++ gs2) = group_moves gs1 ++ group_moves gs2.
Proof. unfold group_moves. by rewrite map_app, concat_app. Qed.

Lemma elem_of_group_moves gs m :
  m ∈ group_moves gs ↔ ∃ s, ((m.1.1, m.1.2), s) ∈ gs ∧ m.2 ∈ s.
Proof.
  induction gs as [|[p s] gs IH].
  - split; [by intros ?%elem_of_nil|]. by intros (s & ?%elem_of_nil & _).
  - rewrite group_moves_cons, elem_of_app, IH, elem_of_moves_of. simpl. split.
    + intros [[<- Hs]|(s' & Hin & Hs')].
      * exists s. split; [left|done].
      * exists s'. split; [by right|done].
    + intros (s' & [[= <- <-]|Hin]%elem_of_cons & Hs').
      * by left.
      * right. eauto.
Qed.

(** With the [legal_moves] dictionary spelled out, the three list-based
    strategies are the moves of the fresh candidate dictionary. *)
Lemma improved_closed b version :
  version ≠ SORTED →
  improved_get_legal_moves b version =
  if decide (Forall (λ g : cell * gset Z, g.2 ≠ ∅) (fresh_cache b))
  then group_moves (fresh_cache b) else [].
Proof.
  intros Hv. unfold improved_get_legal_moves.
  rewrite improved_scan_fresh. fold (empty_cells b). fold (fresh_cache b).
  destruct (decide _); [|done].
  assert (Heq : (map (λ g, (g.1, moves_of g.1 g.2)) (fresh_cache b)).*2
                = map (λ g, moves_of g.1 g.2) (fresh_cache b)).
  { rewrite <- list_fmap_compose. done. }
  rewrite Heq. by destruct version.
Qed.

Lemma sorted_closed b :
  improved_get_legal_moves b SORTED =
  if decide (Forall (λ g : cell * gset Z, g.2 ≠ ∅) (fresh_cache b))
  then group_moves (sorted_desc by_size (fresh_cache b)) else [].
Proof.
  unfold improved_get_legal_moves.
  rewrite improved_scan_fresh. fold (empty_cells b). fold (fresh_cache b).
  destruct (decide _); [|done].
  assert (Heq : (map (λ g, (g.1, moves_of g.1 g.2)) (fresh_cache b)).*2
                = map (λ g, moves_of g.1 g.2) (fresh_cache b)).
  { rewrite <- list_fmap_compose. done. }
  rewrite Heq, sorted_desc_map. unfold group_moves. do 2 f_equal.
  apply sorted_desc_ext. intros g. simpl. apply length_moves_of.
Qed.

Lemma cache_scan_sorted (c : pydict cell (gset Z)) :
  default [] (cache_scan (sorted_desc (λ item, base.size item.2) c)) =
  if decide (Forall (λ g : cell * gset Z, g.2 ≠ ∅) c)
  then group_moves (sorted_desc by_size c) else [].
Proof.
  rewrite cache_scan_spec. fold by_size.
  destruct (decide (Forall _ (sorted_desc _ _))) as [Hs|Hs].
  - rewrite decide_True; [done|]. by rewrite <- (sorted_desc_Permutation by_size c).
  - rewrite decide_False; [done|]. by rewrite <- (sorted_desc_Permutation by_size c) at 1.
Qed.

Lemma cached_closed b :
  (cache_get_legal_moves b).1 =
  if decide (Forall (λ g : cell * gset Z, g.2 ≠ ∅)
               (default (get_move_cache b) (_move_cache b)))
  then group_moves (sorted_desc by_size (default (get_move_cache b) (_move_cache b)))
  else [].
Proof.
  unfold cache_get_legal_moves. cbn [fst].
  destruct (_move_cache b) as [c|]; apply cache_scan_sorted.
Qed.

(** ** Order of the Sorted and Cached move lists *)

Lemma moves_of_nil p s : moves_of p s = [] ↔ s = ∅.
Proof.
  unfold moves_of. split.
  - intros H%fmap_nil_inv. apply elements_empty_iff in H. by apply leibniz_equiv.
  - intros ->. by rewrite elements_empty.
Qed.

Lemma group_moves_last gs m :
  (∀ g, g ∈ gs → g.2 ≠ ∅) → StronglySorted (desc by_size) gs →
  last (group_moves gs) = Some m →
  ∃ s, ((m.1.1, m.1.2), s) ∈ gs ∧ m.2 ∈ s ∧
       ∀ g, g ∈ gs → (base.size s ≤ base.size g.2)%nat.
Proof.
  destruct gs as [|g0 gs0] using rev_ind; [done|]. clear IHgs0.
  intros Hne Hs. rewrite group_moves_app, group_moves_cons.
  change (group_moves []) with (@nil move). rewrite app_nil_r, last_app.
  destruct (last (moves_of g0.1 g0.2)) as [m'|] eqn:Hl.
  - intros [= ->]. apply last_Some_elem_of, elem_of_moves_of in Hl as [Hc Hv].
    exists g0.2. split_and!.
    + apply elem_of_app. right. rewrite Hc. destruct g0. by left.
    + done.
    + intros g [Hg|Hg%list_elem_of_singleton]%elem_of_app; [|by subst].
      apply (StronglySorted_app_1_elem_of _ _ _ g g0 Hs); [done|by left].
  - apply last_None, moves_of_nil in Hl. destruct (Hne g0); [|done].
    apply elem_of_app. right. by left.
Qed.

Lemma grouped_desc_sorted (d : pydict cell (gset Z)) :
  dict_wf d →
  grouped_desc d
    (if decide (Forall (λ g : cell * gset Z, g.2 ≠ ∅) d)
     then group_moves (sorted_desc by_size d) else []).
Proof.
  intros Hwf. pose proof (sorted_desc_Permutation by_size d) as Hp.
  destruct (decide _) as [Hall|Hall].
  - assert (Hin : ∀ g, g ∈ sorted_desc by_size d → g ∈ d ∧ g.2 ≠ ∅).
    { intros g Hg. rewrite Hp in Hg. split; [done|].
      by apply (proj1 (Forall_forall _ _) Hall). }
    exists (sorted_desc by_size d). split_and!.
    + done.
    + unfold dict_wf in Hwf. by rewrite Hp.
    + done.
    + apply sorted_desc_sorted.
    + by left.
    + intros m Hm. apply group_moves_last; [|apply sorted_desc_sorted|done].
      intros g Hg. by apply Hin.
  - exists []. split_and!; try done.
    + constructor.
    + by intros g ?%elem_of_nil.
    + constructor.
    + right. split; [done|].
      apply not_Forall_Exists in Hall; [|apply _].
      apply Exists_exists in Hall as (g & Hg & Hne). exists g. split; [done|].
      simpl in Hne. by destruct (decide (g.2 = ∅)).
Qed.

(** ** Naive in closed form *)

Lemma naive_try_fold (b : SudokuBoard) (x y : nat) (vals : list nat) (lm : list move) (f : gset cell) :
  foldl (naive_try b x y) (lm, f) vals =
  (lm ++ map (λ i, (x, y, Z.of_nat i))
           (filter (λ i, is_legal_state
                      (with_board b (grid_set (_board b) x y (Z.of_nat i))) = true) vals),
   if decide (filter (λ i, is_legal_state
                      (with_board b (grid_set (_board b) x y (Z.of_nat i))) = true) vals = [])
   then f else {[(x, y)]} ∪ f).
Proof.
  revert lm f. induction vals as [|i vals IH]; intros lm f.
  - simpl. by rewrite app_nil_r.
  - cbn [foldl]. unfold naive_try at 2. cbn [fst snd].
    destruct (is_legal_state _) eqn:Hl.
    + rewrite filter_cons_True by done. rewrite IH, <- app_assoc. simpl. f_equal.
      destruct (decide _); [done|]. set_solver.
    + rewrite filter_cons_False by (by rewrite Hl). apply IH.
Qed.

Lemma naive_scan_fold (b : SudokuBoard) (cells : list cell) (lm : list move)
    (f : gset cell) (e : nat) :
  foldl (naive_scan b) (lm, f, e) cells =
  (lm ++ concat (map (naive_cell b) (filter (λ p, cell_value b p = EMPTY_SPACE) cells)),
   f ∪ list_to_set (filter (λ p, naive_cell b p ≠ [])
                      (filter (λ p, cell_value b p = EMPTY_SPACE) cells)),
   (e + length (filter (λ p, cell_value b p = EMPTY_SPACE) cells))%nat).
Proof.
  revert lm f e. induction cells as [|p cells IH]; intros lm f e.
  - simpl. rewrite app_nil_r, Nat.add_0_r. f_equal. f_equal. set_solver.
  - cbn [foldl]. unfold naive_scan at 2.
    destruct (decide (grid_get (_board b) p.1 p.2 = EMPTY_SPACE)) as [He|He].
    + rewrite naive_try_fold. rewrite IH.
      rewrite (filter_cons_True (λ p, cell_value b p = EMPTY_SPACE)) by done.
      cbn [map concat length]. rewrite <- app_assoc.
      f_equal; [f_equal|lia].
      unfold naive_cell at 2. destruct p as [x y]. cbn [fst snd].
      destruct (decide (filter _ (seq 1 (size b)) = [])) as [Hn|Hn].
      * rewrite filter_cons_False; [done|].
        unfold naive_cell. cbn [fst snd]. rewrite Hn. simpl. by intros H; apply H.
      * rewrite filter_cons_True.
        -- simpl. set_solver.
        -- unfold naive_cell. cbn [fst snd]. intros H%fmap_nil_inv. done.
    + rewrite (filter_cons_False (λ p, cell_value b p = EMPTY_SPACE)) by done.
      apply IH.
Qed.

Lemma length_filter_Forall {A} (P : A → Prop) `{∀ x, Decision (P x)} (l : list A) :
  length (filter P l) = length l ↔ Forall P l.
Proof.
  induction l as [|x l IH]; simpl.
  - split; [constructor|done].
  - pose proof (length_filter P l). rewrite filter_cons. destruct (decide (P x)); simpl.
    + rewrite Forall_cons. split; [intros ?; split; [done|apply IH; lia]|].
      intros [_ ?%IH]. lia.
    + split; [lia|]. by intros [? _]%Forall_cons.
Qed.

Lemma naive_closed b :
  naive_get_legal_moves b =
  if decide (Forall (λ p, naive_cell b p ≠ []) (empty_cells b))
  then concat (map (naive_cell b) (empty_cells b)) else [].
Proof.
  unfold naive_get_legal_moves. rewrite naive_scan_fold. fold (empty_cells b).
  rewrite union_empty_l_L. simpl.
  rewrite size_list_to_set by apply NoDup_filter, NoDup_empty_cells.
  destruct (decide (length _ = length _)) as [Hl|Hl].
  - rewrite decide_True; [done|]. by apply (proj1 (length_filter_Forall _ _)).
  - rewrite decide_False; [done|]. intros Hf. by apply Hl, (proj2 (length_filter_Forall _ _)).
Qed.

(** On a legal board the trials of Naive succeed exactly for the
    candidates. *)
Lemma elem_of_naive_cell b p m :
  wf_board b → legal b → in_range b p → cell_value b p = EMPTY_SPACE →
  m ∈ naive_cell b p ↔ m ∈ moves_of p (possible_values b p.1 p.2).
Proof.
  intros Hwf Hl [Hp1 Hp2] He. destruct p as [x y]. simpl in *.
  rewrite elem_of_moves_of. unfold naive_cell. rewrite list_elem_of_fmap. simpl.
  destruct m as [[m1 m2] v]. simpl. split.
  - intros (i & [= -> -> ->] & [Hi Hr%elem_of_seq]%list_elem_of_filter).
    split; [done|].
    assert (Hi' : 1 ≤ Z.of_nat i ≤ Z.of_nat (size b)) by lia.
    by apply (proj1 (place_legal_candidate b Hwf x y _ Hp1 Hp2 Hl He Hi')).
  - intros [[= -> ->] Hv].
    assert (Hr : 1 ≤ v ≤ Z.of_nat (size b)).
    { by apply (possible_values_spec b Hwf x y v Hp1 Hp2) in Hv as [? _]. }
    exists (Z.to_nat v). rewrite Z2Nat.id by lia. split; [done|].
    apply list_elem_of_filter. split; [|apply elem_of_seq; lia].
    rewrite Z2Nat.id by lia.
    by apply (proj2 (place_legal_candidate b Hwf x y v Hp1 Hp2 Hl He Hr)).
Qed.

Lemma naive_cell_nil b p :
  wf_board b → legal b → in_range b p → cell_value b p = EMPTY_SPACE →
  naive_cell b p = [] ↔ possible_values b p.1 p.2 = ∅.
Proof.
  intros Hwf Hl Hp He. rewrite <- (moves_of_nil p). split; intros Hn.
  - destruct (moves_of p (possible_values b p.1 p.2)) as [|m ms] eqn:Hm; [done|].
    assert (m ∈ naive_cell b p) as Hin.
    { apply elem_of_naive_cell; [done..|]. rewrite Hm. left. }
    rewrite Hn in Hin. by apply elem_of_nil in Hin.
  - destruct (naive_cell b p) as [|m ms] eqn:Hm; [done|].
    assert (m ∈ moves_of p (possible_values b p.1 p.2)) as Hin.
    { apply elem_of_naive_cell; [done..|]. rewrite Hm. left. }
    rewrite Hn in Hin. by apply elem_of_nil in Hin.
Qed.

Lemma Forall_fresh_cache b (P : cell * gset Z → Prop) :
  Forall P (fresh_cache b) ↔
  ∀ p, p ∈ empty_cells b → P (p, possible_values b p.1 p.2).
Proof.
  unfold fresh_cache. rewrite Forall_fmap, Forall_forall. done.
Qed.

Lemma elem_of_concat_map {A B} (f : A → list B) (l : list A) (y : B) :
  y ∈ concat (map f l) ↔ ∃ x, x ∈ l ∧ y ∈ f x.
Proof.
  induction l as [|x l IH]; simpl.
  - split; [by intros ?%elem_of_nil|]. by intros (x & ?%elem_of_nil & _).
  - rewrite elem_of_app, IH. split.
    + intros [?|(x' & ? & ?)]; [exists x; split; [left|done]|exists x'; split; [by right|done]].
    + intros (x' & [->|?]%elem_of_cons & ?); [by left|right; eauto].
Qed.

Lemma naive_legal_board b m :
  wf_board b → legal b →
  m ∈ naive_get_legal_moves b ↔
  Forall (λ g : cell * gset Z, g.2 ≠ ∅) (fresh_cache b) ∧ m ∈ group_moves (fresh_cache b).
Proof.
  intros Hwf Hl. rewrite naive_closed.
  assert (Hall : Forall (λ p, naive_cell b p ≠ []) (empty_cells b) ↔
                 Forall (λ g : cell * gset Z, g.2 ≠ ∅) (fresh_cache b)).
  { rewrite Forall_fresh_cache, Forall_forall. simpl.
    split; intros H p Hp; specialize (H p Hp);
      apply elem_of_empty_cells in Hp as [? ?]; by rewrite naive_cell_nil in *. }
  assert (Hin : m ∈ concat (map (naive_cell b) (empty_cells b)) ↔
                m ∈ group_moves (fresh_cache b)).
  { rewrite elem_of_group_moves, elem_of_concat_map. split.
    - intros (p & Hp & Hm).
      pose proof Hp as [? ?]%elem_of_empty_cells.
      apply elem_of_naive_cell in Hm; [|done..].
      apply elem_of_moves_of in Hm as [<- Hv].
      exists (possible_values b m.1.1 m.1.2). split; [|done].
      apply list_elem_of_fmap. by exists (m.1.1, m.1.2).
    - intros (s & Hin' & Hv).
      apply list_elem_of_fmap in Hin' as (p & Heq & Hp).
      injection Heq as Hp1 Hp2.
      exists p. split; [done|].
      pose proof Hp as [? ?]%elem_of_empty_cells.
      apply elem_of_naive_cell; [done..|].
      apply elem_of_moves_of. subst. done. }
  destruct (decide _) as [Hf|Hf].
  - rewrite Hin. split; [intros ?; split; [by apply Hall|done]|by intros [_ ?]].
  - split; [by intros ?%elem_of_nil|]. intros [?%Hall _]. done.
Qed.

(** ** The four strategies on a legal board *)

Lemma moves_same_entries (c1 c2 : pydict cell (gset Z)) m :
  (∀ g, g ∈ c1 ↔ g ∈ c2) →
  Forall (λ g : cell * gset Z, g.2 ≠ ∅) c1 ∧ m ∈ group_moves c1 ↔
  Forall (λ g : cell * gset Z, g.2 ≠ ∅) c2 ∧ m ∈ group_moves c2.
Proof.
  intros Heq. rewrite !Forall_forall, !elem_of_group_moves.
  split; intros [Hall (s & Hin & Hs)]; (split; [|exists s; split; [by apply Heq|done]]);
    intros g Hg; by apply Hall, Heq.
Qed.

Lemma exact_cache_entries b c :
  dict_wf c → (∀ p, dict_get c p = dict_get (get_move_cache b) p) →
  ∀ g, g ∈ c ↔ g ∈ fresh_cache b.
Proof.
  intros Hwf Hget [p s]. rewrite get_move_cache_fresh in Hget. split; intros Hin.
  - apply dict_get_Some_elem_of. rewrite <- Hget. by apply elem_of_dict_get.
  - apply dict_get_Some_elem_of. rewrite Hget.
    apply elem_of_dict_get; [apply fresh_cache_wf|done].
Qed.

Lemma improved_moves b version m :
  version ≠ SORTED →
  m ∈ improved_get_legal_moves b version ↔
  Forall (λ g : cell * gset Z, g.2 ≠ ∅) (fresh_cache b) ∧ m ∈ group_moves (fresh_cache b).
Proof.
  intros Hv. rewrite improved_closed by done. destruct (decide _) as [Hf|Hf].
  - split; [by intros ?|by intros [_ ?]].
  - split; [by intros ?%elem_of_nil|by intros [? _]].
Qed.

Lemma sorted_group_moves (c : pydict cell (gset Z)) m :
  m ∈ group_moves (sorted_desc by_size c) ↔ m ∈ group_moves c.
Proof.
  rewrite !elem_of_group_moves.
  split; intros (s & Hin & Hs); exists s; split; try done.
  - by rewrite <- (sorted_desc_Permutation by_size c).
  - by rewrite (sorted_desc_Permutation by_size c).
Qed.

Lemma sorted_moves b m :
  m ∈ improved_get_legal_moves b SORTED ↔
  Forall (λ g : cell * gset Z, g.2 ≠ ∅) (fresh_cache b) ∧ m ∈ group_moves (fresh_cache b).
Proof.
  rewrite sorted_closed. destruct (decide _) as [Hf|Hf].
  - rewrite sorted_group_moves. split; [by intros ?|by intros [_ ?]].
  - split; [by intros ?%elem_of_nil|by intros [? _]].
Qed.

Lemma cached_moves b m :
  m ∈ (cache_get_legal_moves b).1 ↔
  Forall (λ g : cell * gset Z, g.2 ≠ ∅) (default (get_move_cache b) (_move_cache b)) ∧
  m ∈ group_moves (default (get_move_cache b) (_move_cache b)).
Proof.
  rewrite cached_closed. destruct (decide _) as [Hf|Hf].
  - rewrite sorted_group_moves. split; [by intros ?|by intros [_ ?]].
  - split; [by intros ?%elem_of_nil|by intros [? _]].
Qed.

Lemma strategy_moves b version m :
  wf_board b → legal b → cache_exact b →
  m ∈ (get_legal_moves b version).1 ↔
  Forall (λ g : cell * gset Z, g.2 ≠ ∅) (fresh_cache b) ∧ m ∈ group_moves (fresh_cache b).
Proof.
  intros Hwf Hl Hc. destruct version; unfold get_legal_moves; cbn [fst].
  - by apply naive_legal_board.
  - by apply improved_moves.
  - apply sorted_moves.
  - rewrite cached_moves. destruct (_move_cache b) as [c|] eqn:Hcache; simpl.
    + destruct (Hc c Hcache) as [Hcwf Hget].
      apply moves_same_entries. by apply exact_cache_entries.
    + by rewrite get_move_cache_fresh.
Qed.

(** ** The incremental cache update *)

Lemma update_field_fold val (group : list cell) (c : pydict cell (gset Z))
    (rem : gset Z) (n : nat) :
  ∃ c' rem' n',
    foldl (update_field val) (c, rem, n) group = (c', rem', n') ∧
    ∀ p, dict_get c' p = strike val group (dict_get c) p.
Proof.
  revert c rem n. induction group as [|field group IH]; intros c rem n.
  - exists c, rem, n. split; [done|]. intros p. unfold strike.
    by rewrite decide_False by apply not_elem_of_nil.
  - cbn [foldl]. unfold update_field at 2.
    destruct (dict_get c field) as [s|] eqn:Hs.
    + destruct (IH (dict_set c field (s ∖ {[val]})) (rem ∪ s ∖ {[val]}) (S n))
        as (c' & rem' & n' & Hfold & Hget).
      exists c', rem', n'. split; [done|]. intros p. rewrite Hget.
      unfold strike. rewrite dict_get_set.
      destruct (decide (field = p)) as [->|Hne].
      * rewrite (decide_True (P := p ∈ p :: group)) by left.
        rewrite Hs. simpl. destruct (decide (p ∈ group)); simpl; [|done].
        f_equal. set_solver.
      * destruct (decide (p ∈ group)) as [Hin|Hin].
        -- by rewrite decide_True by (by right).
        -- rewrite decide_False; [done|]. by intros [?|?]%elem_of_cons.
    + destruct (IH c rem n) as (c' & rem' & n' & Hfold & Hget).
      exists c', rem', n'. split; [done|]. intros p. rewrite Hget.
      unfold strike.
      destruct (decide (field = p)) as [->|Hne].
      * rewrite (decide_True (P := p ∈ p :: group)) by left.
        rewrite Hs. by destruct (decide _).
      * destruct (decide (p ∈ group)) as [Hin|Hin].
        -- by rewrite decide_True by (by right).
        -- rewrite decide_False; [done|]. by intros [?|?]%elem_of_cons.
Qed.

Lemma follows_strike c F val group :
  follows c F → follows (update_group val c group) (strike val group F).
Proof.
  intros Hc p. unfold update_group.
  destruct (update_field_fold val group c ∅ 0%nat) as (c' & rem' & n' & -> & Hget).
  assert (Hp : dict_get c' p = strike val group F p ∨
               (p = (0%nat, 0%nat) ∧ dict_get c' p = Some ∅)).
  { rewrite Hget. unfold strike. destruct (Hc p) as [->|[-> Hs]]; [by left|].
    right. split; [done|]. rewrite Hs. destruct (decide _); simpl; [|done].
    f_equal. set_solver. }
  destruct (decide _); [|done].
  rewrite dict_get_set. destruct (decide ((0%nat, 0%nat) = p)) as [<-|Hne]; [|done].
  by right.
Qed.

Lemma follows_del c F p c' :
  follows c F → dict_del c p = Ok c' →
  follows c' (λ q, if decide (p = q) then None else F q).
Proof.
  unfold dict_del. intros Hc. destruct (dict_get c p); [|done]. intros [= <-] q.
  rewrite dict_get_filter_ne. destruct (decide (p = q)); [by left|]. apply Hc.
Qed.

Lemma follows_ext c F G : follows c F → (∀ p, F p = G p) → follows c G.
Proof. intros Hc Heq p. rewrite <- Heq. apply Hc. Qed.

Lemma related_affected b x y p :
  wf_board b → (x < size b)%nat → (y < size b)%nat → in_range b p →
  related (size_sqrt b) (x, y) p ↔
  p ∈ row_cells (size b) x ∨ p ∈ col_cells (size b) y ∨
  p ∈ block_cells (size_sqrt b) (x - x `mod` size_sqrt b) (y - y `mod` size_sqrt b).
Proof.
  intros Hwf Hx Hy [Hp1 Hp2]. assert (Hg : (0 < size_sqrt b)%nat) by apply Hwf.
  rewrite elem_of_row_cells, elem_of_col_cells, elem_of_block_cells, !sub_mod_block.
  rewrite !div_block by done. unfold related. simpl. split.
  - intros [?|[?|[? ?]]]; [left|right; left|right; right]; done.
  - intros [[? _]|[[? _]|[? ?]]]; [left|right; left|right; right]; done.
Qed.

Lemma update_move_cache_follows b c F x y v :
  follows c F →
  follows (update_move_cache b c (x, y, v))
    (strike v (block_cells (size_sqrt b) (x - x `mod` size_sqrt b)
                           (y - y `mod` size_sqrt b))
       (strike v (col_cells (size b) y) (strike v (row_cells (size b) x) F))).
Proof.
  intros Hc. unfold update_move_cache. rewrite get_affected_coordinates_cells.
  cbn [foldl]. by repeat apply follows_strike.
Qed.

Lemma get_move_cache_ext b1 b2 :
  size b1 = size b2 → size_sqrt b1 = size_sqrt b2 → _board b1 = _board b2 →
  get_move_cache b1 = get_move_cache b2.
Proof. destruct b1, b2. simpl. intros -> -> ->. reflexivity. Qed.

(** The update of [apply_move] turns a cache that agrees with a rebuild
    into one that agrees with the rebuild of the new board. *)
Lemma apply_move_cache_agrees b c x y v :
  wf_board b → (x < size b)%nat → (y < size b)%nat →
  cell_value b (x, y) = EMPTY_SPACE → v ≠ EMPTY_SPACE → fits_int64 v →
  _move_cache b = Some c → cache_agrees b c →
  ∃ b' c', apply_move b (x, y, v) = Ok b' ∧
           _board b' = grid_set (_board b) x y v ∧
           size b' = size b ∧ size_sqrt b' = size_sqrt b ∧
           _move_cache b' = Some c' ∧ cache_agrees b' c'.
Proof.
  intros Hwf Hx Hy Hempty Hv Hfit Hc Hagree.
  unfold apply_move. rewrite store_cell_Ok by done. cbn [res_bind _move_cache with_board].
  rewrite Hc.
  assert (Hfresh : dict_get (get_move_cache b) (x, y) = Some (possible_values b x y)).
  { rewrite get_move_cache_fresh, dict_get_fresh_cache. by rewrite decide_True. }
  destruct (dict_del c (x, y)) as [c1|e] eqn:Hdel.
  2:{ unfold dict_del in Hdel. destruct (Hagree (x, y)) as [Hg|[_ Hg]];
        rewrite Hg, ?Hfresh in Hdel; done. }
  cbn [res_bind]. eexists _, _. split; [reflexivity|].
  cbn [_board size size_sqrt _move_cache with_cache with_board]. split_and!; try done.
  set (bw := with_board b (grid_set (_board b) x y v)).
  unfold cache_agrees. rewrite (get_move_cache_ext _ bw) by done.
  eapply follows_ext.
  { apply update_move_cache_follows. eapply follows_del; [exact Hagree|exact Hdel]. }
  cbn [size size_sqrt]. intros p.
  rewrite !get_move_cache_fresh, !dict_get_fresh_cache.
  subst bw. rewrite cell_value_with_board by done.
  change (in_range (with_board b (grid_set (_board b) x y v)) p) with (in_range b p).
  unfold strike. cbn beta. rewrite !dict_get_fresh_cache.
  destruct (decide ((x, y) = p)) as [<-|Hne].
  { destruct (decide (_ ∧ _)) as [[_ ?]|_]; [done|].
    by repeat destruct (decide (_ ∈ _)). }
  destruct (decide (in_range b p ∧ cell_value b p = EMPTY_SPACE)) as [[Hr He]|Hn].
  2:{ by repeat destruct (decide _). }
  destruct p as [p1 p2]. destruct Hr as [Hr1 Hr2]. simpl in Hr1, Hr2.
  cbn [fst snd]. rewrite possible_values_place by done.
  pose proof (related_affected b x y (p1, p2) Hwf Hx Hy (conj Hr1 Hr2)) as Hrel.
  destruct (decide (related _ _ _)) as [Hr|Hr].
  - apply Hrel in Hr.
    repeat destruct (decide (_ ∈ _)); simpl;
      first [exfalso; tauto|f_equal; set_solver].
  - repeat destruct (decide (_ ∈ _)); simpl; try done; exfalso; apply Hr, Hrel; tauto.
Qed.

Lemma undo_move_cache_agrees b c x y v :
  wf_board b → (x < size b)%nat → (y < size b)%nat →
  _move_cache b = Some c →
  ∃ b', undo_move b (x, y, v) = Ok b' ∧
        _board b' = grid_set (_board b) x y EMPTY_SPACE ∧
        size b' = size b ∧ size_sqrt b' = size_sqrt b ∧
        _move_cache b' = Some (get_move_cache b') ∧
        cache_agrees b' (get_move_cache b').
Proof.
  intros Hwf Hx Hy Hc. unfold undo_move.
  rewrite store_cell_Ok by (done || apply fits_int64_0).
  cbn [res_bind _move_cache with_board]. rewrite Hc.
  eexists. split; [reflexivity|]. cbn. split_and!; try done. by left.
Qed.

(** ** Boards the search can rely on *)

Lemma wf_board_ext b1 b2 :
  size b1 = size b2 → size_sqrt b1 = size_sqrt b2 → _board b1 = _board b2 →
  wf_board b1 → wf_board b2.
Proof. unfold wf_board. by intros <- <- <-. Qed.

Lemma same_grid_refl b : same_grid b b.
Proof. done. Qed.

Lemma same_grid_trans b1 b2 b3 : same_grid b1 b2 → same_grid b2 b3 → same_grid b1 b3.
Proof. intros (? & ? & ?) (? & ? & ?). split_and!; congruence. Qed.

Lemma same_grid_sym b1 b2 : same_grid b1 b2 → same_grid b2 b1.
Proof. intros (? & ? & ?). split_and!; congruence. Qed.

Lemma possible_values_ext b1 b2 x y :
  same_grid b1 b2 → possible_values b1 x y = possible_values b2 x y.
Proof. destruct b1, b2. intros (? & ? & ?). simpl in *. by subst. Qed.

Lemma legal_ext b1 b2 : same_grid b1 b2 → legal b1 → legal b2.
Proof. destruct b1, b2. intros (? & ? & ?). simpl in *. by subst. Qed.

Lemma is_legal_state_ext b1 b2 :
  same_grid b1 b2 → is_legal_state b1 = is_legal_state b2.
Proof. destruct b1, b2. intros (? & ? & ?). simpl in *. by subst. Qed.

Lemma is_complete_ext b1 b2 : same_grid b1 b2 → is_complete b1 = is_complete b2.
Proof. destruct b1, b2. intros (? & ? & ?). simpl in *. by subst. Qed.

Lemma empty_cells_ext b1 b2 : same_grid b1 b2 → empty_cells b1 = empty_cells b2.
Proof. destruct b1, b2. intros (? & ? & ?). simpl in *. by subst. Qed.

Lemma move_ok_ext b1 b2 m : same_grid b1 b2 → move_ok b1 m → move_ok b2 m.
Proof. destruct b1, b2. intros (? & ? & ?). simpl in *. by subst. Qed.

Lemma wf_same_grid b1 b2 : same_grid b1 b2 → wf_board b1 → wf_board b2.
Proof. intros (? & ? & ?). by apply wf_board_ext. Qed.

Lemma cache_agrees_ext b1 b2 c : same_grid b1 b2 → cache_agrees b1 c → cache_agrees b2 c.
Proof.
  intros (? & ? & ?). unfold cache_agrees. by rewrite (get_move_cache_ext b1 b2).
Qed.

Lemma is_complete_legal b :
  wf_board b → legal b → ∃ c : bool, is_complete b = Ok c.
Proof.
  intros Hwf Hl. unfold is_complete. destruct (existsb _ _); [by exists false|].
  apply is_legal_state_spec in Hl; [|done]. rewrite Hl. by exists true.
Qed.

(** *** Distinct keys survive the cache update *)

Lemma update_field_fold_wf val (group : list cell) (c : pydict cell (gset Z))
    (rem : gset Z) (n : nat) :
  dict_wf c → dict_wf (foldl (update_field val) (c, rem, n) group).1.1.
Proof.
  revert c rem n. induction group as [|field group IH]; intros c rem n Hwf; [done|].
  cbn [foldl]. unfold update_field at 2.
  destruct (dict_get c field); [|by apply IH].
  apply IH. by apply dict_set_wf.
Qed.

Lemma update_group_wf val c group : dict_wf c → dict_wf (update_group val c group).
Proof.
  intros Hwf. unfold update_group.
  pose proof (update_field_fold_wf val group c ∅ 0%nat Hwf) as H.
  destruct (foldl _ _ _) as [[c' rem'] n']. simpl in H.
  destruct (decide _); [by apply dict_set_wf|done].
Qed.

Lemma update_move_cache_wf b c m : dict_wf c → dict_wf (update_move_cache b c m).
Proof.
  intros Hwf. destruct m as [[x y] v]. unfold update_move_cache.
  rewrite get_affected_coordinates_cells. cbn [foldl].
  by repeat apply update_group_wf.
Qed.

Lemma dict_del_wf (c c' : pydict cell (gset Z)) p :
  dict_wf c → dict_del c p = Ok c' → dict_wf c'.
Proof.
  unfold dict_del. destruct (dict_get c p); [|done]. intros Hwf [= <-].
  by apply dict_filter_wf.
Qed.

(** *** Applying a candidate move *)

Lemma apply_move_cache_wf b c x y v b' c' :
  wf_board b → (x < size b)%nat → (y < size b)%nat →
  _move_cache b = Some c → dict_wf c →
  apply_move b (x, y, v) = Ok b' → _move_cache b' = Some c' → dict_wf c'.
Proof.
  intros Hwf Hx Hy Hc Hcwf. unfold apply_move, store_cell.
  destruct (decide _); [|done]. destruct (decide (fits_int64 v)); [|done].
  cbn [res_bind _move_cache with_board]. rewrite Hc.
  destruct (dict_del c (x, y)) as [c1|] eqn:Hdel; [|done]. cbn [res_bind].
  intros [= <-]. cbn [_move_cache with_cache]. intros [= <-].
  repeat apply update_group_wf. by eapply dict_del_wf.
Qed.

Lemma apply_move_good b m :
  good b → move_ok b m →
  ∃ b', apply_move b m = Ok b' ∧ good b' ∧
        size b' = size b ∧ size_sqrt b' = size_sqrt b ∧
        _board b' = grid_set (_board b) m.1.1 m.1.2 m.2 ∧
        (_move_cache b = None → _move_cache b' = None).
Proof.
  intros (Hwf & Hl & Hcs) (Hx & Hy & He & Hv). destruct m as [[x y] v]. simpl in *.
  pose proof (proj1 (possible_values_spec b Hwf x y v Hx Hy) Hv) as [Hr Hall].
  assert (Hv0 : v ≠ EMPTY_SPACE) by (unfold EMPTY_SPACE; lia).
  assert (Hfit : fits_int64 v) by (apply (fits_int64_value b); [done|lia]).
  set (bw := with_board b (grid_set (_board b) x y v)).
  assert (Hlw : legal bw).
  { apply (legal_place b Hwf x y v Hx Hy Hl He Hv0). done. }
  assert (Hwfw : wf_board bw) by (by apply with_board_wf).
  destruct (_move_cache b) as [c|] eqn:Hc.
  - destruct (Hcs c Hc) as [Hcwf Hag].
    destruct (apply_move_cache_agrees b c x y v Hwf Hx Hy He Hv0 Hfit Hc Hag)
      as (b' & c' & Hap & Hg & Hs & Hq & Hc' & Hag').
    exists b'. split; [done|].
    assert (Hsg : same_grid bw b') by (by split_and!).
    split_and!; try done.
    + split_and!.
      * by apply (wf_same_grid bw).
      * by apply (legal_ext bw).
      * intros c'' Hc''. rewrite Hc' in Hc''. injection Hc'' as <-. split; [|done].
        by apply (apply_move_cache_wf b c x y v b' c').
  - destruct (apply_move_Ok b x y v Hwf Hx Hy Hfit) as (b' & Hap & Hg & Hs & Hq & Hc').
    { unfold cache_tracks. by rewrite Hc. }
    exists b'. split; [done|].
    assert (Hsg : same_grid bw b') by (by split_and!).
    split_and!; try done.
    + split_and!.
      * by apply (wf_same_grid bw).
      * by apply (legal_ext bw).
      * intros c'' Hc''. by rewrite Hc' in Hc''.
    + intros _. by apply Hc'.
Qed.

(** *** Undoing it *)

Lemma undo_move_good b0 b m :
  good b0 → wf_board b → size b = size b0 → size_sqrt b = size_sqrt b0 →
  _board b = grid_set (_board b0) m.1.1 m.1.2 m.2 → move_ok b0 m →
  ∃ b', undo_move b m = Ok b' ∧ good b' ∧ same_grid b0 b'.
Proof.
  intros (Hwf0 & Hl0 & _) Hwf Hs Hq Hg (Hx & Hy & He & _).
  destruct m as [[x y] v]. simpl in *.
  destruct (undo_move_Ok b x y v Hwf) as (b' & Hun & Hg' & Hs' & Hq' & Hn & Hc); [lia..|].
  assert (Hsg : same_grid b0 b').
  { split_and!; [congruence..|]. rewrite Hg', Hg. symmetry.
    apply grid_set_restore; [done| |].
    - destruct Hwf0 as (_ & _ & -> & _). done.
    - by rewrite wf_row_length. }
  exists b'. split; [done|]. split; [|done]. split_and!.
  - by apply (wf_same_grid b0).
  - by apply (legal_ext b0).
  - intros c' Hc'. destruct (_move_cache b) as [c|] eqn:Hcb.
    + rewrite (Hc c eq_refl) in Hc'. injection Hc' as <-.
      set (bw := with_board b (grid_set (_board b) x y 0)).
      assert (same_grid bw b') by (by split_and!).
      split.
      * rewrite get_move_cache_fresh. apply fresh_cache_wf.
      * apply (cache_agrees_ext bw); [done|]. by left.
    + by rewrite Hn in Hc'.
Qed.

(** *** The moves a strategy hands out *)

Lemma fresh_entry_move_ok b (m : move) s :
  ((m.1.1, m.1.2), s) ∈ fresh_cache b → m.2 ∈ s → move_ok b m.
Proof.
  intros (p & Heq & Hp)%list_elem_of_fmap Hv. injection Heq as Hp1 Hs. subst p s.
  apply elem_of_empty_cells in Hp as [[? ?] ?]. simpl in *. by split_and!.
Qed.

Lemma get_legal_moves_good b version :
  good b →
  good (get_legal_moves b version).2 ∧
  same_grid b (get_legal_moves b version).2 ∧
  Forall (move_ok b) (get_legal_moves b version).1.
Proof.
  intros (Hwf & Hl & Hcs).
  assert (Hfresh : ∀ m : move,
    Forall (λ g : cell * gset Z, g.2 ≠ ∅) (fresh_cache b) ∧ m ∈ group_moves (fresh_cache b) →
    move_ok b m).
  { intros m [_ (s & Hin & Hs)%elem_of_group_moves]. by eapply fresh_entry_move_ok. }
  destruct version; unfold get_legal_moves; cbn [fst snd].
  - split_and!; [done..|]. apply Forall_forall. intros m Hm.
    by apply Hfresh, naive_legal_board.
  - split_and!; [done..|]. apply Forall_forall. intros m Hm.
    by apply Hfresh, (improved_moves b IMPROVED).
  - split_and!; [done..|]. apply Forall_forall. intros m Hm.
    by apply Hfresh, sorted_moves.
  - split_and!.
    + split_and!; [done..|]. unfold cache_get_legal_moves. cbn [snd].
      intros c [= <-]. destruct (_move_cache b) as [c|] eqn:Hc.
      * destruct (Hcs c Hc) as [? ?]. split; [done|].
        by apply (cache_agrees_ext b).
      * split; [rewrite get_move_cache_fresh; apply fresh_cache_wf|].
        apply (cache_agrees_ext b); [done|]. by left.
    + done.
    + apply Forall_forall. intros m [Hne Hm]%cached_moves.
      destruct (_move_cache b) as [c|] eqn:Hc; cbn [default] in *.
      * destruct (Hcs c Hc) as [Hcwf Hag].
        apply elem_of_group_moves in Hm as (s & Hin & Hs).
        pose proof (elem_of_dict_get _ _ _ Hcwf Hin) as Hget.
        destruct (Hag (m.1.1, m.1.2)) as [Hg|[_ Hg]]; rewrite Hget in Hg.
        -- apply (fresh_entry_move_ok b m s); [|done].
           rewrite <- get_move_cache_fresh. by apply dict_get_Some_elem_of.
        -- injection Hg as ->. by apply elem_of_empty in Hs.
      * rewrite get_move_cache_fresh in Hne, Hm. by apply Hfresh.
Qed.

Lemma empty_cells_after_move b b' m :
  wf_board b → move_ok b m → m.2 ≠ EMPTY_SPACE →
  size b' = size b → _board b' = grid_set (_board b) m.1.1 m.1.2 m.2 →
  S (length (empty_cells b')) = length (empty_cells b).
Proof.
  intros Hwf (Hx & Hy & He & _) Hv Hs Hg. destruct m as [[x y] v]. simpl in *.
  change (S (length (empty_cells b'))) with (length ((x, y) :: empty_cells b')).
  apply Permutation_length, NoDup_Permutation.
  - apply NoDup_cons. split; [|apply NoDup_empty_cells].
    rewrite elem_of_empty_cells. intros [_ Hc]. unfold cell_value in Hc.
    rewrite Hg in Hc. simpl in Hc. rewrite grid_get_set, decide_True in Hc; [done..| |].
    + destruct Hwf as (_ & _ & -> & _). done.
    + by rewrite wf_row_length.
  - apply NoDup_empty_cells.
  - intros p. rewrite elem_of_cons, !elem_of_empty_cells.
    unfold in_range, cell_value. rewrite Hs, Hg, grid_get_set.
    2:{ destruct Hwf as (_ & _ & -> & _). done. }
    2:{ by rewrite wf_row_length. }
    destruct p as [p1 p2]. simpl.
    destruct (decide ((x, y) = (p1, p2))) as [Heq|Hne].
    + injection Heq as <- <-. split; [|by left]. intros [_|[_ ?]]; [|done].
      unfold cell_value in He. done.
    + split; [|by right]. intros [?|?]; [congruence|done].
Qed.

(** ** The search drivers *)

Lemma visit_log_update_branching_factor d n :
  visit_log (update_branching_factor d n) = visit_log d.
Proof. unfold update_branching_factor. by repeat destruct (decide _). Qed.

Lemma push_moves_good s moves d queue :
  good s → Forall (move_ok s) moves → Forall good queue →
  ∃ d' queue', push_moves s moves d queue = Ok (d', queue') ∧
               Forall good queue' ∧ visit_log d' = visit_log d ∧
               revistited_states d' = revistited_states d.
Proof.
  intros Hs Hmoves. revert d queue.
  induction Hmoves as [|m moves Hm Hmoves IH]; intros d queue Hq.
  - by exists d, queue.
  - cbn [push_moves].
    destruct (apply_move_good s m Hs Hm) as (s1 & -> & Hs1 & _).
    cbn [res_bind].
    destruct (IH (count_branch d) (s1 :: queue)) as (d' & queue' & -> & ? & ? & ?).
    { by constructor. }
    by exists d', queue'.
Qed.

Section driver_facts.
Variable md5 : list Z → Z.

Lemma solve_iteration_good version d queue :
  Forall good queue → Forall good (visit_log d) →
  match solve_iteration md5 version d queue with
  | Ok (Continue d' queue') => Forall good queue' ∧ Forall good (visit_log d')
  | Ok (Return d' s) => Forall good (visit_log d') ∧ is_complete s = Ok true
  | Raise e => e = QueueEmpty ∧ queue = []
  end.
Proof.
  intros Hq Hlog. destruct queue as [|s queue]; [done|].
  apply Forall_cons in Hq as [Hs Hq]. cbn [solve_iteration].
  assert (Hlog' : Forall good (s :: visit_log d)) by (by constructor).
  destruct (decide _); [done|].
  destruct (is_complete_legal s) as [c Hc]; [apply Hs..|]. rewrite Hc. cbn [res_bind].
  destruct c; [done|].
  pose proof (get_legal_moves_good s version Hs) as (Hs' & Hsg & Hmoves).
  destruct (get_legal_moves s version) as [moves s'] eqn:Hglm. cbn [fst snd] in *.
  destruct (push_moves_good s' moves (mark_expanded md5 s (log_visit s d)) queue)
    as (d' & queue' & -> & Hq' & Hl' & _); [done| |done|].
  { eapply Forall_impl; [exact Hmoves|]. intros m. by apply move_ok_ext. }
  cbn [res_bind fst snd]. split; [done|]. by rewrite Hl'.
Qed.

Lemma solve_loop_good fuel version : ∀ d queue,
  Forall good queue → Forall good (visit_log d) →
  Forall good (popped (solve_loop md5 fuel version d queue)) ∧
  Forall good (pending (solve_loop md5 fuel version d queue)) ∧
  ∀ e, solve_loop md5 fuel version d queue = Raised e → e = QueueEmpty.
Proof.
  induction fuel as [|fuel IH]; intros d queue Hq Hlog; cbn [solve_loop].
  - split_and!; [done..|]. by intros e.
  - pose proof (solve_iteration_good version d queue Hq Hlog) as Hit.
    destruct (solve_iteration md5 version d queue) as [[d' queue'|d' s]|e].
    + destruct Hit. by apply IH.
    + destruct Hit. split_and!; [done|constructor|]. by intros e.
    + destruct Hit as [-> _]. split_and!; [constructor..|]. by intros e [= <-].
Qed.

(** The loop of [solve_recursive], for any recursive call that behaves on
    boards with fewer than [fuel] empty cells. *)
Lemma solve_recursive_loop_good rec fuel b :
  (∀ s d, good s → (length (empty_cells s) < fuel)%nat → Forall good (visit_log d) →
     ∃ r s' d', rec s d = Some (Ok (r, s', d')) ∧ good s' ∧
                Forall good (visit_log d') ∧
                (s :: visit_log d) `suffix_of` visit_log d' ∧
                (if r : bool then is_complete s' = Ok true else same_grid s s')) →
  (length (empty_cells b) ≤ fuel)%nat →
  ∀ moves s d,
    Forall (move_ok b) moves → good s → same_grid b s → Forall good (visit_log d) →
    ∃ r s' d', solve_recursive_loop rec moves s d = Some (Ok (r, s', d')) ∧
               good s' ∧ Forall good (visit_log d') ∧
               visit_log d `suffix_of` visit_log d' ∧
               (if r : bool then is_complete s' = Ok true else same_grid b s').
Proof.
  intros Hrec Hfuel moves. induction moves as [|m moves IH]; intros s d Hmoves Hs Hsg Hlog.
  - exists false, s, d. done.
  - apply Forall_cons in Hmoves as [Hm Hmoves]. cbn [solve_recursive_loop].
    pose proof (move_ok_ext b s m Hsg Hm) as Hms.
    destruct (apply_move_good s m Hs Hms) as (s1 & -> & Hs1 & Hsz1 & Hsq1 & Hg1 & _).
    assert (Hv0 : m.2 ≠ EMPTY_SPACE).
    { destruct Hms as (Hx & Hy & _ & Hv).
      apply (possible_values_spec s (proj1 Hs) _ _ _ Hx Hy) in Hv as [? _].
      unfold EMPTY_SPACE. lia. }
    pose proof (empty_cells_after_move s s1 m (proj1 Hs) Hms Hv0 Hsz1 Hg1) as Hlen.
    rewrite <- (empty_cells_ext b s Hsg) in Hlen.
    destruct (Hrec s1 (count_branch d) Hs1)
      as (r & s2 & d2 & -> & Hs2 & Hlog2 & Hsuf & Hr); [lia|done|].
    assert (Hsuf' : visit_log d `suffix_of` visit_log d2).
    { etrans; [|exact Hsuf]. by apply suffix_cons_r. }
    destruct (is_complete_legal s2) as [c Hc]; [apply Hs2..|]. rewrite Hc.
    destruct c.
    + exists true, s2, d2. done.
    + destruct r; [congruence|].
      destruct (undo_move_good s s2 m Hs) as (s3 & -> & Hs3 & Hsg3); [apply Hs2| | | |done|].
      * destruct Hr as (<- & _ & _). done.
      * destruct Hr as (_ & <- & _). done.
      * destruct Hr as (_ & _ & <-). done.
      * destruct (IH s3 d2) as (r & s4 & d4 & -> & ? & ? & ? & ?);
          [done..|by eapply same_grid_trans|done|].
        exists r, s4, d4. split_and!; try done. by etrans.
Qed.

Lemma solve_recursive_shared_good hit version fuel : ∀ s d,
  good s → (length (empty_cells s) < fuel)%nat → Forall good (visit_log d) →
  ∃ r s' d', solve_recursive_shared md5 hit fuel version s d = Some (Ok (r, s', d')) ∧
             good s' ∧ Forall good (visit_log d') ∧
             (s :: visit_log d) `suffix_of` visit_log d' ∧
             (if r : bool then is_complete s' = Ok true else same_grid s s').
Proof.
  induction fuel as [|fuel IH]; intros s d Hs Hfuel Hlog; [lia|].
  cbn [solve_recursive_shared].
  assert (Hlog' : Forall good (s :: visit_log d)) by (by constructor).
  destruct (decide _).
  { exists false, s, (log_visit s d). done. }
  destruct (is_complete_legal s) as [c Hc]; [apply Hs..|]. rewrite Hc.
  destruct c.
  { eexists true, s, _. done. }
  pose proof (get_legal_moves_good s version Hs) as (Hs' & Hsg & Hmoves).
  destruct (get_legal_moves s version) as [moves s'] eqn:Hglm. cbn [fst snd] in *.
  assert (Hfuel' : (length (empty_cells s) ≤ fuel)%nat) by lia.
  assert (Hlog1 : Forall good (visit_log
            (update_branching_factor (mark_expanded md5 s (log_visit s d))
                                     (length moves)))).
  { by rewrite visit_log_update_branching_factor. }
  destruct (solve_recursive_loop_good (solve_recursive_shared md5 hit fuel version)
              fuel s IH Hfuel' moves s' _ Hmoves Hs' Hsg Hlog1)
    as (r & s2 & d2 & Hrun & ? & ? & Hsuf & ?).
  rewrite visit_log_update_branching_factor in Hsuf.
  by exists r, s2, d2.
Qed.
End driver_facts.

(** ** Example boards are well formed *)

Lemma wf_mk_board_4 (a : grid) :
  length a = 4%nat → Forall (λ row, length row = 4%nat) a → wf_board (mk_board 2 a).
Proof. intros Hlen Hrows. split_and!; simpl; [lia|done|done|done|lia]. Qed.

Lemma wf_board_A : wf_board board_A.
Proof. apply wf_mk_board_4; [done|]. repeat constructor. Qed.

Lemma wf_board_B : wf_board board_B.
Proof. apply wf_mk_board_4; [done|]. repeat constructor. Qed.

Lemma wf_board_dead : wf_board board_dead.
Proof. apply wf_mk_board_4; [done|]. repeat constructor. Qed.

Lemma wf_board_A_cached : wf_board board_A_cached.
Proof. apply wf_mk_board_4; [done|]. repeat constructor. Qed.

(** ** [get_row] *)

Lemma get_row_raises_iff b row :
  get_row b row = Raise InvalidRow ↔
  ∀ r, int_value row = Some r → ¬ (0 ≤ r < Z.of_nat (size b)).
Proof.
  destruct row as [r|t|]; simpl; [| |split; [by intros _ r [=]|done]].
  - case_bool_decide as Hr; split.
    + intros _ r' [= <-]. lia.
    + done.
    + done.
    + intros H. exfalso. apply (H r); [done|lia].
  - case_bool_decide as Hr; split.
    + intros _ r' [= <-]. lia.
    + done.
    + done.
    + intros H. exfalso. apply (H (Z.b2z t)); [done|destruct t; simpl in *; lia].
Qed.

(** On an index in range the result is the column of that index. *)
Lemma get_row_column b r :
  wf_board b → 0 ≤ r < Z.of_nat (size b) →
  get_row b (PyInt r) = Ok (Scalar <$> nth (Z.to_nat r) (np_T (_board b)) []).
Proof.
  intros Hwf Hr. simpl. rewrite bool_decide_eq_false_2 by lia. f_equal.
  rewrite np_T_cols by done.
  rewrite (nth_map_lt _ _ _ _ 0%nat) by (rewrite length_seq; lia).
  rewrite seq_nth by lia. unfold col_cells.
  rewrite map_map, <- list_fmap_compose. done.
Qed.

(** C7 (the code departs from the claim): [get_row(0)] on [board_B] does
    not raise, but what it returns is the first column, [0; 4; 0; 1], while
    the first row of the board is [0; 3; 4; 0]. *)
Theorem C7_get_row_returns_column :
  get_row board_B (PyInt 0) = Ok (Scalar <$> [0; 4; 0; 1]) ∧
  nth 0 (_board board_B) [] = [0; 3; 4; 0].
Proof. split; reflexivity. Qed.

(** ** [is_complete] *)

Lemma existsb_empty_cell b :
  existsb (λ p, bool_decide (grid_get (_board b) p.1 p.2 = EMPTY_SPACE))
          (all_cells (size b)) = true ↔
  ∃ q, in_range b q ∧ cell_value b q = EMPTY_SPACE.
Proof.
  rewrite existsb_exists. split.
  - intros (q & Hq%list_elem_of_In%elem_of_all_cells & Hv%bool_decide_eq_true).
    by exists q.
  - intros (q & Hq & Hv). exists q. split.
    + by apply list_elem_of_In, elem_of_all_cells.
    + by apply bool_decide_eq_true.
Qed.

(** C8: [is_complete] answers [False] exactly when some cell is empty; on
    a full board it answers [True] when the board is legal and raises when
    it is not, so [True] is never the answer for an illegal board. *)
Theorem C8_is_complete b :
  wf_board b →
  (is_complete b = Ok false ↔ ∃ q, in_range b q ∧ cell_value b q = EMPTY_SPACE) ∧
  ((∀ q, in_range b q → cell_value b q ≠ EMPTY_SPACE) →
     (is_legal_state b = true → is_complete b = Ok true) ∧
     (is_legal_state b = false →
        is_complete b = Raise InconsistentCompleteState)) ∧
  (is_complete b = Ok true → is_legal_state b = true ∧ legal b).
Proof.
  intros Hwf. unfold is_complete.
  pose proof (existsb_empty_cell b) as Hex.
  destruct (existsb _ _) eqn:He.
  - split_and!.
    + split; [intros _; by apply Hex|done].
    + intros Hfull. destruct (proj1 Hex eq_refl) as (q & Hq & Hv).
      by destruct (Hfull q Hq).
    + done.
  - assert (Hnone : ¬ ∃ q, in_range b q ∧ cell_value b q = EMPTY_SPACE).
    { intros Hq%Hex. done. }
    split_and!.
    + split; [by destruct (is_legal_state b)|]. intros Hq. by destruct Hnone.
    + intros _. by destruct (is_legal_state b).
    + destruct (is_legal_state b) eqn:Hl; [|done].
      intros _. split; [done|]. by apply is_legal_state_spec.
Qed.

Lemma C8_is_complete_witness :
  wf_board board_full ∧
  (is_complete board_full = Ok true → is_legal_state board_full = true ∧ legal board_full).
Proof.
  assert (Hwf : wf_board board_full).
  { apply wf_mk_board_4; [done|]. repeat constructor. }
  split; [exact Hwf|]. apply (C8_is_complete board_full Hwf).
Defined.

(** ** [apply_move] without a cache *)

(** C10 as stated fails: the cells of the array are 64-bit integers, and
    a move whose value is not one is refused.  On [board_A], which has no
    cache, [apply_move((0, 0, 2^63))] raises [OverflowError] instead of
    setting the cell. *)
Lemma C10_counterexample :
  wf_board board_A ∧ _move_cache board_A = None ∧
  apply_move board_A (0%nat, 0%nat, 2 ^ 63) = Raise OverflowError.
Proof. split; [apply wf_board_A|]. split; reflexivity. Qed.

(** C10 (amended): without a cache, [apply_move((x, y, v))] with a value
    that fits a cell stores [v] in cell [(x, y)] and leaves every other
    cell alone; nothing is asked of the old content of the cell, which is
    overwritten without an error.  A value that does not fit raises
    [OverflowError]. *)
Theorem C10_apply_move_writes_cell b x y v :
  wf_board b → (x < size b)%nat → (y < size b)%nat → _move_cache b = None →
  (fits_int64 v →
   ∃ b', apply_move b (x, y, v) = Ok b' ∧
         cell_value b' (x, y) = v ∧
         (∀ q, q ≠ (x, y) → cell_value b' q = cell_value b q) ∧
         _move_cache b' = None) ∧
  (¬ fits_int64 v → apply_move b (x, y, v) = Raise OverflowError).
Proof.
  intros Hwf Hx Hy Hc. split.
  - intros Hv.
    destruct (apply_move_Ok b x y v Hwf Hx Hy Hv) as (b' & Hb' & Hg & Hs & _ & Hc').
    { unfold cache_tracks. by rewrite Hc. }
    exists b'. split; [done|].
    assert (Hcv : ∀ q, cell_value b' q =
                       if decide ((x, y) = q) then v else cell_value b q).
    { intros q. rewrite <- (cell_value_with_board b x y v q) by done.
      unfold cell_value. by rewrite Hg. }
    split_and!.
    + by rewrite Hcv, decide_True.
    + intros q Hq. by rewrite Hcv, decide_False.
    + auto.
  - intros Hv. unfold apply_move, store_cell.
    rewrite decide_True.
    + by rewrite decide_False.
    + rewrite wf_row_length by done. destruct Hwf as (_ & _ & -> & _). done.
Qed.

(** The target cell (0, 0) of [board_A] holds 1 and is overwritten. *)
Lemma C10_apply_move_writes_cell_witness :
  cell_value board_A (0%nat, 0%nat) = 1 ∧
  ∃ b', apply_move board_A (0%nat, 0%nat, 3) = Ok b' ∧
        cell_value b' (0%nat, 0%nat) = 3 ∧
        (∀ q, q ≠ (0%nat, 0%nat) → cell_value b' q = cell_value board_A q) ∧
        _move_cache b' = None.
Proof.
  split; [reflexivity|].
  apply (C10_apply_move_writes_cell board_A 0 0 3 wf_board_A);
    [simpl; lia|simpl; lia|reflexivity|unfold fits_int64; lia].
Defined.

(** ** [apply_move] then [undo_move] *)

(** C5 as stated fails.  [apply_move] deletes the cache entry of its
    target, and an empty cell need not have one: after
    [remove_random_number] has emptied cell (0, 0) of [board_A_cached]
    (the cache is not told), [apply_move((0, 0, 1))] raises [KeyError].
    And on [board_A] the move (0, 2, 2^63) onto an empty cell raises
    [OverflowError]. *)
Lemma C5_counterexample :
  (∃ b, remove_random_number [(0%nat, 0%nat)] board_A_cached = Some b ∧
        wf_board b ∧ cell_value b (0%nat, 0%nat) = EMPTY_SPACE ∧
        apply_move b (0%nat, 0%nat, 1) = Raise KeyError) ∧
  (cell_value board_A (0%nat, 2%nat) = EMPTY_SPACE ∧
   apply_move board_A (0%nat, 2%nat, 2 ^ 63) = Raise OverflowError).
Proof.
  split.
  - eexists. split; [reflexivity|]. split; [|split].
    + apply with_board_wf, wf_mk_board_4; [reflexivity|]. repeat constructor.
    + reflexivity.
    + by vm_compute.
  - split; reflexivity.
Qed.

(** C5 (amended): applying a move whose value fits a cell to an empty
    cell (one of the keys of the cache, when the board carries a cache)
    and undoing it gives back a board with the same cells and the same
    fingerprint. *)
Theorem C5_apply_undo_restores (md5 : list Z → Z) b x y v :
  wf_board b → (x < size b)%nat → (y < size b)%nat →
  cell_value b (x, y) = EMPTY_SPACE → fits_int64 v → cache_tracks b (x, y) →
  ∃ b1 b2, apply_move b (x, y, v) = Ok b1 ∧
           undo_move b1 (x, y, v) = Ok b2 ∧
           _board b2 = _board b ∧
           __hash__ md5 b2 = __hash__ md5 b ∧
           __eq__ md5 b2 b = true.
Proof.
  intros Hwf Hx Hy Hempty Hv Ht.
  destruct (apply_move_Ok b x y v Hwf Hx Hy Hv Ht) as (b1 & Hb1 & Hg1 & Hs1 & Hq1 & _).
  assert (Hwf1 : wf_board b1).
  { eapply wf_board_ext; [| | |apply (with_board_wf b x y v Hwf)]; simpl; done. }
  destruct (undo_move_Ok b1 x y v Hwf1) as (b2 & Hb2 & Hg2 & _); [lia..|].
  exists b1, b2. split_and!; [done..| | |].
  - rewrite Hg2, Hg1. apply grid_set_restore; [done| |].
    + destruct Hwf as (_ & _ & -> & _). done.
    + by rewrite wf_row_length.
  - unfold __hash__. rewrite Hg2, Hg1, grid_set_restore; [done|done| |].
    + destruct Hwf as (_ & _ & -> & _). done.
    + by rewrite wf_row_length.
  - unfold __eq__, __hash__. apply bool_decide_eq_true.
    rewrite Hg2, Hg1, grid_set_restore; [done|done| |].
    + destruct Hwf as (_ & _ & -> & _). done.
    + by rewrite wf_row_length.
Qed.

(** On [board_A_cached] the empty cell (0, 2) is a key of the cache. *)
Lemma C5_apply_undo_restores_witness :
  cell_value board_A_cached (0%nat, 2%nat) = EMPTY_SPACE ∧
  ∃ b1 b2, apply_move board_A_cached (0%nat, 2%nat, 3) = Ok b1 ∧
           undo_move b1 (0%nat, 2%nat, 3) = Ok b2 ∧
           _board b2 = _board board_A_cached ∧
           __hash__ toy_md5 b2 = __hash__ toy_md5 board_A_cached ∧
           __eq__ toy_md5 b2 board_A_cached = true.
Proof.
  split; [reflexivity|].
  apply (C5_apply_undo_restores toy_md5 board_A_cached 0 2 3);
    [apply wf_board_A_cached
    |simpl; lia|simpl; lia|reflexivity|unfold fits_int64; lia
    |vm_compute; eauto].
Defined.

(** ** Claims on the move-generation strategies *)

(** C1 as stated fails: on the legal board reached from [board_A] by the
    cached move (1, 3, 1) the incremental update has written its dead-end
    mark, so Cached returns nothing while Improved still returns (0, 2, 3);
    and on a board that is illegal to begin with Naive returns nothing
    while Improved returns (0, 2, 2). *)
Lemma C1_counterexample :
  (is_legal_state board_A = true ∧
   (1%nat, 3%nat, 1) ∈ (get_legal_moves board_A STORE_LEGAL).1 ∧
   ∃ b, apply_move board_A_cached (1%nat, 3%nat, 1) = Ok b ∧
        is_legal_state b = true ∧
        (0%nat, 2%nat, 3) ∈ (get_legal_moves b IMPROVED).1 ∧
        (0%nat, 2%nat, 3) ∉ (get_legal_moves b STORE_LEGAL).1) ∧
  (is_legal_state board_illegal = false ∧
   (0%nat, 2%nat, 2) ∈ (get_legal_moves board_illegal IMPROVED).1 ∧
   (0%nat, 2%nat, 2) ∉ (get_legal_moves board_illegal NAIVE).1).
Proof.
  split.
  - split; [vm_compute; reflexivity|].
    split; [apply (bool_decide_unpack _); vm_compute; exact I|].
    eexists. split; [vm_compute; reflexivity|]. split; [vm_compute; reflexivity|].
    split.
    + apply (bool_decide_unpack _). vm_compute. exact I.
    + apply (bool_decide_unpack _). vm_compute. exact I.
  - split; [vm_compute; reflexivity|]. split.
    + apply (bool_decide_unpack _). vm_compute. exact I.
    + apply (bool_decide_unpack _). vm_compute. exact I.
Qed.

(** C1 (amended): on a well-formed legal board whose cache, if it has one,
    answers like a from-scratch rebuild, any two of the four strategies
    return the same set of moves. *)
Theorem C1_strategies_same_moves b v1 v2 m :
  wf_board b → legal b → cache_exact b →
  m ∈ (get_legal_moves b v1).1 ↔ m ∈ (get_legal_moves b v2).1.
Proof. intros Hwf Hl Hc. by rewrite !strategy_moves. Qed.

Lemma legal_board_A : legal board_A.
Proof. apply is_legal_state_spec; [apply wf_board_A|]. vm_compute. reflexivity. Qed.

Lemma C1_strategies_same_moves_witness :
  (0%nat, 2%nat, 3) ∈ (get_legal_moves board_A NAIVE).1 ↔
  (0%nat, 2%nat, 3) ∈ (get_legal_moves board_A STORE_LEGAL).1.
Proof.
  apply (C1_strategies_same_moves board_A NAIVE STORE_LEGAL _ wf_board_A legal_board_A).
  intros c Hc. simpl in Hc. discriminate Hc.
Defined.

(** C9: the lists of Sorted and Cached are grouped by cell, the groups in
    descending order of candidate-set size, so that the move a LIFO
    consumer takes first belongs to a cell with a smallest set.  For Sorted
    the sets are those of a from-scratch computation, for Cached those of
    the board's cache (built from scratch when the board has none). *)
Theorem C9_sorted_cached_descending b :
  (∀ c, _move_cache b = Some c → dict_wf c) →
  grouped_desc (fresh_cache b) (get_legal_moves b SORTED).1 ∧
  grouped_desc (default (fresh_cache b) (_move_cache b))
               (get_legal_moves b STORE_LEGAL).1.
Proof.
  intros Hc. unfold get_legal_moves. cbn [fst]. split.
  - rewrite sorted_closed. apply grouped_desc_sorted, fresh_cache_wf.
  - rewrite cached_closed, get_move_cache_fresh. apply grouped_desc_sorted.
    destruct (_move_cache b) as [c|]; simpl; [by apply Hc|apply fresh_cache_wf].
Qed.

Lemma C9_sorted_cached_descending_witness :
  grouped_desc (fresh_cache board_A_cached) (get_legal_moves board_A_cached SORTED).1 ∧
  grouped_desc (default (fresh_cache board_A_cached) (_move_cache board_A_cached))
               (get_legal_moves board_A_cached STORE_LEGAL).1.
Proof.
  apply (C9_sorted_cached_descending board_A_cached).
  intros c Hc. injection Hc as <-. rewrite get_move_cache_fresh. apply fresh_cache_wf.
Defined.

(** ** Claims on the search drivers *)

Lemma good_is_legal_state s : good s → is_legal_state s = true.
Proof. intros (Hwf & Hl & _). by apply is_legal_state_spec. Qed.

Lemma wf_board_stale : wf_board board_stale.
Proof.
  apply (wf_board_ext (mk_board 2 (_board board_stale))); [done..|].
  apply wf_mk_board_4; [reflexivity|]. repeat constructor.
Qed.

(** C3 as stated fails: the Cached strategy reads the cache of the board,
    not its grid.  [board_stale] is legal, but its cache still offers every
    value for every cell; the moves of cell (3, 3) are pushed last, so the
    second board [solve] pops has that cell filled, and whatever the value
    it repeats one in its row or column.  The boards popped are listed
    latest first, each with whether its cell (3, 3) is empty and whether it
    passes [is_legal_state]. *)
Lemma C3_counterexample :
  wf_board board_stale ∧ is_legal_state board_stale = true ∧
  (λ s, (bool_decide (cell_value s (3%nat, 3%nat) = EMPTY_SPACE), is_legal_state s))
    <$> popped (solve toy_md5 2 STORE_LEGAL (SudokuDFS_init board_stale))
  = [(false, false); (true, true)].
Proof.
  split; [apply wf_board_stale|]. split; vm_compute; reflexivity.
Qed.

(** C3 (amended): from a well-formed legal board that has no cache, or
    whose cache agrees with a rebuild (up to the dead-end mark), every
    board popped by [solve], and every board still on its stack, passes
    [is_legal_state], whatever the strategy and however long the loop runs;
    and [solve_recursive], whatever its dictionary lookups hit, given
    recursion depth beyond the number of empty cells, returns, having been
    called only on boards that pass [is_legal_state], the initial board
    among them. *)
Theorem C3_search_states_legal (md5 : list Z → Z) hit version b :
  wf_board b → is_legal_state b = true → cache_sound b →
  (∀ fuel d, state d = b →
     Forall (λ s, is_legal_state s = true) (popped (solve md5 fuel version d)) ∧
     Forall (λ s, is_legal_state s = true) (pending (solve md5 fuel version d))) ∧
  (∀ fuel d, (length (empty_cells b) < fuel)%nat → visit_log d = [] →
     ∃ r s' d', solve_recursive_shared md5 hit fuel version b d
                = Some (Ok (r, s', d')) ∧
                b ∈ visit_log d' ∧
                Forall (λ s, is_legal_state s = true) (visit_log d')).
Proof.
  intros Hwf Hl Hcs.
  assert (Hgood : good b).
  { split_and!; [done| |done]. by apply is_legal_state_spec. }
  split.
  - intros fuel d Hd. unfold solve.
    destruct (solve_loop_good md5 fuel version (reset_stats d) [state (reset_stats d)])
      as (Hpop & Hpend & _).
    + constructor; [|constructor]. simpl. by rewrite Hd.
    + constructor.
    + split; (eapply Forall_impl; [eassumption|apply good_is_legal_state]).
  - intros fuel d Hfuel Hlog.
    destruct (solve_recursive_shared_good md5 hit version fuel b d Hgood Hfuel)
      as (r & s' & d' & Hrun & _ & Hall & Hsuf & _).
    { rewrite Hlog. constructor. }
    exists r, s', d'. split_and!; [done| |].
    + destruct Hsuf as [l ->]. apply elem_of_app. right. left.
    + eapply Forall_impl; [exact Hall|apply good_is_legal_state].
Qed.

Lemma C3_search_states_legal_witness :
  (∀ fuel d, state d = board_A →
     Forall (λ s, is_legal_state s = true)
            (popped (solve toy_md5 fuel STORE_LEGAL d)) ∧
     Forall (λ s, is_legal_state s = true)
            (pending (solve toy_md5 fuel STORE_LEGAL d))) ∧
  (∀ fuel d, (length (empty_cells board_A) < fuel)%nat → visit_log d = [] →
     ∃ r s' d', solve_recursive_shared toy_md5 slot_hit fuel STORE_LEGAL board_A d
                = Some (Ok (r, s', d')) ∧
                board_A ∈ visit_log d' ∧
                Forall (λ s, is_legal_state s = true) (visit_log d')).
Proof.
  apply (C3_search_states_legal toy_md5 slot_hit STORE_LEGAL board_A wf_board_A).
  - vm_compute. reflexivity.
  - intros c Hc. simpl in Hc. discriminate Hc.
Defined.

(** From such a board the only exception [solve] can raise is the one of
    the empty stack. *)
Lemma solve_only_raises_QueueEmpty (md5 : list Z → Z) version fuel d e :
  good (state d) → solve md5 fuel version d = Raised e → e = QueueEmpty.
Proof.
  intros Hgood. unfold solve.
  apply (solve_loop_good md5 fuel version (reset_stats d) [state (reset_stats d)]).
  - by constructor.
  - constructor.
Qed.

(** The recursive driver on a dead end: no exception, the flag is false. *)
Lemma solve_recursive_dead_end (md5 : list Z → Z) hit version :
  ∃ s d, solve_recursive_shared md5 hit 1 version board_dead
           (SudokuDFS_init board_dead)
         = Some (Ok (false, s, d)).
Proof.
  cbn [solve_recursive_shared]. destruct (decide _); [by eauto|].
  replace (is_complete board_dead) with (@Ok bool false) by (by vm_compute).
  destruct (get_legal_moves board_dead version) as [moves s] eqn:Hm.
  assert (moves = []) as ->.
  { destruct version; vm_compute in Hm; congruence. }
  cbn [solve_recursive_loop]. eauto.
Qed.

(** C4 (the code departs from the claim): on [board_dead], where cell
    (0, 3) has no candidate, every strategy returns no move; the first
    pass of [solve] pushes nothing and the second finds the stack empty,
    which [queue.get(False)] answers with the [queue.Empty] exception. *)
Theorem C4_solve_raises_on_exhaustion (md5 : list Z → Z) version :
  is_legal_state board_dead = true ∧
  (get_legal_moves board_dead version).1 = [] ∧
  solve md5 2 version (SudokuDFS_init board_dead) = Raised QueueEmpty.
Proof.
  split; [by vm_compute|].
  assert (Hm : (get_legal_moves board_dead version).1 = []).
  { destruct version; by vm_compute. }
  split; [done|].
  unfold solve. cbn [solve_loop solve_iteration reset_stats SudokuDFS_init state].
  rewrite decide_False by (simpl; set_solver).
  replace (is_complete board_dead) with (@Ok bool false) by (by vm_compute).
  cbn [res_bind].
  destruct (get_legal_moves board_dead version) as [moves s] eqn:Hglm.
  simpl in Hm. subst moves. reflexivity.
Qed.

(** Whenever the stack is empty the loop body raises. *)
Lemma solve_iteration_empty (md5 : list Z → Z) version d :
  solve_iteration md5 version d [] = Raise QueueEmpty.
Proof. reflexivity. Qed.

Lemma push_moves_stats s moves : ∀ d queue d' queue',
  push_moves s moves d queue = Ok (d', queue') →
  node_expansions d' = node_expansions d ∧
  visited_states d' = visited_states d ∧
  revistited_states d' = revistited_states d.
Proof.
  induction moves as [|m moves IH]; intros d queue d' queue'; cbn [push_moves].
  - by intros [= <- <-].
  - destruct (apply_move s m); [|done]. cbn [res_bind].
    intros (? & ? & ?)%IH. done.
Qed.

(** The part of C6 the code does carry out: a state not yet expanded is
    marked and counted, and the revisit counter is again left alone. *)
Lemma solve_iteration_marks_expanded (md5 : list Z → Z) version d s queue :
  __hash__ md5 s ∉ visited_states d →
  match solve_iteration md5 version d (s :: queue) with
  | Ok (Continue d' _) | Ok (Return d' _) =>
      node_expansions d' = S (node_expansions d) ∧
      visited_states d' = {[__hash__ md5 s]} ∪ visited_states d ∧
      revistited_states d' = revistited_states d
  | Raise _ => True
  end.
Proof.
  intros Hnew. cbn [solve_iteration]. rewrite decide_False by done.
  destruct (is_complete s) as [[|]|]; cbn [res_bind]; [done| |done].
  destruct (get_legal_moves s version) as [moves s'].
  destruct (push_moves s' moves _ queue) as [[d' queue']|] eqn:Hp; [|done].
  cbn [res_bind fst snd]. by apply push_moves_stats in Hp as (-> & -> & ->).
Qed.

(** C6 (the code departs from the claim): when the fingerprint of the
    popped state is already in [visited_states], the loop body only drops
    the state: [revistited_states] keeps its value (it is set to 0 by
    [reset_stats] and never written again), as do the expansion count
    and the visited set. *)
Theorem C6_revisit_not_counted (md5 : list Z → Z) version d s queue :
  __hash__ md5 s ∈ visited_states d →
  ∃ d', solve_iteration md5 version d (s :: queue) = Ok (Continue d' queue) ∧
        revistited_states d' = revistited_states d ∧
        node_expansions d' = node_expansions d ∧
        visited_states d' = visited_states d.
Proof.
  intros Hin. cbn [solve_iteration]. rewrite decide_True by done.
  eexists. split; [reflexivity|]. done.
Qed.

Lemma C6_revisit_not_counted_witness :
  ∃ d', solve_iteration toy_md5 IMPROVED
          (mark_expanded toy_md5 board_B (SudokuDFS_init board_B)) [board_B]
        = Ok (Continue d' []) ∧
        revistited_states d' = 0%nat ∧
        node_expansions d' = 1%nat ∧
        visited_states d' = {[__hash__ toy_md5 board_B]} ∪ ∅.
Proof.
  apply (C6_revisit_not_counted toy_md5 IMPROVED
           (mark_expanded toy_md5 board_B (SudokuDFS_init board_B)) board_B []).
  simpl. set_solver.
Defined.

(** The run of [solve] on [board_B] with the stand-in digest: the
    fifteenth state popped has the cells of the fifth (the moves (2, 0, 3)
    and (2, 1, 4) in the other order) and is skipped, so fifteen states
    are popped, fourteen are expanded, and the revisit counter shows 0. *)
Lemma solve_board_B_revisit :
  ∃ d queue, solve toy_md5 15 IMPROVED (SudokuDFS_init board_B) = Running d queue ∧
             length (visit_log d) = 15%nat ∧
             (_board <$> visit_log d !! 0%nat) = (_board <$> visit_log d !! 10%nat) ∧
             node_expansions d = 14%nat ∧
             revistited_states d = 0%nat.
Proof.
  destruct (solve toy_md5 15 IMPROVED (SudokuDFS_init board_B)) as [| |d queue] eqn:Hrun;
    vm_compute in Hrun; try discriminate Hrun.
  exists d, queue. split; [done|]. injection Hrun as <- _. by vm_compute.
Qed.

(** * Further properties of the board (sudoku.py) *)

(** X1: on a well-formed board [is_legal_state] answers [True] exactly
    when no two distinct cells that share a row, a column or a subgrid hold
    the same nonzero value. *)
Theorem X1_is_legal_state_decides_legal b :
  wf_board b → is_legal_state b = true ↔ legal b.
Proof. intros Hwf. by apply is_legal_state_spec. Qed.

Lemma X1_is_legal_state_decides_legal_witness :
  is_legal_state board_illegal = true ↔ legal board_illegal.
Proof.
  apply (X1_is_legal_state_decides_legal board_illegal).
  apply wf_mk_board_4; [reflexivity|]. repeat constructor.
Defined.

(** X2: [get_move_cache(field=(x, y))] on a well-formed board is the set
    of the values 1 … size that no cell of the row, the column or the
    subgrid of (x, y) holds, the cell (x, y) itself included. *)
Theorem X2_candidates_characterised b x y v :
  wf_board b → (x < size b)%nat → (y < size b)%nat →
  v ∈ get_move_cache_field b (x, y) ↔
  1 ≤ v ≤ Z.of_nat (size b) ∧
  ∀ q, in_range b q → related (size_sqrt b) (x, y) q → cell_value b q ≠ v.
Proof. intros Hwf Hx Hy. by apply possible_values_spec. Qed.

Lemma X2_candidates_characterised_witness :
  3 ∈ get_move_cache_field board_A (0%nat, 2%nat) ↔
  1 ≤ 3 ≤ Z.of_nat (size board_A) ∧
  ∀ q, in_range board_A q → related (size_sqrt board_A) (0%nat, 2%nat) q →
       cell_value board_A q ≠ 3.
Proof.
  apply (X2_candidates_characterised board_A 0 2 3 wf_board_A); simpl; lia.
Defined.

(** X3: the dictionary built by [get_move_cache()] has distinct keys, its
    keys are the empty cells in scanning order, and it maps each of them to
    the candidate set [get_move_cache(field)] computes for it; a filled or
    out-of-range cell is not a key. *)
Theorem X3_get_move_cache_entries b :
  dict_wf (get_move_cache b) ∧
  (get_move_cache b).*1 = empty_cells b ∧
  ∀ p, dict_get (get_move_cache b) p =
       if decide (in_range b p ∧ cell_value b p = EMPTY_SPACE)
       then Some (get_move_cache_field b p) else None.
Proof.
  rewrite get_move_cache_fresh. split_and!.
  - apply fresh_cache_wf.
  - apply fresh_cache_keys.
  - intros p. apply dict_get_fresh_cache.
Qed.

Lemma affected_coordinates_related b x y row col subgrid :
  wf_board b → (x < size b)%nat → (y < size b)%nat →
  get_affected_coordinates b x y = (row, col, subgrid) →
  (∀ p, p ∈ row ∨ p ∈ col ∨ p ∈ subgrid ↔
        in_range b p ∧ related (size_sqrt b) (x, y) p) ∧
  ((x, y) ∈ row ∧ (x, y) ∈ col ∧ (x, y) ∈ subgrid) ∧
  (NoDup row ∧ NoDup col ∧ NoDup subgrid) ∧
  (length row = size b ∧ length col = size b ∧ length subgrid = size b).
Proof.
  intros Hwf Hx Hy Hg. rewrite get_affected_coordinates_cells in Hg.
  injection Hg as <- <- <-.
  assert (Hin : ∀ p, p ∈ row_cells (size b) x ∨ p ∈ col_cells (size b) y ∨
      p ∈ block_cells (size_sqrt b) (x - x `mod` size_sqrt b) (y - y `mod` size_sqrt b) →
      in_range b p).
  { intros p. rewrite elem_of_row_cells, elem_of_col_cells, elem_of_block_cells.
    rewrite !sub_mod_block. unfold in_range.
    pose proof (block_start_le b Hwf _ (div_lt_sqrt b Hwf x Hx)).
    pose proof (block_start_le b Hwf _ (div_lt_sqrt b Hwf y Hy)).
    lia. }
  assert (Hrel : ∀ p, in_range b p →
      related (size_sqrt b) (x, y) p ↔
      p ∈ row_cells (size b) x ∨ p ∈ col_cells (size b) y ∨
      p ∈ block_cells (size_sqrt b) (x - x `mod` size_sqrt b) (y - y `mod` size_sqrt b)).
  { intros p Hp. by apply related_affected. }
  split_and!.
  - intros p. split.
    + intros H. split; [by apply Hin|]. apply Hrel; [by apply Hin|done].
    + intros [Hp Hr]. by apply Hrel.
  - apply elem_of_row_cells. simpl. lia.
  - apply elem_of_col_cells. simpl. lia.
  - apply elem_of_block_cells. rewrite !sub_mod_block. simpl.
    destruct Hwf as (Hg & _).
    pose proof (proj2 (div_block _ _ x Hg) eq_refl).
    pose proof (proj2 (div_block _ _ y Hg) eq_refl). lia.
  - apply NoDup_row_cells.
  - apply NoDup_col_cells.
  - apply NoDup_block_cells.
  - unfold row_cells. by rewrite length_map, length_seq.
  - unfold col_cells. by rewrite length_map, length_seq.
  - unfold block_cells. rewrite length_bind_pairs, !length_seq.
    destruct Hwf as (_ & -> & _). done.
Qed.

(** X4: for a cell (x, y) of a well-formed board the three sets of
    [get_affected_coordinates] together are exactly the cells of the board
    that share a row, a column or a subgrid with (x, y); (x, y) is in each
    of them, and each has [size] distinct cells. *)
Theorem X4_affected_coordinates b x y row col subgrid :
  wf_board b → (x < size b)%nat → (y < size b)%nat →
  get_affected_coordinates b x y = (row, col, subgrid) →
  (∀ p, p ∈ row ∨ p ∈ col ∨ p ∈ subgrid ↔
        in_range b p ∧ related (size_sqrt b) (x, y) p) ∧
  ((x, y) ∈ row ∧ (x, y) ∈ col ∧ (x, y) ∈ subgrid) ∧
  (NoDup row ∧ NoDup col ∧ NoDup subgrid) ∧
  (length row = size b ∧ length col = size b ∧ length subgrid = size b).
Proof. apply affected_coordinates_related. Qed.

Lemma X4_affected_coordinates_witness :
  (∀ p, p ∈ [(0, 0); (0, 1); (0, 2); (0, 3)]%nat ∨
        p ∈ [(0, 2); (1, 2); (2, 2); (3, 2)]%nat ∨
        p ∈ [(0, 2); (0, 3); (1, 2); (1, 3)]%nat ↔
        in_range board_A p ∧ related (size_sqrt board_A) (0%nat, 2%nat) p) ∧
  ((0, 2)%nat ∈ [(0, 0); (0, 1); (0, 2); (0, 3)]%nat ∧
   (0, 2)%nat ∈ [(0, 2); (1, 2); (2, 2); (3, 2)]%nat ∧
   (0, 2)%nat ∈ [(0, 2); (0, 3); (1, 2); (1, 3)]%nat) ∧
  (NoDup [(0, 0); (0, 1); (0, 2); (0, 3)]%nat ∧
   NoDup [(0, 2); (1, 2); (2, 2); (3, 2)]%nat ∧
   NoDup [(0, 2); (0, 3); (1, 2); (1, 3)]%nat) ∧
  (length [(0, 0); (0, 1); (0, 2); (0, 3)]%nat = size board_A ∧
   length [(0, 2); (1, 2); (2, 2); (3, 2)]%nat = size board_A ∧
   length [(0, 2); (0, 3); (1, 2); (1, 3)]%nat = size board_A).
Proof.
  apply (X4_affected_coordinates board_A 0 2 _ _ _ wf_board_A);
    [simpl; lia|simpl; lia|reflexivity].
Defined.

Lemma strike_strike val g1 g2 g3 (F : cell → option (gset Z)) p :
  strike val g3 (strike val g2 (strike val g1 F)) p =
  if decide (p ∈ g1 ∨ p ∈ g2 ∨ p ∈ g3)
  then (λ s, s ∖ {[val]}) <$> F p else F p.
Proof.
  unfold strike.
  destruct (decide (p ∈ g1)), (decide (p ∈ g2)), (decide (p ∈ g3));
    (rewrite decide_True by tauto) || (rewrite decide_False by tauto);
    try done; destruct (F p) as [s|]; simpl; try done; f_equal; set_solver.
Qed.

(** X5: [update_move_cache] for the move (x, y, v) only strikes [v]: the
    entry of a cell that shares a row, a column or a subgrid with (x, y)
    loses [v] and nothing else, every other entry is unchanged, and no key
    is added or removed; the one exception is the key (0, 0), which may
    get the empty dead-end mark.  Distinct keys stay distinct. *)
Theorem X5_update_move_cache_only_strikes b c x y v :
  wf_board b → (x < size b)%nat → (y < size b)%nat →
  (∀ p,
     dict_get (update_move_cache b c (x, y, v)) p =
       (if decide (in_range b p ∧ related (size_sqrt b) (x, y) p)
        then (λ s, s ∖ {[v]}) <$> dict_get c p else dict_get c p)
     ∨ (p = (0%nat, 0%nat) ∧
        dict_get (update_move_cache b c (x, y, v)) p = Some ∅)) ∧
  (dict_wf c → dict_wf (update_move_cache b c (x, y, v))).
Proof.
  intros Hwf Hx Hy. split; [|apply update_move_cache_wf].
  intros p.
  assert (Hf : follows c (dict_get c)) by (intros q; by left).
  pose proof (update_move_cache_follows b c _ x y v Hf p) as H.
  rewrite strike_strike in H.
  destruct (get_affected_coordinates b x y) as [[row col] subgrid] eqn:Hg.
  destruct (affected_coordinates_related b x y row col subgrid Hwf Hx Hy Hg) as (Hin & _).
  rewrite get_affected_coordinates_cells in Hg. injection Hg as <- <- <-.
  destruct H as [H|H]; [left|by right]. rewrite H.
  destruct (decide (in_range b p ∧ related (size_sqrt b) (x, y) p)) as [Hr|Hr].
  - rewrite decide_True; [done|]. by apply Hin.
  - rewrite decide_False; [done|]. by rewrite Hin.
Qed.

Lemma X5_update_move_cache_only_strikes_witness :
  (∀ p,
     dict_get (update_move_cache board_C (get_move_cache board_C) (3%nat, 2%nat, 1)) p =
       (if decide (in_range board_C p ∧ related (size_sqrt board_C) (3%nat, 2%nat) p)
        then (λ s, s ∖ {[1]}) <$> dict_get (get_move_cache board_C) p
        else dict_get (get_move_cache board_C) p)
     ∨ (p = (0%nat, 0%nat) ∧
        dict_get (update_move_cache board_C (get_move_cache board_C) (3%nat, 2%nat, 1)) p
        = Some ∅)) ∧
  (dict_wf (get_move_cache board_C) →
   dict_wf (update_move_cache board_C (get_move_cache board_C) (3%nat, 2%nat, 1))).
Proof.
  apply (X5_update_move_cache_only_strikes board_C (get_move_cache board_C) 3 2 1).
  - apply wf_mk_board_4; [reflexivity|]. repeat constructor.
  - simpl. lia.
  - simpl. lia.
Defined.

Lemma store_cell_Raise b x y v :
  wf_board b → ¬ (x < size b ∧ y < size b)%nat →
  store_cell b x y v = Raise IndexError.
Proof.
  intros Hwf Hn. unfold store_cell.
  destruct (decide _) as [[Hx Hy]|]; [|done]. exfalso. apply Hn.
  pose proof Hwf as (_ & _ & Hlen & _). rewrite Hlen in Hx.
  rewrite (wf_row_length b Hwf x Hx) in Hy. done.
Qed.

Lemma store_cell_Overflow b x y v :
  wf_board b → (x < size b)%nat → (y < size b)%nat → ¬ fits_int64 v →
  store_cell b x y v = Raise OverflowError.
Proof.
  intros Hwf Hx Hy Hv. unfold store_cell. rewrite decide_True.
  - by rewrite decide_False.
  - rewrite wf_row_length by done. destruct Hwf as (_ & _ & -> & _). done.
Qed.

(** X6: the outcomes of [apply_move((x, y, v))] on a well-formed board,
    for coordinates x, y ≥ 0.  It raises [IndexError] exactly when the
    cell is beyond the grid; [OverflowError] exactly when the cell is in
    the grid and the value does not fit a 64-bit cell; [KeyError] exactly
    when cell and value are fine and the board carries a cache without an
    entry for the cell (a cell the cache took to be filled); and it
    succeeds in the one case that is left. *)
Theorem X6_apply_move_outcomes b x y v :
  wf_board b →
  (apply_move b (x, y, v) = Raise IndexError ↔ ¬ (x < size b ∧ y < size b)%nat) ∧
  (apply_move b (x, y, v) = Raise OverflowError ↔
     (x < size b ∧ y < size b)%nat ∧ ¬ fits_int64 v) ∧
  (apply_move b (x, y, v) = Raise KeyError ↔
     (x < size b ∧ y < size b)%nat ∧ fits_int64 v ∧
     ∃ c, _move_cache b = Some c ∧ dict_get c (x, y) = None) ∧
  ((∃ b', apply_move b (x, y, v) = Ok b') ↔
     (x < size b ∧ y < size b)%nat ∧ fits_int64 v ∧ cache_tracks b (x, y)).
Proof.
  intros Hwf.
  destruct (decide (x < size b ∧ y < size b)%nat) as [[Hx Hy]|Hn].
  - destruct (decide (fits_int64 v)) as [Hv|Hv].
    + unfold apply_move, cache_tracks.
      rewrite (store_cell_Ok b x y v Hwf Hx Hy Hv).
      cbn [res_bind with_board _move_cache].
      destruct (_move_cache b) as [c|] eqn:Hc.
      * unfold dict_del. destruct (dict_get c (x, y)) as [s|] eqn:Hs; cbn [res_bind];
          naive_solver (eauto; lia).
      * naive_solver (eauto; lia).
    + unfold apply_move. rewrite (store_cell_Overflow b x y v Hwf Hx Hy Hv).
      cbn [res_bind]. naive_solver.
  - unfold apply_move. rewrite (store_cell_Raise b x y v Hwf Hn). cbn [res_bind].
    naive_solver.
Qed.

Lemma X6_apply_move_outcomes_witness :
  (apply_move board_A_cached (0%nat, 0%nat, 3) = Raise IndexError ↔
     ¬ (0 < size board_A_cached ∧ 0 < size board_A_cached)%nat) ∧
  (apply_move board_A_cached (0%nat, 0%nat, 3) = Raise OverflowError ↔
     (0 < size board_A_cached ∧ 0 < size board_A_cached)%nat ∧ ¬ fits_int64 3) ∧
  (apply_move board_A_cached (0%nat, 0%nat, 3) = Raise KeyError ↔
     (0 < size board_A_cached ∧ 0 < size board_A_cached)%nat ∧ fits_int64 3 ∧
     ∃ c, _move_cache board_A_cached = Some c ∧ dict_get c (0%nat, 0%nat) = None) ∧
  ((∃ b', apply_move board_A_cached (0%nat, 0%nat, 3) = Ok b') ↔
     (0 < size board_A_cached ∧ 0 < size board_A_cached)%nat ∧ fits_int64 3 ∧
     cache_tracks board_A_cached (0%nat, 0%nat)).
Proof. apply (X6_apply_move_outcomes board_A_cached 0 0 3 wf_board_A_cached). Defined.

(** X7: [undo_move((x, y, v))] on an in-range cell never fails; it
    empties the cell, whatever [v] is and whatever the cell held, leaves
    the other cells alone, and when the board carries a cache replaces it
    by a from-scratch [get_move_cache()] of the new board (creating none
    when there was none). *)
Theorem X7_undo_move_rebuilds b x y v :
  wf_board b → (x < size b)%nat → (y < size b)%nat →
  ∃ b', undo_move b (x, y, v) = Ok b' ∧
        cell_value b' (x, y) = EMPTY_SPACE ∧
        (∀ q, q ≠ (x, y) → cell_value b' q = cell_value b q) ∧
        _move_cache b' = (λ _, get_move_cache b') <$> _move_cache b.
Proof.
  intros Hwf Hx Hy.
  destruct (undo_move_Ok b x y v Hwf Hx Hy) as (b' & Hu & Hb & Hs & Hq & Hn & Hc).
  exists b'. split; [done|].
  assert (Hv : ∀ q, cell_value b' q =
                    if decide ((x, y) = q) then 0 else cell_value b q).
  { intros q. rewrite <- (cell_value_with_board b x y 0 q Hwf Hx Hy).
    unfold cell_value. by rewrite Hb. }
  split_and!.
  - rewrite Hv. by rewrite decide_True.
  - intros q Hq'. rewrite Hv. by rewrite decide_False.
  - destruct (_move_cache b) as [c|] eqn:Hcb; simpl.
    + rewrite (Hc c eq_refl). f_equal. by apply get_move_cache_ext.
    + by apply Hn.
Qed.


Lemma X7_undo_move_rebuilds_witness :
  ∃ b', undo_move board_A_cached (0%nat, 1%nat, 4) = Ok b' ∧
        cell_value b' (0%nat, 1%nat) = EMPTY_SPACE ∧
        (∀ q, q ≠ (0%nat, 1%nat) → cell_value b' q = cell_value board_A_cached q) ∧
        _move_cache b' = (λ _, get_move_cache b') <$> _move_cache board_A_cached.
Proof.
  apply (X7_undo_move_rebuilds board_A_cached 0 1 4 wf_board_A_cached); simpl; lia.
Defined.

Lemma filter_nil_Forall {A} (P : A → Prop) `{∀ x, Decision (P x)} (l : list A) :
  Forall (λ x, ¬ P x) l → filter P l = [].
Proof.
  induction 1 as [|x l Hx _ IH]; [done|]. by rewrite filter_cons_False.
Qed.

Lemma concat_map_nil {A B} (f : A → list B) (l : list A) :
  Forall (λ x, f x = []) l → concat (map f l) = [].
Proof. induction 1 as [|x l Hx _ IH]; [done|]. simpl. by rewrite Hx, IH. Qed.

(** Writing into an empty cell cannot repair a conflict. *)
Lemma legal_unplace b x y v :
  wf_board b → (x < size b)%nat → (y < size b)%nat →
  cell_value b (x, y) = 0 →
  legal (with_board b (grid_set (_board b) x y v)) → legal b.
Proof.
  intros Hwf Hx Hy He Hl p q Hp Hq Hne Hr Heq.
  destruct (decide ((x, y) = p)) as [<-|Hxp]; [done|].
  destruct (decide ((x, y) = q)) as [<-|Hxq]; [congruence|].
  pose proof (Hl p q Hp Hq Hne Hr) as H.
  rewrite !(cell_value_with_board b x y v) in H by done.
  rewrite !decide_False in H by done. by apply H.
Qed.

Lemma naive_cell_illegal b p :
  wf_board b → ¬ legal b → in_range b p → cell_value b p = EMPTY_SPACE →
  naive_cell b p = [].
Proof.
  intros Hwf Hl [Hx Hy] He. unfold naive_cell.
  rewrite filter_nil_Forall; [done|].
  apply Forall_forall. intros i _ Hi. apply Hl.
  apply (legal_unplace b p.1 p.2 (Z.of_nat i) Hwf Hx Hy).
  - destruct p. exact He.
  - apply is_legal_state_spec; [by apply with_board_wf|done].
Qed.

Lemma naive_illegal b : wf_board b → ¬ legal b → naive_get_legal_moves b = [].
Proof.
  intros Hwf Hl. rewrite naive_closed. destruct (decide _); [|done].
  apply concat_map_nil, Forall_forall. intros p Hp.
  apply elem_of_empty_cells in Hp as [Hp He]. by apply naive_cell_illegal.
Qed.

(** X8: on a well-formed board that [is_legal_state] rejects, Naive
    returns no move. *)
Theorem X8_naive_rejects_illegal_board b :
  wf_board b → is_legal_state b = false → naive_get_legal_moves b = [].
Proof.
  intros Hwf Hl. apply naive_illegal; [done|]. by apply is_legal_state_false.
Qed.

Lemma X8_naive_rejects_illegal_board_witness :
  naive_get_legal_moves board_illegal = [].
Proof.
  apply (X8_naive_rejects_illegal_board board_illegal).
  - apply wf_mk_board_4; [reflexivity|]. repeat constructor.
  - vm_compute. reflexivity.
Defined.

Lemma concat_Permutation {A} (l1 l2 : list (list A)) :
  l1 ≡ₚ l2 → concat l1 ≡ₚ concat l2.
Proof.
  induction 1 as [|x l1 l2 _ IH|x y l|l1 l2 l3 _ IH1 _ IH2]; simpl.
  - done.
  - by rewrite IH.
  - rewrite !(assoc (++)). f_equiv. apply Permutation_app_comm.
  - by etrans.
Qed.

Lemma group_moves_Permutation gs1 gs2 :
  gs1 ≡ₚ gs2 → group_moves gs1 ≡ₚ group_moves gs2.
Proof.
  intros H. unfold group_moves. apply concat_Permutation.
  by apply fmap_Permutation.
Qed.

Lemma NoDup_moves_of p s : NoDup (moves_of p s).
Proof.
  unfold moves_of. apply NoDup_fmap_2; [|apply NoDup_elements].
  intros v1 v2 [=]. done.
Qed.

Lemma NoDup_group_moves gs : NoDup gs.*1 → NoDup (group_moves gs).
Proof.
  induction gs as [|g gs IH]; [constructor|].
  rewrite fmap_cons, NoDup_cons. intros [Hg Hgs].
  rewrite group_moves_cons. apply NoDup_app. split_and!.
  - apply NoDup_moves_of.
  - intros m Hm Hm'. apply elem_of_moves_of in Hm as [Hm _].
    apply elem_of_group_moves in Hm' as (s & Hs & _).
    apply Hg. apply list_elem_of_fmap. exists ((m.1.1, m.1.2), s).
    split; [by rewrite Hm|done].
  - by apply IH.
Qed.

Lemma NoDup_naive_cell b p : NoDup (naive_cell b p).
Proof.
  unfold naive_cell. apply NoDup_fmap_2.
  - intros i j [= H]. lia.
  - apply NoDup_filter, NoDup_seq.
Qed.

Lemma elem_of_naive_cell_cell b p m : m ∈ naive_cell b p → (m.1.1, m.1.2) = p.
Proof.
  unfold naive_cell. intros (i & -> & _)%list_elem_of_fmap. by destruct p.
Qed.

Lemma NoDup_concat_naive b (ps : list cell) :
  NoDup ps → NoDup (concat (map (naive_cell b) ps)).
Proof.
  induction 1 as [|p ps Hp _ IH]; [constructor|]. simpl.
  apply NoDup_app. split_and!.
  - apply NoDup_naive_cell.
  - intros m Hm (q & Hq & Hm')%elem_of_concat_map.
    apply elem_of_naive_cell_cell in Hm, Hm'. congruence.
  - done.
Qed.

Lemma NoDup_get_legal_moves b version :
  (∀ c, _move_cache b = Some c → dict_wf c) →
  NoDup (get_legal_moves b version).1.
Proof.
  intros Hc.
  assert (Hs : ∀ d : pydict cell (gset Z), dict_wf d →
                NoDup (group_moves (sorted_desc by_size d))).
  { intros d Hd. apply NoDup_group_moves. unfold dict_wf in Hd.
    by rewrite (sorted_desc_Permutation by_size d). }
  destruct version; unfold get_legal_moves; cbn [fst].
  - rewrite naive_closed. destruct (decide _); [|constructor].
    apply NoDup_concat_naive, NoDup_empty_cells.
  - rewrite improved_closed by done. destruct (decide _); [|constructor].
    apply NoDup_group_moves. rewrite fresh_cache_keys. apply NoDup_empty_cells.
  - rewrite sorted_closed. destruct (decide _); [|constructor].
    apply Hs, fresh_cache_wf.
  - rewrite cached_closed. destruct (decide _); [|constructor].
    apply Hs. destruct (_move_cache b) as [c|]; simpl; [by apply Hc|].
    rewrite get_move_cache_fresh. apply fresh_cache_wf.
Qed.

(** X9: on every board the list of Sorted is a permutation of the list of
    Improved. *)
Theorem X9_sorted_permutes_improved b :
  improved_get_legal_moves b SORTED ≡ₚ improved_get_legal_moves b IMPROVED.
Proof.
  rewrite sorted_closed, improved_closed by done.
  destruct (decide _); [|done].
  apply group_moves_Permutation, sorted_desc_Permutation.
Qed.

(** X10: no strategy lists a move twice (for Cached, given that the keys
    of the cache dictionary are distinct). *)
Theorem X10_no_move_listed_twice b version :
  (∀ c, _move_cache b = Some c → dict_wf c) →
  NoDup (get_legal_moves b version).1.
Proof. apply NoDup_get_legal_moves. Qed.

Lemma X10_no_move_listed_twice_witness :
  NoDup (get_legal_moves board_A_cached STORE_LEGAL).1.
Proof.
  apply (X10_no_move_listed_twice board_A_cached STORE_LEGAL).
  intros c [= <-]. rewrite get_move_cache_fresh. apply fresh_cache_wf.
Defined.

(** X11: Cached builds the cache on first use and keeps it.  On a board
    without a cache it returns the very list Sorted returns and leaves the
    from-scratch cache on the board; a cache that is there is left as it
    is; the grid is not touched; and a second call returns what the first
    returned. *)
Theorem X11_cached_builds_cache_once b :
  (_move_cache b = None →
     (cache_get_legal_moves b).1 = improved_get_legal_moves b SORTED ∧
     _move_cache (cache_get_legal_moves b).2 = Some (get_move_cache b)) ∧
  (∀ c, _move_cache b = Some c →
     _move_cache (cache_get_legal_moves b).2 = Some c) ∧
  _board (cache_get_legal_moves b).2 = _board b ∧
  cache_get_legal_moves (cache_get_legal_moves b).2 = cache_get_legal_moves b.
Proof.
  split_and!.
  - intros Hn. split.
    + rewrite cached_closed, sorted_closed, Hn. simpl.
      by rewrite get_move_cache_fresh.
    + unfold cache_get_legal_moves. by rewrite Hn.
  - intros c Hc. unfold cache_get_legal_moves. by rewrite Hc.
  - done.
  - unfold cache_get_legal_moves. by destruct (_move_cache b).
Qed.

Lemma extends_refl b : extends b b.
Proof. by split_and!. Qed.

Lemma extends_same_grid b b' s : same_grid b b' → extends b s → extends b' s.
Proof.
  intros (Hs & Hq & Hb) (Es & Eq & Ev). split_and!; [congruence..|].
  intros p Hp Hv. unfold cell_value, in_range in *. rewrite <- Hb in *.
  rewrite <- Hs in Hp. by apply Ev.
Qed.

Lemma extends_legal b s : extends b s → legal s → legal b.
Proof.
  intros (Es & Eq & Ev) Hl p q Hp Hq Hne Hr Heq.
  destruct (decide (cell_value b p = 0)) as [|Hnz]; [done|]. exfalso.
  assert (Hnq : cell_value b q ≠ 0) by congruence.
  apply Hnz. rewrite <- (Ev p Hp Hnz).
  apply (Hl p q); unfold in_range in *; [lia|lia|done|by rewrite Eq|].
  rewrite (Ev p Hp Hnz), (Ev q Hq Hnq). done.
Qed.

(** The value a solution gives to an empty cell is one of its candidates. *)
Lemma solution_candidate b s p :
  wf_board b → extends b s → solved s →
  in_range b p → cell_value b p = EMPTY_SPACE →
  cell_value s p ∈ possible_values b p.1 p.2.
Proof.
  intros Hwf (Es & Eq & Ev) (Hwfs & Hl & Hv) [Hx Hy] He.
  apply possible_values_spec; [done..|].
  assert (Hps : in_range s p) by (unfold in_range; lia).
  split; [rewrite <- Es; by apply Hv|].
  intros q Hq Hr Heq.
  assert (Hqs : in_range s q) by (unfold in_range in *; lia).
  pose proof (Hv p Hps) as Hvp.
  assert (Hnz : cell_value b q ≠ EMPTY_SPACE) by (unfold EMPTY_SPACE; lia).
  assert (Hne : p ≠ q) by (intros ->; done).
  pose proof (Hl p q Hps Hqs Hne) as H.
  rewrite Eq in H. destruct p as [x y]. simpl in *.
  rewrite (Ev q Hq Hnz) in H. specialize (H Hr (eq_sym Heq)). lia.
Qed.

Lemma solution_move b s p version :
  wf_board b → cache_exact b → extends b s → solved s →
  in_range b p → cell_value b p = EMPTY_SPACE →
  (p.1, p.2, cell_value s p) ∈ (get_legal_moves b version).1.
Proof.
  intros Hwf Hc He Hs Hp Hv.
  apply strategy_moves; [done|by eapply extends_legal, Hs|done|].
  split.
  - apply Forall_fresh_cache. intros q Hq. simpl.
    apply elem_of_empty_cells in Hq as [Hq Hqv].
    pose proof (solution_candidate b s q Hwf He Hs Hq Hqv). set_solver.
  - apply elem_of_group_moves. exists (possible_values b p.1 p.2). simpl. split.
    + apply list_elem_of_fmap. exists p. split; [by destruct p|].
      by apply elem_of_empty_cells.
    + by apply solution_candidate.
Qed.

Lemma wf_board_D : wf_board board_D.
Proof. apply wf_mk_board_4; [done|]. repeat constructor. Qed.

Lemma wf_board_full : wf_board board_full.
Proof. apply wf_mk_board_4; [done|]. repeat constructor. Qed.

Lemma cells_4 (P : cell → Prop) :
  Forall P (all_cells 4) → ∀ p, (p.1 < 4 ∧ p.2 < 4)%nat → P p.
Proof.
  intros H p Hp. rewrite Forall_forall in H. apply H.
  by apply elem_of_all_cells.
Qed.

Lemma solved_board_full : solved board_full.
Proof.
  split_and!.
  - apply wf_board_full.
  - apply is_legal_state_spec; [apply wf_board_full|]. vm_compute. reflexivity.
  - apply (cells_4 (λ p, 1 ≤ cell_value board_full p ≤ 4)).
    repeat constructor; vm_compute; congruence.
Qed.

Lemma extends_board_D_full : extends board_D board_full.
Proof.
  split_and!; [done..|].
  apply (cells_4 (λ p, cell_value board_D p ≠ EMPTY_SPACE →
                       cell_value board_full p = cell_value board_D p)).
  repeat constructor; vm_compute; congruence.
Qed.

(** X12: no strategy prunes a solution.  If a solved board [s] keeps the
    filled cells of a well-formed board [b] (whose cache, if any, agrees
    with a rebuild), then for every empty cell of [b] the move that writes
    the value [s] has there is in the list of every strategy. *)
Theorem X12_no_strategy_prunes_a_solution b s p version :
  wf_board b → cache_exact b → extends b s → solved s →
  in_range b p → cell_value b p = EMPTY_SPACE →
  (p.1, p.2, cell_value s p) ∈ (get_legal_moves b version).1.
Proof. apply solution_move. Qed.

Lemma X12_no_strategy_prunes_a_solution_witness :
  (0%nat, 0%nat, 1) ∈ (get_legal_moves board_D NAIVE).1.
Proof.
  apply (X12_no_strategy_prunes_a_solution board_D board_full (0%nat, 0%nat) NAIVE
           wf_board_D).
  - intros c [=].
  - apply extends_board_D_full.
  - apply solved_board_full.
  - split; simpl; lia.
  - reflexivity.
Defined.

(** X13: what the strategies return on a well-formed legal board (whose
    cache, if any, agrees with a rebuild).  If some empty cell has no
    candidate the list is empty; otherwise the moves are exactly the
    triples (x, y, v) with (x, y) an empty cell of the board, v one of
    1 … size, and the board still legal once v is written into (x, y). *)
Theorem X13_moves_are_the_legal_placements b version x y v :
  wf_board b → legal b → cache_exact b →
  (x, y, v) ∈ (get_legal_moves b version).1 ↔
  (∀ p, in_range b p → cell_value b p = EMPTY_SPACE →
        get_move_cache_field b p ≠ ∅) ∧
  (x < size b)%nat ∧ (y < size b)%nat ∧ cell_value b (x, y) = EMPTY_SPACE ∧
  1 ≤ v ≤ Z.of_nat (size b) ∧
  legal (with_board b (grid_set (_board b) x y v)).
Proof.
  intros Hwf Hl Hc. rewrite strategy_moves by done.
  rewrite Forall_fresh_cache, elem_of_group_moves. simpl.
  assert (Hpl : (x < size b)%nat → (y < size b)%nat →
                cell_value b (x, y) = EMPTY_SPACE → 1 ≤ v ≤ Z.of_nat (size b) →
                legal (with_board b (grid_set (_board b) x y v)) ↔
                v ∈ possible_values b x y).
  { intros Hx Hy He Hv.
    rewrite <- (place_legal_candidate b Hwf x y v Hx Hy Hl He Hv).
    symmetry. apply is_legal_state_spec. by apply with_board_wf. }
  split.
  - intros (Hall & s & Hs & Hv).
    apply list_elem_of_fmap in Hs as (q & Heq & Hq).
    injection Heq as Heq1 Heq2. subst q s. simpl in Hv.
    apply elem_of_empty_cells in Hq as [[Hx Hy] He]. simpl in Hx, Hy.
    assert (1 ≤ v ≤ Z.of_nat (size b)).
    { by apply (possible_values_spec b Hwf x y v Hx Hy) in Hv as [? _]. }
    split; [|split; [done|split; [done|split; [done|split; [done|by apply Hpl]]]]].
    intros p Hp Hpe. apply (Hall p). by apply elem_of_empty_cells.
  - intros (Hall & Hx & Hy & He & Hv & Hlp). split.
    + intros p [Hp Hpe]%elem_of_empty_cells. by apply Hall.
    + exists (possible_values b x y). split; [|by apply Hpl].
      apply list_elem_of_fmap. exists (x, y). split; [done|].
      by apply elem_of_empty_cells.
Qed.


Lemma X13_moves_are_the_legal_placements_witness :
  (0%nat, 2%nat, 3) ∈ (get_legal_moves board_A SORTED).1 ↔
  (∀ p, in_range board_A p → cell_value board_A p = EMPTY_SPACE →
        get_move_cache_field board_A p ≠ ∅) ∧
  (0 < size board_A)%nat ∧ (2 < size board_A)%nat ∧
  cell_value board_A (0%nat, 2%nat) = EMPTY_SPACE ∧
  1 ≤ 3 ≤ Z.of_nat (size board_A) ∧
  legal (with_board board_A (grid_set (_board board_A) 0 2 3)).
Proof.
  apply (X13_moves_are_the_legal_placements board_A SORTED 0 2 3
           wf_board_A legal_board_A).
  intros c [=].
Defined.

Lemma wf_SudokuBoard_init n :
  (0 < n)%nat → Z.of_nat (n * n) < 2 ^ 63 → wf_board (SudokuBoard_init n).
Proof.
  intros Hn Hfit. split_and!; simpl; [done|done|by rewrite length_replicate| |done].
  apply Forall_replicate. by rewrite length_replicate.
Qed.

Lemma nth_replicate_or {A} (n i : nat) (x d : A) :
  nth i (replicate n x) d = if decide (i < n)%nat then x else d.
Proof.
  revert i. induction n as [|n IH]; intros [|i]; simpl; try done.
  rewrite IH. repeat case_decide; done || lia.
Qed.

Lemma cell_value_init n p : cell_value (SudokuBoard_init n) p = EMPTY_SPACE.
Proof.
  unfold cell_value, grid_get. simpl. rewrite nth_replicate_or.
  case_decide.
  - rewrite nth_replicate_or. by case_decide.
  - by destruct (p.2).
Qed.

Lemma legal_init n : legal (SudokuBoard_init n).
Proof. intros p q _ _ _ _ _. apply cell_value_init. Qed.

Lemma init_board_moves n version x y v :
  (0 < n)%nat → Z.of_nat (n * n) < 2 ^ 63 →
  (x, y, v) ∈ (get_legal_moves (SudokuBoard_init n) version).1 ↔
  (x < n * n ∧ y < n * n)%nat ∧ 1 ≤ v ≤ Z.of_nat (n * n).
Proof.
  intros Hn Hfit. pose proof (wf_SudokuBoard_init n Hn Hfit) as Hwf.
  assert (Hpv : ∀ p w, in_range (SudokuBoard_init n) p →
            w ∈ possible_values (SudokuBoard_init n) p.1 p.2 ↔
            1 ≤ w ≤ Z.of_nat (n * n)).
  { intros p w [Hx Hy]. rewrite (possible_values_spec _ Hwf _ _ _ Hx Hy).
    simpl. split; [tauto|]. intros Hw. split; [done|].
    intros q _ _. rewrite cell_value_init. unfold EMPTY_SPACE. lia. }
  rewrite strategy_moves; [|done|apply legal_init|by intros c [=]].
  rewrite Forall_fresh_cache, elem_of_group_moves. simpl. split.
  - intros (_ & s & Hs & Hv).
    apply list_elem_of_fmap in Hs as (q & Heq & Hq).
    injection Heq as Heq1 Heq2. subst q s.
    apply elem_of_empty_cells in Hq as [Hq _].
    split; [exact Hq|]. by apply (Hpv (x, y)).
  - intros [[Hx Hy] Hv]. split.
    + intros p [Hp _]%elem_of_empty_cells Hemp.
      assert (H1 : 1 ∈ possible_values (SudokuBoard_init n) p.1 p.2).
      { apply Hpv; [done|]. nia. }
      rewrite Hemp in H1. set_solver.
    + exists (possible_values (SudokuBoard_init n) x y). split.
      * apply list_elem_of_fmap. exists (x, y). split; [done|].
        apply elem_of_empty_cells. split; [done|]. apply cell_value_init.
      * by apply (Hpv (x, y)).
Qed.

(** X14: [SudokuBoard(n)] for n > 0 (with n² below 2^63, the limit of a
    dimension of a numpy array) is a well-formed n²×n² board of empty
    cells; it is legal and not complete, and every strategy returns on it
    every triple (x, y, v) with x, y < n² and 1 ≤ v ≤ n². *)
Theorem X14_new_board_is_empty n :
  (0 < n)%nat → Z.of_nat (n * n) < 2 ^ 63 →
  wf_board (SudokuBoard_init n) ∧
  (∀ p, cell_value (SudokuBoard_init n) p = EMPTY_SPACE) ∧
  is_legal_state (SudokuBoard_init n) = true ∧
  is_complete (SudokuBoard_init n) = Ok false ∧
  ∀ version x y v,
    (x, y, v) ∈ (get_legal_moves (SudokuBoard_init n) version).1 ↔
    (x < n * n ∧ y < n * n)%nat ∧ 1 ≤ v ≤ Z.of_nat (n * n).
Proof.
  intros Hn Hfit. pose proof (wf_SudokuBoard_init n Hn Hfit) as Hwf.
  split; [done|]. split_and!.
  - apply cell_value_init.
  - apply is_legal_state_spec; [done|apply legal_init].
  - unfold is_complete.
    rewrite (proj2 (existsb_empty_cell (SudokuBoard_init n))); [done|].
    exists (0%nat, 0%nat). split; [split; simpl; nia|apply cell_value_init].
  - intros. by apply init_board_moves.
Qed.

Lemma X14_new_board_is_empty_witness :
  wf_board (SudokuBoard_init 3) ∧
  (∀ p, cell_value (SudokuBoard_init 3) p = EMPTY_SPACE) ∧
  is_legal_state (SudokuBoard_init 3) = true ∧
  is_complete (SudokuBoard_init 3) = Ok false ∧
  ∀ version x y v,
    (x, y, v) ∈ (get_legal_moves (SudokuBoard_init 3) version).1 ↔
    (x < 3 * 3 ∧ y < 3 * 3)%nat ∧ 1 ≤ v ≤ Z.of_nat (3 * 3).
Proof. apply (X14_new_board_is_empty 3); [lia|simpl; lia]. Defined.

(** ** [get_first_legal_move] *)

Lemma first_legal_value_head b x y vals :
  first_legal_value b x y vals =
  head (filter (λ i, is_legal_state
                       (with_board b (grid_set (_board b) x y (Z.of_nat i))) = true)
               vals).
Proof.
  induction vals as [|i vals IH]; [done|]. simpl.
  destruct (is_legal_state _) eqn:E.
  - by rewrite filter_cons_True.
  - rewrite filter_cons_False; [done|]. by rewrite E.
Qed.

Lemma head_fmap {A B} (f : A → B) (l : list A) : head (f <$> l) = f <$> head l.
Proof. by destruct l. Qed.

Lemma first_legal_scan_head b cells :
  first_legal_scan b cells =
  (λ m : move, (m, with_board b (grid_set (_board b) m.1.1 m.1.2 m.2)))
    <$> head (concat (map (naive_cell b)
                          (filter (λ p, cell_value b p = EMPTY_SPACE) cells))).
Proof.
  induction cells as [|p cells IH]; [done|]. simpl.
  destruct (decide (grid_get (_board b) p.1 p.2 = EMPTY_SPACE)) as [He|He].
  - rewrite filter_cons_True by done. simpl. rewrite head_app.
    unfold naive_cell at 1. rewrite first_legal_value_head.
    change (map ?f ?l) with (f <$> l) at 1. rewrite head_fmap.
    destruct (head (filter _ (seq 1 (size b)))) as [i|]; simpl; [done|].
    apply IH.
  - rewrite filter_cons_False by done. apply IH.
Qed.

Lemma get_first_legal_move_head b :
  get_first_legal_move b =
  (λ m : move, (m, with_board b (grid_set (_board b) m.1.1 m.1.2 m.2)))
    <$> head (concat (map (naive_cell b) (empty_cells b))).
Proof. apply first_legal_scan_head. Qed.

Lemma head_concat_map {A B} (f : A → list B) (l : list A) (y : B) :
  head (concat (map f l)) = Some y →
  ∃ l1 x l2, l = l1 ++ x :: l2 ∧ Forall (λ x, f x = []) l1 ∧ head (f x) = Some y.
Proof.
  induction l as [|x l IH]; [done|]. simpl. rewrite head_app.
  destruct (head (f x)) as [z|] eqn:E.
  - intros [= ->]. exists [], x, l. by split_and!.
  - intros (l1 & x' & l2 & -> & Hl1 & Hx)%IH.
    exists (x :: l1), x', l2. split_and!; [done| |done].
    constructor; [|done]. by apply head_None.
Qed.

Lemma head_filter_seq (P : nat → Prop) `{∀ i, Decision (P i)} a n i :
  head (filter P (seq a n)) = Some i →
  P i ∧ (a ≤ i < a + n)%nat ∧ ∀ j, (a ≤ j < a + n)%nat → P j → (i ≤ j)%nat.
Proof.
  revert a. induction n as [|n IH]; intros a; [done|].
  simpl. destruct (decide (P a)) as [Ha|Ha].
  - rewrite filter_cons_True by done. intros [= <-].
    split_and!; [done|lia|lia|]. intros; lia.
  - rewrite filter_cons_False by done. intros (Hi & Hr & Hmin)%IH.
    split_and!; [done|lia|lia|]. intros j Hj Hpj.
    destruct (decide (j = a)) as [->|]; [done|]. apply Hmin; [lia|done].
Qed.

Lemma scan_before_row a c m :
  StronglySorted scan_before (y ← seq c m; [(a, y)]).
Proof.
  revert c. induction m as [|m IH]; intros c; [constructor|].
  simpl. constructor; [apply IH|].
  apply Forall_forall. intros q Hq.
  apply list_elem_of_bind in Hq as (y' & Hq & Hy').
  apply list_elem_of_singleton in Hq as ->.
  apply elem_of_seq in Hy'. right. simpl. lia.
Qed.

Lemma scan_before_rows n a k :
  StronglySorted scan_before (x ← seq a k; y ← seq 0 n; [(x, y)]).
Proof.
  revert a. induction k as [|k IH]; intros a; [constructor|].
  simpl. apply StronglySorted_app_2.
  - intros p q Hp Hq.
    apply list_elem_of_bind in Hp as (y & Hp & _).
    apply list_elem_of_bind in Hq as (x' & Hq & Hx').
    apply list_elem_of_bind in Hq as (y' & Hq & _).
    apply list_elem_of_singleton in Hp as ->.
    apply list_elem_of_singleton in Hq as ->.
    apply elem_of_seq in Hx'. left. simpl. lia.
  - apply scan_before_row.
  - apply IH.
Qed.

Lemma scan_before_all_cells n : StronglySorted scan_before (all_cells n).
Proof. apply scan_before_rows. Qed.

Lemma StronglySorted_filter {A} (R : relation A) (P : A → Prop)
    `{∀ x, Decision (P x)} (l : list A) :
  StronglySorted R l → StronglySorted R (filter P l).
Proof.
  induction 1 as [|x l Hl IH Hx]; [constructor|].
  destruct (decide (P x)).
  - rewrite filter_cons_True by done. constructor; [done|].
    apply Forall_forall. intros y [_ Hy]%list_elem_of_filter.
    rewrite Forall_forall in Hx. by apply Hx.
  - by rewrite filter_cons_False.
Qed.

Lemma get_first_legal_move_None b :
  wf_board b → legal b →
  get_first_legal_move b = None ↔
  ∀ p, in_range b p → cell_value b p = EMPTY_SPACE →
       get_move_cache_field b p = ∅.
Proof.
  intros Hwf Hl. rewrite get_first_legal_move_head, fmap_None, head_None.
  split.
  - intros Hnil p Hp He.
    apply (naive_cell_nil b p Hwf Hl Hp He).
    destruct (naive_cell b p) as [|m ms] eqn:E; [done|]. exfalso.
    assert (Hm : m ∈ concat (map (naive_cell b) (empty_cells b))).
    { apply elem_of_concat_map. exists p. split.
      - by apply elem_of_empty_cells.
      - rewrite E. left. }
    rewrite Hnil in Hm. by apply not_elem_of_nil in Hm.
  - intros Hall. apply concat_map_nil, Forall_forall.
    intros p [Hp He]%elem_of_empty_cells.
    apply (naive_cell_nil b p Hwf Hl Hp He). by apply Hall.
Qed.

Lemma get_first_legal_move_Some b x y v b' :
  wf_board b → legal b →
  get_first_legal_move b = Some ((x, y, v), b') →
  in_range b (x, y) ∧ cell_value b (x, y) = EMPTY_SPACE ∧
  v ∈ get_move_cache_field b (x, y) ∧
  (∀ w, w ∈ get_move_cache_field b (x, y) → v ≤ w) ∧
  (∀ p, in_range b p → cell_value b p = EMPTY_SPACE → scan_before p (x, y) →
        get_move_cache_field b p = ∅) ∧
  _board b' = grid_set (_board b) x y v ∧
  is_legal_state b' = true.
Proof.
  intros Hwf Hl. rewrite get_first_legal_move_head.
  destruct (head _) as [m|] eqn:Hhd; [|done]. simpl. intros [= -> <-]. simpl.
  apply head_concat_map in Hhd as (ps1 & p & ps2 & Hps & Hnil & Hm).
  assert (Hp : p ∈ empty_cells b) by (rewrite Hps; set_solver).
  apply elem_of_empty_cells in Hp as [Hp He].
  unfold naive_cell in Hm. change (map ?f ?l) with (f <$> l) in Hm.
  rewrite head_fmap in Hm.
  destruct (head (filter _ _)) as [i|] eqn:Hi; [|done].
  injection Hm as Hx Hy Hv. subst x y v.
  apply head_filter_seq in Hi as (Hleg & Hri & Hmin).
  assert (Hrange : 1 ≤ Z.of_nat i ≤ Z.of_nat (size b)) by lia.
  assert (He' : cell_value b (p.1, p.2) = 0) by (by destruct p).
  pose proof (place_legal_candidate b Hwf p.1 p.2 (Z.of_nat i)
                (proj1 Hp) (proj2 Hp) Hl He' Hrange) as Hcand.
  split_and!.
  - exact Hp.
  - exact He'.
  - by apply Hcand.
  - intros w Hw.
    pose proof (proj1 (possible_values_spec b Hwf p.1 p.2 w (proj1 Hp) (proj2 Hp)) Hw)
      as [Hwr _].
    assert (Hj : (i ≤ Z.to_nat w)%nat).
    { apply Hmin; [lia|].
      apply (place_legal_candidate b Hwf p.1 p.2 (Z.of_nat (Z.to_nat w))
               (proj1 Hp) (proj2 Hp) Hl He'); rewrite Z2Nat.id by lia; done. }
    lia.
  - intros q Hq Hqe Hbefore.
    assert (Hqin : q ∈ empty_cells b) by (by apply elem_of_empty_cells).
    assert (Hsorted : StronglySorted scan_before (empty_cells b)).
    { apply StronglySorted_filter, scan_before_all_cells. }
    rewrite Hps in Hqin, Hsorted.
    apply StronglySorted_app in Hsorted as (_ & _ & Hs2).
    apply StronglySorted_cons in Hs2 as [Hs2 _]. rewrite Forall_forall in Hs2.
    apply elem_of_app in Hqin as [Hq1|Hq2].
    + rewrite Forall_forall in Hnil.
      by apply (naive_cell_nil b q Hwf Hl Hq Hqe), Hnil.
    + exfalso. apply elem_of_cons in Hq2 as [->|Hq2].
      * unfold scan_before in Hbefore. simpl in Hbefore. lia.
      * specialize (Hs2 q Hq2). unfold scan_before in *. simpl in *. lia.
  - done.
  - exact Hleg.
Qed.

(** X15: [get_first_legal_move] on a well-formed legal board.  It raises
    exactly when no empty cell has a candidate (so also on a full board).
    Otherwise it returns (x, y, v) where (x, y) is the first empty cell in
    scanning order that has a candidate and v is the least candidate of
    that cell; and it leaves the board with v written into (x, y), a board
    that passes [is_legal_state]. *)
Theorem X15_get_first_legal_move b :
  wf_board b → legal b →
  (get_first_legal_move b = None ↔
     ∀ p, in_range b p → cell_value b p = EMPTY_SPACE →
          get_move_cache_field b p = ∅) ∧
  (∀ x y v b', get_first_legal_move b = Some ((x, y, v), b') →
     in_range b (x, y) ∧ cell_value b (x, y) = EMPTY_SPACE ∧
     v ∈ get_move_cache_field b (x, y) ∧
     (∀ w, w ∈ get_move_cache_field b (x, y) → v ≤ w) ∧
     (∀ p, in_range b p → cell_value b p = EMPTY_SPACE → scan_before p (x, y) →
           get_move_cache_field b p = ∅) ∧
     _board b' = grid_set (_board b) x y v ∧
     is_legal_state b' = true).
Proof.
  intros Hwf Hl. split.
  - by apply get_first_legal_move_None.
  - intros x y v b'. by apply get_first_legal_move_Some.
Qed.

Lemma legal_board_D : legal board_D.
Proof. apply is_legal_state_spec; [apply wf_board_D|]. vm_compute. reflexivity. Qed.

Lemma X15_get_first_legal_move_witness :
  (get_first_legal_move board_D = None ↔
     ∀ p, in_range board_D p → cell_value board_D p = EMPTY_SPACE →
          get_move_cache_field board_D p = ∅) ∧
  (∀ x y v b', get_first_legal_move board_D = Some ((x, y, v), b') →
     in_range board_D (x, y) ∧ cell_value board_D (x, y) = EMPTY_SPACE ∧
     v ∈ get_move_cache_field board_D (x, y) ∧
     (∀ w, w ∈ get_move_cache_field board_D (x, y) → v ≤ w) ∧
     (∀ p, in_range board_D p → cell_value board_D p = EMPTY_SPACE →
           scan_before p (x, y) → get_move_cache_field board_D p = ∅) ∧
     _board b' = grid_set (_board board_D) x y v ∧
     is_legal_state b' = true).
Proof. apply (X15_get_first_legal_move board_D wf_board_D legal_board_D). Defined.

(** X16: whenever Naive returns a nonempty list, [get_first_legal_move]
    returns its first move. *)
Theorem X16_first_legal_move_is_naive_head b m ms :
  naive_get_legal_moves b = m :: ms →
  fst <$> get_first_legal_move b = Some m.
Proof.
  rewrite naive_closed, get_first_legal_move_head.
  destruct (decide _); [|done]. intros ->. done.
Qed.

Lemma X16_first_legal_move_is_naive_head_witness :
  fst <$> get_first_legal_move board_D = Some (0%nat, 0%nat, 1).
Proof.
  apply (X16_first_legal_move_is_naive_head board_D (0%nat, 0%nat, 1)
           [(1%nat, 1%nat, 4); (2%nat, 2%nat, 4)]).
  vm_compute. reflexivity.
Defined.

(** ** [get_row] *)

(** X21: what [get_row(row)] does for every argument.  It raises exactly
    when [row] is not an integer in [0, size), a truth value counting as
    the integer 1 or 0.  On a well-formed board, for an integer in that
    range, it returns row [row] of the transposed array [self._board.T],
    that is, the column of that index; for a truth value in that range it
    returns no cells but one array per row of the board, which holds that
    row for [True] and nothing for [False]. *)
Theorem X21_get_row_is_transposed_row b :
  wf_board b →
  (∀ row, get_row b row = Raise InvalidRow ↔
          ∀ r, int_value row = Some r → ¬ (0 ≤ r < Z.of_nat (size b))) ∧
  (∀ r, 0 ≤ r < Z.of_nat (size b) →
        get_row b (PyInt r) = Ok (Scalar <$> nth (Z.to_nat r) (np_T (_board b)) []) ∧
        get_row b (PyInt r) =
          Ok (map (λ x, Scalar (cell_value b (x, Z.to_nat r))) (seq 0 (size b)))) ∧
  (∀ t, Z.b2z t < Z.of_nat (size b) →
        ∃ items, get_row b (PyBool t) = Ok items ∧
                 length items = size b ∧
                 ∀ x, (x < size b)%nat →
                      items !! x = Some (Array (if t then [nth x (_board b) []] else []))).
Proof.
  intros Hwf. split_and!.
  - intros row. apply get_row_raises_iff.
  - intros r Hr. split; [by apply get_row_column|].
    unfold get_row. rewrite bool_decide_eq_false_2 by lia. done.
  - intros t Ht. eexists. split.
    + unfold get_row. rewrite bool_decide_eq_false_2 by lia. reflexivity.
    + split; [by rewrite length_map, length_seq|].
      intros x Hx. rewrite list_lookup_fmap, lookup_seq_lt by done. done.
Qed.

Lemma X21_get_row_is_transposed_row_witness :
  (∀ row, get_row board_B row = Raise InvalidRow ↔
          ∀ r, int_value row = Some r → ¬ (0 ≤ r < Z.of_nat (size board_B))) ∧
  (∀ r, 0 ≤ r < Z.of_nat (size board_B) →
        get_row board_B (PyInt r)
          = Ok (Scalar <$> nth (Z.to_nat r) (np_T (_board board_B)) []) ∧
        get_row board_B (PyInt r) =
          Ok (map (λ x, Scalar (cell_value board_B (x, Z.to_nat r)))
                  (seq 0 (size board_B)))) ∧
  (∀ t, Z.b2z t < Z.of_nat (size board_B) →
        ∃ items, get_row board_B (PyBool t) = Ok items ∧
                 length items = size board_B ∧
                 ∀ x, (x < size board_B)%nat →
                      items !! x
                      = Some (Array (if t then [nth x (_board board_B) []] else []))).
Proof. apply (X21_get_row_is_transposed_row board_B wf_board_B). Defined.

(** ** [remove_random_number] *)

Lemma legal_emptied b x y :
  wf_board b → (x < size b)%nat → (y < size b)%nat →
  legal b → legal (with_board b (grid_set (_board b) x y 0)).
Proof.
  intros Hwf Hx Hy Hl p q Hp Hq Hne Hr.
  rewrite !(cell_value_with_board b x y 0) by done.
  destruct (decide ((x, y) = p)) as [|Hxp]; [done|].
  destruct (decide ((x, y) = q)) as [|Hxq]; [done|].
  by apply Hl.
Qed.

Lemma empty_cells_emptied b x y :
  wf_board b → (x < size b)%nat → (y < size b)%nat → cell_value b (x, y) ≠ 0 →
  length (empty_cells (with_board b (grid_set (_board b) x y 0)))
  = S (length (empty_cells b)).
Proof.
  intros Hwf Hx Hy Hv.
  change (S (length (empty_cells b))) with (length ((x, y) :: empty_cells b)).
  apply Permutation_length, NoDup_Permutation.
  - apply NoDup_empty_cells.
  - apply NoDup_cons. split; [|apply NoDup_empty_cells].
    rewrite elem_of_empty_cells. by intros [_ ?].
  - intros p. rewrite elem_of_cons, !elem_of_empty_cells.
    rewrite cell_value_with_board by done.
    change (in_range (with_board b (grid_set (_board b) x y 0)) p) with (in_range b p).
    destruct (decide ((x, y) = p)) as [<-|Hne].
    + split; [by left|]. intros _. split; [by split|done].
    + split; [by right|]. intros [?|?]; [congruence|done].
Qed.

Lemma remove_random_number_spec draws b :
  wf_board b → Forall (in_range b) draws →
  match remove_random_number draws b with
  | None => Forall (λ p, cell_value b p = EMPTY_SPACE) draws
  | Some b' =>
      ∃ p, p ∈ draws ∧ cell_value b p ≠ EMPTY_SPACE ∧
           cell_value b' p = EMPTY_SPACE ∧
           (∀ q, q ≠ p → cell_value b' q = cell_value b q) ∧
           length (empty_cells b') = S (length (empty_cells b)) ∧
           (legal b → legal b') ∧
           _move_cache b' = _move_cache b
  end.
Proof.
  intros Hwf. induction 1 as [|[x y] draws [Hx Hy] Hdraws IH]; [constructor|].
  cbn [remove_random_number]. simpl in Hx, Hy.
  destruct (decide (grid_get (_board b) x y ≠ 0)) as [Hv|Hv].
  - exists (x, y). split_and!.
    + left.
    + exact Hv.
    + rewrite cell_value_with_board by done. by rewrite decide_True.
    + intros q Hq. rewrite cell_value_with_board by done.
      by rewrite decide_False by congruence.
    + by apply empty_cells_emptied.
    + by apply legal_emptied.
    + done.
  - destruct (remove_random_number draws b) as [b'|].
    + destruct IH as (p & Hp & ?). exists p. split; [by right|done].
    + constructor; [|done]. unfold cell_value. simpl.
      destruct (decide (grid_get (_board b) x y = 0)); [done|]. by destruct Hv.
Qed.

(** X25: [remove_random_number] with the cells its random draws deliver,
    all in range, on a well-formed board.  When it returns, exactly one
    cell has been emptied, a drawn cell that was filled: the other cells
    are as before, the board has one empty cell more, a legal board stays
    legal, and the cache (if any) is left as it was, not updated.  As long
    as the draws hit only empty cells it does not return; on a board
    without a filled cell it therefore never returns, whatever is drawn. *)
Theorem X25_remove_random_number draws b :
  wf_board b → Forall (in_range b) draws →
  match remove_random_number draws b with
  | None => Forall (λ p, cell_value b p = EMPTY_SPACE) draws
  | Some b' =>
      (∃ p, in_range b p ∧ cell_value b p ≠ EMPTY_SPACE) ∧
      ∃ p, p ∈ draws ∧ cell_value b p ≠ EMPTY_SPACE ∧
           cell_value b' p = EMPTY_SPACE ∧
           (∀ q, q ≠ p → cell_value b' q = cell_value b q) ∧
           length (empty_cells b') = S (length (empty_cells b)) ∧
           (legal b → legal b') ∧
           _move_cache b' = _move_cache b
  end.
Proof.
  intros Hwf Hdraws. pose proof (remove_random_number_spec draws b Hwf Hdraws) as H.
  destruct (remove_random_number draws b) as [b'|]; [|done].
  split; [|done]. destruct H as (p & Hp & Hv & _). exists p. split; [|done].
  rewrite Forall_forall in Hdraws. by apply Hdraws.
Qed.

Lemma X25_remove_random_number_witness :
  match remove_random_number [(0, 0); (1, 1); (0, 1); (3, 3)]%nat board_D with
  | None => Forall (λ p, cell_value board_D p = EMPTY_SPACE)
                   [(0, 0); (1, 1); (0, 1); (3, 3)]%nat
  | Some b' =>
      (∃ p, in_range board_D p ∧ cell_value board_D p ≠ EMPTY_SPACE) ∧
      ∃ p, p ∈ [(0, 0); (1, 1); (0, 1); (3, 3)]%nat ∧
           cell_value board_D p ≠ EMPTY_SPACE ∧
           cell_value b' p = EMPTY_SPACE ∧
           (∀ q, q ≠ p → cell_value b' q = cell_value board_D q) ∧
           length (empty_cells b') = S (length (empty_cells board_D)) ∧
           (legal board_D → legal b') ∧
           _move_cache b' = _move_cache board_D
  end.
Proof.
  apply (X25_remove_random_number [(0, 0); (1, 1); (0, 1); (3, 3)]%nat board_D wf_board_D).
  repeat constructor; simpl; lia.
Defined.

(** * Further properties of the search drivers (dfs.py) *)

(** ** Invariants of the search that moves preserve *)

Section search_invariant.
Variable md5 : list Z → Z.
Variable Q : SudokuBoard → Prop.
Hypothesis Q_ext : ∀ s s', same_grid s s' → Q s → Q s'.
Hypothesis Q_move : ∀ s m s',
  good s → Q s → move_ok s m → apply_move s m = Ok s' → Q s'.

Lemma push_moves_inv s moves : ∀ d queue d' queue',
  good s → Q s → Forall (move_ok s) moves → Forall Q queue →
  push_moves s moves d queue = Ok (d', queue') → Forall Q queue'.
Proof.
  induction moves as [|m moves IH]; intros d queue d' queue' Hs HQ Hm Hq.
  - by intros [= <- <-].
  - apply Forall_cons in Hm as [Hm Hms]. cbn [push_moves].
    destruct (apply_move s m) as [s1|e] eqn:Ha; [|done]. cbn [res_bind].
    apply IH; try done. constructor; [|done]. by eapply Q_move.
Qed.

Lemma solve_iteration_inv version d queue :
  Forall good queue → Forall Q queue →
  match solve_iteration md5 version d queue with
  | Ok (Continue d' queue') => Forall Q queue'
  | Ok (Return d' s) => Q s ∧ is_complete s = Ok true
  | Raise e => True
  end.
Proof.
  intros Hg Hq. destruct queue as [|s queue]; [done|].
  apply Forall_cons in Hg as [Hs Hg]. apply Forall_cons in Hq as [HQs Hq].
  cbn [solve_iteration]. destruct (decide _); [done|].
  destruct (is_complete s) as [[|]|e] eqn:Hc; cbn [res_bind]; [done| |done].
  pose proof (get_legal_moves_good s version Hs) as (Hs' & Hsg & Hmoves).
  destruct (get_legal_moves s version) as [moves s'] eqn:Hglm. cbn [fst snd] in *.
  destruct (push_moves s' moves _ queue) as [[d' queue']|e] eqn:Hp;
    cbn [res_bind fst snd]; [|done].
  eapply (push_moves_inv s' moves); [exact Hs'|by eapply Q_ext| |exact Hq|exact Hp].
  eapply Forall_impl; [exact Hmoves|]. intros m. by apply move_ok_ext.
Qed.

Lemma solve_loop_inv fuel version : ∀ d queue d' s,
  Forall good queue → Forall good (visit_log d) → Forall Q queue →
  solve_loop md5 fuel version d queue = Returned d' s →
  Q s ∧ is_complete s = Ok true.
Proof.
  induction fuel as [|fuel IH]; intros d queue d' s Hg Hlog Hq; cbn [solve_loop]; [done|].
  pose proof (solve_iteration_good md5 version d queue Hg Hlog) as Hit.
  pose proof (solve_iteration_inv version d queue Hg Hq) as Hinv.
  destruct (solve_iteration md5 version d queue) as [[d1 queue1|d1 s1]|e].
  - destruct Hit as [Hg1 Hl1]. apply IH; [exact Hg1|exact Hl1|exact Hinv].
  - by intros [= <- <-].
  - done.
Qed.

Lemma solve_recursive_loop_inv rec fuel b :
  (∀ s d, good s → (length (empty_cells s) < fuel)%nat → Forall good (visit_log d) →
     ∃ r s' d', rec s d = Some (Ok (r, s', d')) ∧ good s' ∧
                Forall good (visit_log d') ∧
                (s :: visit_log d) `suffix_of` visit_log d' ∧
                (if r : bool then is_complete s' = Ok true else same_grid s s')) →
  (∀ s d r s' d', good s → Q s → (length (empty_cells s) < fuel)%nat →
     Forall good (visit_log d) → rec s d = Some (Ok (r, s', d')) → Q s') →
  (length (empty_cells b) ≤ fuel)%nat →
  ∀ moves s d r s' d',
    Forall (move_ok b) moves → good s → Q s → same_grid b s →
    Forall good (visit_log d) →
    solve_recursive_loop rec moves s d = Some (Ok (r, s', d')) → Q s'.
Proof.
  intros Hrec HrecQ Hfuel moves.
  induction moves as [|m moves IH]; intros s d r s' d' Hmoves Hs HQ Hsg Hlog.
  - by intros [= <- <- <-].
  - apply Forall_cons in Hmoves as [Hm Hmoves]. cbn [solve_recursive_loop].
    pose proof (move_ok_ext b s m Hsg Hm) as Hms.
    destruct (apply_move_good s m Hs Hms) as (s1 & Ha & Hs1 & Hsz1 & Hsq1 & Hg1 & _).
    rewrite Ha.
    assert (HQ1 : Q s1) by exact (Q_move s m s1 Hs HQ Hms Ha).
    assert (Hv0 : m.2 ≠ EMPTY_SPACE).
    { destruct Hms as (Hx & Hy & _ & Hv).
      apply (possible_values_spec s (proj1 Hs) _ _ _ Hx Hy) in Hv as [? _].
      unfold EMPTY_SPACE. lia. }
    pose proof (empty_cells_after_move s s1 m (proj1 Hs) Hms Hv0 Hsz1 Hg1) as Hlen.
    rewrite <- (empty_cells_ext b s Hsg) in Hlen.
    destruct (Hrec s1 (count_branch d) Hs1)
      as (r1 & s2 & d2 & Hr1 & Hs2 & Hlog2 & Hsuf & Hr); [lia|done|].
    rewrite Hr1.
    assert (HQ2 : Q s2).
    { eapply (HrecQ s1 (count_branch d)); [done|done|lia|done|exact Hr1]. }
    destruct (is_complete_legal s2) as [c Hc]; [apply Hs2..|]. rewrite Hc.
    destruct c.
    + by intros [= <- <- <-].
    + destruct r1; [congruence|].
      destruct (undo_move_good s s2 m Hs) as (s3 & -> & Hs3 & Hsg3); [apply Hs2| | | |done|].
      * destruct Hr as (<- & _ & _). done.
      * destruct Hr as (_ & <- & _). done.
      * destruct Hr as (_ & _ & <-). done.
      * apply IH; [done|done|by eapply Q_ext|by eapply same_grid_trans|done].
Qed.

End search_invariant.

Lemma keeps_clues_ext b0 s s' :
  same_grid s s' → keeps_clues b0 s → keeps_clues b0 s'.
Proof.
  intros Hsg (Hwf & (Es & Eq & Ev) & Hr).
  pose proof Hsg as (Hsz & Hsq & Hb). split_and!.
  - by eapply wf_same_grid.
  - split_and!; [congruence..|]. intros p Hp Hv. unfold cell_value.
    rewrite <- Hb. by apply Ev.
  - intros H0 p Hp. unfold cell_value, in_range in *. rewrite <- Hb, <- Hsz in *.
    by apply (Hr H0).
Qed.

Lemma keeps_clues_move b0 s m s' :
  good s → keeps_clues b0 s → move_ok s m → apply_move s m = Ok s' →
  keeps_clues b0 s'.
Proof.
  intros Hs (_ & (Es & Eq & Ev) & Hr) Hm Ha.
  destruct (apply_move_good s m Hs Hm) as (s1 & Ha1 & Hs1 & Hsz & Hsq & Hb & _).
  rewrite Ha in Ha1. injection Ha1 as <-.
  destruct Hm as (Hx & Hy & He & Hv).
  assert (Hcv : ∀ p, cell_value s' p =
                     if decide ((m.1.1, m.1.2) = p) then m.2 else cell_value s p).
  { intros p. rewrite <- (cell_value_with_board s _ _ _ p (proj1 Hs) Hx Hy).
    unfold cell_value. by rewrite Hb. }
  split_and!.
  - apply Hs1.
  - split_and!; [congruence..|]. intros p Hp Hnz. rewrite Hcv.
    destruct (decide _) as [<-|]; [|by apply Ev].
    rewrite <- (Ev _ Hp Hnz) in Hnz. done.
  - intros H0 p Hp. rewrite Hcv, Hsz. destruct (decide _) as [<-|].
    + apply (possible_values_spec s (proj1 Hs) _ _ _ Hx Hy) in Hv as [? _]. lia.
    + apply (Hr H0). unfold in_range in *. by rewrite <- Hsz.
Qed.

Lemma keeps_clues_refl b : wf_board b → keeps_clues b b.
Proof. intros Hwf. split_and!; [done|apply extends_refl|done]. Qed.

Lemma complete_solved s :
  wf_board s → clues_in_range s → is_complete s = Ok true → solved s.
Proof.
  intros Hwf Hr Hc. split_and!; [done| |].
  - unfold is_complete in Hc. destruct (existsb _ _); [done|].
    destruct (is_legal_state s) eqn:Hl; [|done]. by apply is_legal_state_spec.
  - intros p Hp. pose proof (Hr p Hp) as Hv.
    assert (cell_value s p ≠ 0); [|lia]. intros Hz.
    unfold is_complete in Hc.
    rewrite (proj2 (existsb_empty_cell s)) in Hc; [done|]. by exists p.
Qed.

Lemma good_of_checked b :
  wf_board b → is_legal_state b = true → cache_sound b → good b.
Proof. intros Hwf Hl Hc. split_and!; [done| |done]. by apply is_legal_state_spec. Qed.

Lemma solve_sound (md5 : list Z → Z) version fuel d d' s :
  good (state d) →
  solve md5 fuel version d = Returned d' s →
  is_complete s = Ok true ∧ extends (state d) s ∧
  (clues_in_range (state d) → solved s).
Proof.
  intros Hg Hrun. unfold solve in Hrun.
  assert (Hgq : Forall good [state (reset_stats d)]) by (by constructor).
  assert (Hlog : Forall good (visit_log (reset_stats d))) by constructor.
  assert (HQ : Forall (keeps_clues (state d)) [state (reset_stats d)]).
  { constructor; [|constructor]. apply keeps_clues_refl, Hg. }
  destruct (solve_loop_inv md5 (keeps_clues (state d))
              (keeps_clues_ext (state d)) (keeps_clues_move (state d))
              fuel version _ _ d' s Hgq Hlog HQ Hrun) as [(Hwf & He & Hr) Hc].
  split_and!; [done..|]. intros H0. apply complete_solved; [done|by apply Hr|done].
Qed.

(** ** Termination of [solve] *)

Lemma length_all_moves n : length (all_moves n) = (n * n * n)%nat.
Proof.
  unfold all_moves.
  rewrite (length_bind_pairs (λ (p : cell) (v : nat), (p.1, p.2, Z.of_nat v))).
  unfold all_cells. by rewrite length_bind_pairs, !length_seq.
Qed.

Lemma move_ok_all_moves b m : wf_board b → move_ok b m → m ∈ all_moves (size b).
Proof.
  intros Hwf (Hx & Hy & _ & Hv).
  apply (possible_values_spec b Hwf _ _ _ Hx Hy) in Hv as [Hv _].
  destruct m as [[x y] v]. simpl in *. unfold all_moves.
  apply list_elem_of_bind. exists (x, y). split; [|by apply elem_of_all_cells].
  apply list_elem_of_bind. exists (Z.to_nat v). split; [|apply elem_of_seq; lia].
  simpl. rewrite Z2Nat.id by lia. apply list_elem_of_singleton. done.
Qed.

Lemma length_get_legal_moves b version :
  good b →
  (length (get_legal_moves b version).1 ≤ size b * size b * size b)%nat.
Proof.
  intros Hb. rewrite <- length_all_moves.
  apply submseteq_length, NoDup_submseteq.
  - apply NoDup_get_legal_moves. intros c Hc. by apply (proj2 (proj2 Hb)).
  - intros m Hm. apply move_ok_all_moves; [apply Hb|].
    pose proof (get_legal_moves_good b version Hb) as (_ & _ & Hall).
    rewrite Forall_forall in Hall. by apply Hall.
Qed.

Lemma solve_bound_pos width k : (0 < solve_bound width k)%nat.
Proof. destruct k; simpl; lia. Qed.

Lemma push_moves_weight width s k moves : ∀ d queue,
  good s → length (empty_cells s) = S k → Forall (move_ok s) moves →
  Forall (λ t, good t ∧ size t = size s) queue →
  ∃ d' queue', push_moves s moves d queue = Ok (d', queue') ∧
    Forall (λ t, good t ∧ size t = size s) queue' ∧
    queue_weight width queue' =
      (length moves * solve_bound width k + queue_weight width queue)%nat.
Proof.
  intros d queue Hs Hk Hmoves. revert d queue.
  induction Hmoves as [|m moves Hm Hmoves IH]; intros d queue Hq.
  - exists d, queue. split_and!; [done|done|simpl; lia].
  - cbn [push_moves].
    destruct (apply_move_good s m Hs Hm) as (s1 & -> & Hs1 & Hsz & _ & Hb & _).
    cbn [res_bind].
    assert (Hv0 : m.2 ≠ EMPTY_SPACE).
    { destruct Hm as (Hx & Hy & _ & Hv).
      apply (possible_values_spec s (proj1 Hs) _ _ _ Hx Hy) in Hv as [? _].
      unfold EMPTY_SPACE. lia. }
    pose proof (empty_cells_after_move s s1 m (proj1 Hs) Hm Hv0 Hsz Hb) as Hlen.
    destruct (IH (count_branch d) (s1 :: queue)) as (d' & queue' & -> & Hq' & Hw).
    { by constructor. }
    exists d', queue'. split_and!; [done|done|].
    rewrite Hw. unfold queue_weight. simpl.
    assert (length (empty_cells s1) = k) as -> by lia. lia.
Qed.

Lemma solve_loop_terminates (md5 : list Z → Z) n version : ∀ fuel d queue,
  Forall (λ s, good s ∧ size s = n) queue →
  (queue_weight (n * n * n) queue < fuel)%nat →
  ∀ d' queue', solve_loop md5 fuel version d queue ≠ Running d' queue'.
Proof.
  induction fuel as [|fuel IH]; intros d queue Hq Hw; [lia|].
  cbn [solve_loop]. destruct queue as [|s queue]; [done|].
  apply Forall_cons in Hq as [[Hs Hn] Hq].
  unfold queue_weight in Hw. simpl in Hw. fold (queue_weight (n * n * n) queue) in Hw.
  pose proof (solve_bound_pos (n * n * n) (length (empty_cells s))) as Hpos.
  cbn [solve_iteration]. destruct (decide _).
  { apply IH; [done|lia]. }
  destruct (is_complete s) as [[|]|e] eqn:Hc; cbn [res_bind]; [done| |done].
  pose proof (get_legal_moves_good s version Hs) as (Hs' & Hsg & Hmoves).
  pose proof (length_get_legal_moves s version Hs) as Hlen.
  destruct (get_legal_moves s version) as [moves s'] eqn:Hglm. cbn [fst snd] in *.
  assert (He : ∃ k, length (empty_cells s) = S k).
  { unfold is_complete in Hc.
    destruct (existsb _ _) eqn:Hex; [|by destruct (is_legal_state s)].
    apply existsb_empty_cell in Hex as (q & Hq1 & Hq2).
    assert (Hin : q ∈ empty_cells s) by (by apply elem_of_empty_cells).
    destruct (empty_cells s); [by apply not_elem_of_nil in Hin|]. by eexists. }
  destruct He as [k Hk].
  pose proof Hsg as (Hsz & _ & _).
  destruct (push_moves_weight (n * n * n) s' k moves
              (mark_expanded md5 s (log_visit s d)) queue)
    as (d1 & queue1 & -> & Hq1 & Hw1).
  - done.
  - by rewrite <- (empty_cells_ext s s' Hsg).
  - eapply Forall_impl; [exact Hmoves|]. intros m. by apply move_ok_ext.
  - eapply Forall_impl; [exact Hq|]. intros t [? ?]. split; [done|congruence].
  - cbn [res_bind fst snd]. apply IH.
    + eapply Forall_impl; [exact Hq1|]. intros t [? ?]. split; [done|congruence].
    + rewrite Hw1. rewrite Hk in Hw. simpl in Hw. rewrite Hn in Hlen. nia.
Qed.

Lemma solve_terminates (md5 : list Z → Z) version fuel d :
  good (state d) → (solve_fuel (state d) ≤ fuel)%nat →
  (∃ d' s, solve md5 fuel version d = Returned d' s) ∨
  solve md5 fuel version d = Raised QueueEmpty.
Proof.
  intros Hg Hfuel.
  pose proof (solve_only_raises_QueueEmpty md5 version fuel d) as Hraise.
  pose proof (solve_loop_terminates md5 (size (state d)) version fuel
                (reset_stats d) [state (reset_stats d)]) as Hterm.
  unfold solve in *.
  destruct (solve_loop md5 fuel version (reset_stats d) [state (reset_stats d)])
    as [d' s|e|d' queue'].
  - left. by exists d', s.
  - right. f_equal. by apply Hraise.
  - exfalso. apply (Hterm) with (d' := d') (queue' := queue'); [| |done].
    + constructor; [|constructor]. by split.
    + unfold solve_fuel, queue_weight in *. simpl in *. lia.
Qed.

(** X17: what [solve] returns is a solution of the board it was given.
    From a well-formed legal board (whose cache, if any, is sound), if the
    loop returns a board, then that board is complete (no empty cell, no
    conflict) and keeps every filled cell of the initial board; and when
    the initial board holds nothing but [EMPTY_SPACE] and values 1 … size,
    every cell of the result holds one of 1 … size. *)
Theorem X17_solve_returns_a_solution (md5 : list Z → Z) version fuel d d' s :
  wf_board (state d) → is_legal_state (state d) = true → cache_sound (state d) →
  solve md5 fuel version d = Returned d' s →
  is_complete s = Ok true ∧ extends (state d) s ∧
  (clues_in_range (state d) → solved s).
Proof.
  intros Hwf Hl Hc. apply solve_sound. by apply good_of_checked.
Qed.

Lemma X17_solve_returns_a_solution_witness :
  ∃ d' s, solve toy_md5 4 IMPROVED (SudokuDFS_init board_D) = Returned d' s ∧
          is_complete s = Ok true ∧ extends board_D s ∧
          (clues_in_range board_D → solved s).
Proof.
  destruct (solve toy_md5 4 IMPROVED (SudokuDFS_init board_D)) as [d' s|e|d' q] eqn:E.
  - exists d', s. split; [reflexivity|].
    apply (X17_solve_returns_a_solution toy_md5 IMPROVED 4 (SudokuDFS_init board_D) d' s
             wf_board_D); [vm_compute; reflexivity| |exact E].
    intros c Hc. simpl in Hc. discriminate Hc.
  - exfalso. vm_compute in E. discriminate E.
  - exfalso. vm_compute in E. discriminate E.
Defined.

(** X18: [solve] terminates.  From a well-formed legal board (whose cache,
    if any, is sound) the loop ends within [solve_fuel] passes, a bound
    that depends only on the size of the board and the number of its empty
    cells; it ends by returning a board or by raising [queue.Empty], and
    in no other way. *)
Theorem X18_solve_terminates (md5 : list Z → Z) version fuel d :
  wf_board (state d) → is_legal_state (state d) = true → cache_sound (state d) →
  (solve_fuel (state d) ≤ fuel)%nat →
  (∃ d' s, solve md5 fuel version d = Returned d' s) ∨
  solve md5 fuel version d = Raised QueueEmpty.
Proof.
  intros Hwf Hl Hc. apply solve_terminates. by apply good_of_checked.
Qed.

Lemma X18_solve_terminates_witness :
  (∃ d' s, solve toy_md5 (solve_fuel board_dead) SORTED (SudokuDFS_init board_dead)
           = Returned d' s) ∨
  solve toy_md5 (solve_fuel board_dead) SORTED (SudokuDFS_init board_dead)
  = Raised QueueEmpty.
Proof.
  apply (X18_solve_terminates toy_md5 SORTED (solve_fuel board_dead)
           (SudokuDFS_init board_dead) wf_board_dead).
  - vm_compute. reflexivity.
  - intros c Hc. simpl in Hc. discriminate Hc.
  - apply le_n.
Defined.



(** ** The statistics of [solve] *)

Lemma push_moves_counts s moves : ∀ d queue d' queue',
  push_moves s moves d queue = Ok (d', queue') →
  branches d' = (branches d + length moves)%nat ∧
  length queue' = (length queue + length moves)%nat ∧
  node_expansions d' = node_expansions d ∧
  visited_states d' = visited_states d ∧
  revistited_states d' = revistited_states d ∧
  branching_factor d' = branching_factor d ∧
  invalid_states d' = invalid_states d ∧
  visit_log d' = visit_log d.
Proof.
  induction moves as [|m moves IH]; intros d queue d' queue'; cbn [push_moves].
  - intros [= <- <-]. split_and!; simpl; done || lia.
  - destruct (apply_move s m) as [s1|e]; [|done]. cbn [res_bind].
    intros (Hb & Hq & ? & ? & ? & ? & ? & ?)%IH. simpl in *.
    split_and!; done || lia.
Qed.

Lemma solve_iteration_stats (md5 : list Z → Z) version d queue :
  solve_stats d →
  (branches d + 1 = length (visit_log d) + length queue)%nat →
  match solve_iteration md5 version d queue with
  | Ok (Continue d' queue') =>
      solve_stats d' ∧
      (branches d' + 1 = length (visit_log d') + length queue')%nat
  | Ok (Return d' s) =>
      solve_stats d' ∧ (length (visit_log d') ≤ branches d' + 1)%nat
  | Raise _ => True
  end.
Proof.
  intros (Hn & Hr & Hf & Hi) Hb. destruct queue as [|s queue]; [done|].
  cbn [solve_iteration]. destruct (decide _) as [Hin|Hin].
  { split; [done|]. simpl in *. lia. }
  assert (Hst : solve_stats (mark_expanded md5 s (log_visit s d))).
  { split_and!; simpl; try done. simpl in Hin.
    rewrite size_union, size_singleton by set_solver. lia. }
  destruct (is_complete s) as [[|]|e]; cbn [res_bind]; [|  |done].
  { split; [done|]. simpl in *. lia. }
  destruct (get_legal_moves s version) as [moves s'].
  destruct (push_moves s' moves _ queue) as [[d' queue']|e] eqn:Hp;
    cbn [res_bind fst snd]; [|done].
  apply push_moves_counts in Hp as (Hb' & Hq' & Hn' & Hv' & Hr' & Hf' & Hi' & Hl').
  destruct Hst as (? & ? & ? & ?).
  split; [split_and!; congruence|]. rewrite Hb', Hq', Hl'. simpl in *. lia.
Qed.

Lemma solve_loop_stats (md5 : list Z → Z) version fuel : ∀ d queue,
  solve_stats d →
  (branches d + 1 = length (visit_log d) + length queue)%nat →
  match solve_loop md5 fuel version d queue with
  | Running d' queue' =>
      solve_stats d' ∧
      (branches d' + 1 = length (visit_log d') + length queue')%nat
  | Returned d' s =>
      solve_stats d' ∧ (length (visit_log d') ≤ branches d' + 1)%nat
  | Raised _ => True
  end.
Proof.
  induction fuel as [|fuel IH]; intros d queue Hs Hb; cbn [solve_loop]; [done|].
  pose proof (solve_iteration_stats md5 version d queue Hs Hb) as Hit.
  destruct (solve_iteration md5 version d queue) as [[d' queue'|d' s]|e]; [|done..].
  destruct Hit. by apply IH.
Qed.

(** X20: the statistics of [solve].  However long the loop has run, and
    also when it returns: [node_expansions] is the number of fingerprints
    in [visited_states]; [revistited_states], [branching_factor] and
    [invalid_states] still have the value 0 that [reset_stats] gave them
    ([solve] never writes them); and [branches] counts the boards pushed:
    together with the initial board they are the boards popped so far and
    those still on the stack. *)
Theorem X20_solve_statistics (md5 : list Z → Z) version fuel d :
  match solve md5 fuel version d with
  | Running d' queue' =>
      solve_stats d' ∧
      (branches d' + 1 = length (visit_log d') + length queue')%nat
  | Returned d' s =>
      solve_stats d' ∧ (length (visit_log d') ≤ branches d' + 1)%nat
  | Raised _ => True
  end.
Proof.
  unfold solve. apply solve_loop_stats.
  - split_and!; simpl; done || by rewrite size_empty.
  - simpl. lia.
Qed.


(** ** The statistics of [solve_recursive] *)

Lemma rec_stats_refl d : rec_stats d d.
Proof. by split_and!. Qed.

Lemma rec_stats_trans d1 d2 d3 : rec_stats d1 d2 → rec_stats d2 d3 → rec_stats d1 d3.
Proof.
  intros (H1 & H2 & H3) (H1' & H2' & H3'). split_and!; [set_solver|lia|congruence].
Qed.

Lemma rec_stats_update_branching_factor d n :
  rec_stats d (update_branching_factor d n).
Proof. unfold update_branching_factor. by repeat destruct (decide _). Qed.

Lemma rec_stats_mark_expanded (md5 : list Z → Z) s d :
  __hash__ md5 s ∉ visited_states d →
  rec_stats d (mark_expanded md5 s (log_visit s d)).
Proof.
  intros Hs. split_and!; simpl; [set_solver| |done].
  rewrite size_union, size_singleton by set_solver. lia.
Qed.

Lemma solve_recursive_loop_stats rec :
  (∀ s d r s' d', rec s d = Some (Ok (r, s', d')) → rec_stats d d') →
  ∀ moves s d r s' d',
    solve_recursive_loop rec moves s d = Some (Ok (r, s', d')) → rec_stats d d'.
Proof.
  intros Hrec. induction moves as [|m moves IH]; intros s d r s' d'.
  - intros [= <- <- <-]. apply rec_stats_refl.
  - cbn [solve_recursive_loop].
    destruct (apply_move s m) as [s1|e]; [|done].
    destruct (rec s1 (count_branch d)) as [[[[r1 s2] d2]|e]|] eqn:Hr1; [|done..].
    apply Hrec in Hr1.
    assert (H12 : rec_stats d d2) by exact Hr1.
    destruct (is_complete s2) as [[|]|e]; [|  |done].
    + by intros [= <- <- <-].
    + destruct (undo_move s2 m) as [s3|e]; [|done]. destruct r1.
      * by intros [= <- <- <-].
      * intros Hloop. eapply rec_stats_trans; [exact H12|]. by eapply IH.
Qed.



(** * Further properties of the candidate cache *)

(** ** The dead-end mark of [update_move_cache] *)

(** The counters of the loop over one group: [fields] counts the cells of
    the group that are keys, [remaining] holds what is left of each of
    their entries. *)
Lemma update_field_fold_count val (tr : cell → Prop) `{∀ q, Decision (tr q)}
    (group : list cell) :
  NoDup group → ∀ (c : pydict cell (gset Z)) (rem : gset Z) (n : nat),
  (∀ q, q ∈ group → is_Some (dict_get c q) ↔ tr q) →
  ∃ c' rem' n',
    foldl (update_field val) (c, rem, n) group = (c', rem', n') ∧
    n' = (n + length (filter tr group))%nat ∧
    rem ⊆ rem' ∧
    ∀ q s, q ∈ group → dict_get c q = Some s → s ∖ {[val]} ⊆ rem'.
Proof.
  induction 1 as [|field group Hnotin Hnd IH]; intros c rem n Htr.
  - exists c, rem, n. split_and!; [done|simpl; lia|done|].
    intros q s Hq. by apply not_elem_of_nil in Hq.
  - cbn [foldl]. unfold update_field at 2.
    destruct (dict_get c field) as [s|] eqn:Hs.
    + assert (Hf : tr field) by (apply Htr; [left|by rewrite Hs]).
      destruct (IH (dict_set c field (s ∖ {[val]})) (rem ∪ s ∖ {[val]}) (S n))
        as (c' & rem' & n' & Hfold & Hn & Hrem & Hsub).
      { intros q Hq. rewrite dict_get_set, decide_False by (intros ->; done).
        apply Htr. by right. }
      exists c', rem', n'. split_and!; [done| |set_solver|].
      * rewrite filter_cons_True by done. simpl. lia.
      * intros q s' [->|Hq]%elem_of_cons Hqs.
        -- rewrite Hs in Hqs. injection Hqs as <-. set_solver.
        -- apply (Hsub q s' Hq).
           rewrite dict_get_set, decide_False by (intros ->; done). done.
    + assert (Hf : ¬ tr field).
      { intros Hf. apply Htr in Hf; [|left]. rewrite Hs in Hf. by destruct Hf. }
      destruct (IH c rem n) as (c' & rem' & n' & Hfold & Hn & Hrem & Hsub).
      { intros q Hq. apply Htr. by right. }
      exists c', rem', n'. split_and!; [done| |done|].
      * by rewrite filter_cons_False.
      * intros q s' [->|Hq]%elem_of_cons Hqs; [congruence|]. by apply (Hsub q s').
Qed.

(** When the entries of a group can be served with pairwise different
    values, none of them the value of the move, the group does not
    trigger the mark. *)
Lemma update_group_exact val (c : pydict cell (gset Z)) (group : list cell)
    (F : cell → option (gset Z)) (σ : cell → Z) :
  NoDup group →
  (∀ p, dict_get c p = F p) →
  (∀ q s, q ∈ group → F q = Some s → σ q ∈ s ∧ σ q ≠ val) →
  (∀ q1 q2, q1 ∈ group → q2 ∈ group → is_Some (F q1) → is_Some (F q2) →
            σ q1 = σ q2 → q1 = q2) →
  ∀ p, dict_get (update_group val c group) p = strike val group F p.
Proof.
  intros Hnd Hc Hfit Hinj p. unfold update_group.
  destruct (update_field_fold val group c ∅ 0%nat) as (c' & rem' & n' & Hfold & Hget).
  destruct (update_field_fold_count val (λ q, is_Some (F q)) group Hnd c ∅ 0%nat)
    as (c2 & rem2 & n2 & Hfold2 & Hn & _ & Hsub).
  { intros q _. by rewrite Hc. }
  rewrite Hfold in Hfold2. injection Hfold2 as <- <- <-. rewrite Hfold.
  assert (Hle : (n' ≤ base.size rem')%nat).
  { rewrite Hn. simpl.
    set (T := filter (λ q, is_Some (F q)) group).
    assert (HT : ∀ q, q ∈ T → q ∈ group ∧ is_Some (F q)).
    { intros q [? ?]%list_elem_of_filter. done. }
    assert (Hnv : NoDup (σ <$> T)).
    { apply NoDup_fmap_2_strong; [|by apply NoDup_filter].
      intros q1 q2 [? ?]%HT [? ?]%HT. by apply Hinj. }
    rewrite <- (length_fmap σ T), <- (size_list_to_set (C := gset Z) _ Hnv).
    apply subseteq_size. intros w Hw.
    apply elem_of_list_to_set, list_elem_of_fmap in Hw as (q & -> & Hq).
    apply HT in Hq as [Hq [s Hs]].
    apply (Hsub q s Hq); [by rewrite Hc|].
    destruct (Hfit q s Hq Hs). set_solver. }
  rewrite decide_False by lia. rewrite Hget. unfold strike. by rewrite Hc.
Qed.

Lemma strike_Some val group (F : cell → option (gset Z)) q s :
  strike val group F q = Some s →
  ∃ s0, F q = Some s0 ∧ (s = s0 ∨ s = s0 ∖ {[val]}).
Proof.
  unfold strike. destruct (decide _); [|by eauto].
  destruct (F q) as [s0|]; [|done]. intros [= <-]. eauto.
Qed.

Lemma strike_is_Some val group (F : cell → option (gset Z)) q :
  is_Some (strike val group F q) ↔ is_Some (F q).
Proof. unfold strike. destruct (decide _); [|done]. by rewrite fmap_is_Some. Qed.

(** The three groups of a move in a row. *)
Lemma update_move_cache_exact b (c : pydict cell (gset Z)) x y v
    (F : cell → option (gset Z)) (σ : cell → Z) :
  (∀ p, dict_get c p = F p) →
  (∀ q s, F q = Some s → σ q ∈ s) →
  (∀ q, is_Some (F q) → related (size_sqrt b) (x, y) q → σ q ≠ v) →
  (∀ q1 q2, is_Some (F q1) → is_Some (F q2) →
            related (size_sqrt b) q1 q2 → σ q1 = σ q2 → q1 = q2) →
  (0 < size_sqrt b)%nat →
  ∀ p, dict_get (update_move_cache b c (x, y, v)) p =
       strike v (block_cells (size_sqrt b) (x - x `mod` size_sqrt b)
                             (y - y `mod` size_sqrt b))
         (strike v (col_cells (size b) y) (strike v (row_cells (size b) x) F)) p.
Proof.
  intros Hc Hfit Hval Hinj Hg.
  unfold update_move_cache. rewrite get_affected_coordinates_cells. cbn [foldl].
  assert (Hrow : ∀ q, q ∈ row_cells (size b) x → related (size_sqrt b) (x, y) q).
  { intros q [? _]%elem_of_row_cells. by left. }
  assert (Hcol : ∀ q, q ∈ col_cells (size b) y → related (size_sqrt b) (x, y) q).
  { intros q [? _]%elem_of_col_cells. right. by left. }
  assert (Hblk : ∀ q, q ∈ block_cells (size_sqrt b) (x - x `mod` size_sqrt b)
                                      (y - y `mod` size_sqrt b) →
                      (q.1 / size_sqrt b = x / size_sqrt b ∧
                       q.2 / size_sqrt b = y / size_sqrt b)%nat).
  { intros q Hq. apply elem_of_block_cells in Hq. rewrite !sub_mod_block in Hq.
    destruct Hq as [H1 H2]. split; apply div_block; (done || lia). }
  apply update_group_exact with (σ := σ).
  - apply NoDup_block_cells.
  - apply update_group_exact with (σ := σ).
    + apply NoDup_col_cells.
    + apply update_group_exact with (σ := σ).
      * apply NoDup_row_cells.
      * exact Hc.
      * intros q s Hq Hs. split; [by apply Hfit|].
        apply Hval; [by rewrite Hs|by apply Hrow].
      * intros q1 q2 [H1 _]%elem_of_row_cells [H2 _]%elem_of_row_cells ? ?.
        apply Hinj; try done. left. congruence.
    + intros q s Hq (s0 & Hs0 & Hs)%strike_Some.
      assert (σ q ≠ v) by (apply Hval; [by rewrite Hs0|by apply Hcol]).
      pose proof (Hfit q s0 Hs0). split; [|done]. destruct Hs as [->| ->]; set_solver.
    + intros q1 q2 [H1 _]%elem_of_col_cells [H2 _]%elem_of_col_cells
        ?%strike_is_Some ?%strike_is_Some.
      apply Hinj; try done. right. left. congruence.
  - intros q s Hq (s1 & (s0 & Hs0 & Hs1)%strike_Some & Hs)%strike_Some.
    assert (σ q ≠ v).
    { apply Hval; [by rewrite Hs0|]. right. right.
      destruct (Hblk q Hq). simpl. done. }
    pose proof (Hfit q s0 Hs0). split; [|done].
    destruct Hs as [->| ->], Hs1 as [->| ->]; set_solver.
  - intros q1 q2 [? ?]%Hblk [? ?]%Hblk ?%strike_is_Some%strike_is_Some
      ?%strike_is_Some%strike_is_Some.
    apply Hinj; try done. right. right. split; congruence.
Qed.

Lemma extends_trans b1 b2 b3 : extends b1 b2 → extends b2 b3 → extends b1 b3.
Proof.
  intros (Es & Eq & Ev) (Es' & Eq' & Ev'). split_and!; [congruence..|].
  intros p Hp Hv. pose proof (Ev p Hp Hv) as H.
  rewrite <- H. apply Ev'; [unfold in_range in *; by rewrite Es|by rewrite H].
Qed.

Lemma extends_placed b b' x y v :
  wf_board b → (x < size b)%nat → (y < size b)%nat →
  cell_value b (x, y) = EMPTY_SPACE →
  size b' = size b → size_sqrt b' = size_sqrt b →
  _board b' = grid_set (_board b) x y v →
  extends b b'.
Proof.
  intros Hwf Hx Hy He Hsz Hsq Hb. split_and!; [done..|].
  intros p Hp Hv. unfold cell_value at 1. rewrite Hb.
  change (grid_get _ p.1 p.2)
    with (cell_value (with_board b (grid_set (_board b) x y v)) p).
  rewrite cell_value_with_board by done.
  rewrite decide_False; [done|]. by intros <-.
Qed.

(** A solution keeps related cells apart. *)
Lemma solved_distinct σ p q :
  solved σ → in_range σ p → in_range σ q → related (size_sqrt σ) p q →
  cell_value σ p = cell_value σ q → p = q.
Proof.
  intros (_ & Hl & Hv) Hp Hq Hr Heq.
  destruct (decide (p = q)) as [|Hne]; [done|]. exfalso.
  pose proof (Hl p q Hp Hq Hne Hr Heq). pose proof (Hv p Hp). lia.
Qed.

Lemma apply_move_fits b x y v b' : apply_move b (x, y, v) = Ok b' → fits_int64 v.
Proof.
  unfold apply_move, store_cell. destruct (decide _); [|done].
  by destruct (decide (fits_int64 v)).
Qed.

(** On the way to a solution the incremental update writes no mark: the
    cache after a move onto an empty cell answers like a rebuild. *)
Lemma apply_move_exact_at b x y v b' σ :
  wf_board b → cache_exact b → (x < size b)%nat → (y < size b)%nat →
  cell_value b (x, y) = EMPTY_SPACE → v ≠ EMPTY_SPACE →
  apply_move b (x, y, v) = Ok b' →
  solved σ → extends b' σ → cache_exact b'.
Proof.
  intros Hwf Hex Hx Hy He Hv0 Ha Hσ Hext c' Hc'.
  pose proof (apply_move_fits b x y v b' Ha) as Hfit.
  destruct (_move_cache b) as [c|] eqn:Hc.
  2:{ destruct (apply_move_Ok b x y v Hwf Hx Hy Hfit) as (b2 & Ha2 & _ & _ & _ & Hn).
      { unfold cache_tracks. by rewrite Hc. }
      rewrite Ha in Ha2. injection Ha2 as <-. rewrite Hn in Hc'; done. }
  destruct (Hex c Hc) as [Hcwf Hget].
  assert (Hag : cache_agrees b c) by (intros p; left; apply Hget).
  destruct (apply_move_cache_agrees b c x y v Hwf Hx Hy He Hv0 Hfit Hc Hag)
    as (b2 & c2 & Ha2 & Hb2 & Hsz & Hsq & Hc2 & Hag2).
  rewrite Ha in Ha2. injection Ha2 as <-.
  rewrite Hc2 in Hc'. injection Hc' as <-.
  split.
  { eapply (apply_move_cache_wf b c x y v b' c2); eauto. }
  (* the sizes and values of the solution *)
  pose proof Hext as (Es & Eq & Ev).
  assert (Hextb : extends b σ).
  { eapply extends_trans; [|exact Hext].
    exact (extends_placed b b' x y v Hwf Hx Hy He Hsz Hsq Hb2). }
  assert (Hcv' : ∀ p, cell_value b' p = if decide ((x, y) = p) then v else cell_value b p).
  { intros p. rewrite <- (cell_value_with_board b x y v p Hwf Hx Hy).
    unfold cell_value. by rewrite Hb2. }
  assert (Hσxy : cell_value σ (x, y) = v).
  { rewrite (Ev (x, y)).
    - rewrite Hcv'. by rewrite decide_True.
    - split; simpl; lia.
    - rewrite Hcv'. by rewrite decide_True. }
  (* the cache after the deletion *)
  (* unfold the move *)
  unfold apply_move in Ha. rewrite store_cell_Ok in Ha by done.
  cbn [res_bind _move_cache with_board] in Ha. rewrite Hc in Ha.
  destruct (dict_del c (x, y)) as [c1|e] eqn:Hdel; [|done].
  cbn [res_bind] in Ha. injection Ha as Ha. 
  assert (Hc2eq : c2 = update_move_cache
            {| size := size b; size_sqrt := size_sqrt b;
               _board := grid_set (_board b) x y v;
               last_move := Some (x, y, v); _move_cache := Some c |} c1 (x, y, v)).
  { rewrite <- Ha in Hc2. cbn in Hc2. by injection Hc2 as <-. }
  set (F := λ q, if decide ((x, y) = q) then None
                 else dict_get (fresh_cache b) q).
  assert (Hc1 : ∀ p, dict_get c1 p = F p).
  { intros p. unfold dict_del in Hdel. destruct (dict_get c (x, y)); [|done].
    injection Hdel as <-. rewrite dict_get_filter_ne. unfold F.
    destruct (decide _); [done|]. by rewrite Hget, get_move_cache_fresh. }
  assert (HF : ∀ q, is_Some (F q) →
                 in_range b q ∧ cell_value b q = EMPTY_SPACE ∧ q ≠ (x, y)).
  { intros q. unfold F. destruct (decide _) as [|Hne]; [by intros [? ?]|].
    rewrite dict_get_fresh_cache. destruct (decide _) as [[? ?]|]; [|by intros [? ?]].
    intros _. split_and!; [done..|]. by intros ->. }
  assert (Hin : ∀ q, in_range b q → in_range σ q).
  { intros q [? ?]. split; lia. }
  intros p. destruct (Hag2 p) as [Hp|[-> Hp]]; [done|]. exfalso.
  rewrite Hc2eq in Hp.
  rewrite (update_move_cache_exact _ c1 x y v F (cell_value σ)) in Hp.
  - rewrite strike_strike in Hp. cbn [size size_sqrt] in Hp.
    destruct (F (0%nat, 0%nat)) as [s0|] eqn:Hs0; [|by destruct (decide _)].
    assert (Hfit0 : cell_value σ (0%nat, 0%nat) ∈ s0).
    { pose proof (HF (0%nat, 0%nat) ltac:(by rewrite Hs0)) as (Hq & Hqe & Hne).
      unfold F in Hs0. rewrite decide_False in Hs0 by congruence.
      rewrite dict_get_fresh_cache, decide_True in Hs0 by done. injection Hs0 as <-.
      by apply (solution_candidate b σ (0%nat, 0%nat)). }
    destruct (decide _) as [Hgrp|Hgrp]; simpl in Hp; injection Hp as Hp.
    + pose proof (HF (0%nat, 0%nat) ltac:(by rewrite Hs0)) as (Hq & Hqe & Hne).
      apply (related_affected b x y _ Hwf Hx Hy Hq) in Hgrp.
      assert (cell_value σ (0%nat, 0%nat) ≠ v); [|set_solver].
      rewrite <- Hσxy. intros Heq. apply Hne. symmetry.
      apply (solved_distinct σ (x, y) (0%nat, 0%nat) Hσ);
        [apply Hin; split; simpl; lia|by apply Hin| |done].
      destruct Hextb as (_ & -> & _). done.
    + set_solver.
  - exact Hc1.
  - intros q s Hs. pose proof (HF q ltac:(by rewrite Hs)) as (Hq & Hqe & Hne).
    unfold F in Hs. rewrite decide_False in Hs by (by intros <-).
    rewrite dict_get_fresh_cache, decide_True in Hs by done. injection Hs as <-.
    by apply solution_candidate.
  - intros q (Hq & Hqe & Hne)%HF Hr. cbn [size_sqrt] in Hr. rewrite <- Hσxy.
    intros Heq. apply Hne. symmetry.
    apply (solved_distinct σ (x, y) q Hσ); [apply Hin; split; simpl; lia|by apply Hin| |done].
    destruct Hextb as (_ & -> & _). done.
  - intros q1 q2 (Hq1 & _ & _)%HF (Hq2 & _ & _)%HF Hr Heq. cbn [size_sqrt] in Hr.
    apply (solved_distinct σ q1 q2 Hσ); [by apply Hin|by apply Hin| |done].
    destruct Hextb as (_ & -> & _). done.
  - cbn [size_sqrt]. apply Hwf.
Qed.

Lemma move_ok_value b m : wf_board b → move_ok b m → m.2 ≠ EMPTY_SPACE.
Proof.
  intros Hwf (Hx & Hy & _ & Hv).
  apply (possible_values_spec b Hwf _ _ _ Hx Hy) in Hv as [? _].
  unfold EMPTY_SPACE. lia.
Qed.

Lemma move_ok_fits b m : wf_board b → move_ok b m → fits_int64 m.2.
Proof.
  intros Hwf (Hx & Hy & _ & Hv).
  apply (possible_values_spec b Hwf _ _ _ Hx Hy) in Hv as [? _].
  apply (fits_int64_value b); [done|lia].
Qed.

Lemma apply_move_exact b m b' σ :
  wf_board b → cache_exact b → move_ok b m → apply_move b m = Ok b' →
  solved σ → extends b' σ → cache_exact b'.
Proof.
  intros Hwf Hex Hm Ha Hσ Hext. pose proof (move_ok_value b m Hwf Hm) as Hv0.
  destruct m as [[x y] v]. destruct Hm as (Hx & Hy & He & _).
  by apply (apply_move_exact_at b x y v b' σ).
Qed.

Lemma apply_move_exact_Ok b m :
  wf_board b → cache_exact b → move_ok b m →
  ∃ b', apply_move b m = Ok b' ∧
        size b' = size b ∧ size_sqrt b' = size_sqrt b ∧
        _board b' = grid_set (_board b) m.1.1 m.1.2 m.2.
Proof.
  intros Hwf Hex Hm. pose proof (move_ok_value b m Hwf Hm) as Hv0.
  pose proof (move_ok_fits b m Hwf Hm) as Hfit.
  destruct m as [[x y] v]. destruct Hm as (Hx & Hy & He & Hv). simpl in *.
  destruct (_move_cache b) as [c|] eqn:Hc.
  - destruct (Hex c Hc) as [Hcwf Hget].
    assert (Hag : cache_agrees b c) by (intros p; left; apply Hget).
    destruct (apply_move_cache_agrees b c x y v Hwf Hx Hy He Hv0 Hfit Hc Hag)
      as (b2 & c2 & Ha2 & Hb2 & Hsz & Hsq & _).
    by exists b2.
  - destruct (apply_move_Ok b x y v Hwf Hx Hy Hfit) as (b2 & Ha2 & ? & ? & ? & _).
    { unfold cache_tracks. by rewrite Hc. }
    by exists b2.
Qed.

(** X22: the dead-end mark is sound.  On a well-formed board whose cache
    answers like a rebuild, applying a move that the cache offers succeeds;
    and if the board after the move still has a solution, the incremental
    update has written no mark: the new cache again answers every lookup
    like a rebuild, and Cached lists, for every empty cell, the move that
    writes the value of the solution. *)
Theorem X22_dead_end_mark_is_sound b m :
  wf_board b → cache_exact b → move_ok b m →
  ∃ b', apply_move b m = Ok b' ∧
    ∀ σ, solved σ → extends b' σ →
      cache_exact b' ∧
      ∀ p, in_range b' p → cell_value b' p = EMPTY_SPACE →
           (p.1, p.2, cell_value σ p) ∈ (get_legal_moves b' STORE_LEGAL).1.
Proof.
  intros Hwf Hex Hm.
  destruct (apply_move_exact_Ok b m Hwf Hex Hm) as (b' & Ha & Hsz & Hsq & Hb).
  exists b'. split; [done|]. intros σ Hσ Hext.
  pose proof (apply_move_exact b m b' σ Hwf Hex Hm Ha Hσ Hext) as Hex'.
  split; [done|]. intros p Hp He.
  apply solution_move; try done.
  eapply wf_board_ext; [| | |apply (with_board_wf b m.1.1 m.1.2 m.2 Hwf)]; simpl; done.
Qed.

Lemma X22_dead_end_mark_is_sound_witness :
  ∃ b', apply_move board_D_cached (0%nat, 0%nat, 1) = Ok b' ∧
    cache_exact b' ∧
    ∀ p, in_range b' p → cell_value b' p = EMPTY_SPACE →
         (p.1, p.2, cell_value board_full p) ∈ (get_legal_moves b' STORE_LEGAL).1.
Proof.
  destruct (X22_dead_end_mark_is_sound board_D_cached (0%nat, 0%nat, 1))
    as (b' & Ha & H).
  - apply wf_mk_board_4; [reflexivity|]. repeat constructor.
  - intros c Hc. injection Hc as <-. split; [|reflexivity].
    rewrite get_move_cache_fresh. apply fresh_cache_wf.
  - split_and!; [simpl; lia|simpl; lia|reflexivity|].
    apply (bool_decide_unpack _). vm_compute. exact I.
  - exists b'. split; [exact Ha|]. apply (H board_full solved_board_full).
    vm_compute in Ha. injection Ha as <-.
    split_and!; [reflexivity|reflexivity|].
    apply (cells_4 (λ p, cell_value _ p ≠ EMPTY_SPACE →
                         cell_value board_full p = cell_value _ p)).
    repeat constructor; vm_compute; congruence.
Defined.

(** * The cache under sequences of [apply_move] and [undo_move] *)

Lemma cache_marked_agrees b c : cache_marked b c → cache_agrees b c.
Proof. intros Hm p. destruct (Hm p) as [?|(? & ? & _)]; [by left|by right]. Qed.

(** One [apply_move] onto an empty cell: the mark is written only on a
    board that cannot be completed. *)
Lemma apply_move_cache_marked b c x y v :
  wf_board b → (x < size b)%nat → (y < size b)%nat →
  cell_value b (x, y) = EMPTY_SPACE → v ≠ EMPTY_SPACE → fits_int64 v →
  _move_cache b = Some c → dict_wf c → cache_marked b c →
  ∃ b' c', apply_move b (x, y, v) = Ok b' ∧
           _board b' = grid_set (_board b) x y v ∧
           size b' = size b ∧ size_sqrt b' = size_sqrt b ∧
           _move_cache b' = Some c' ∧ dict_wf c' ∧ cache_marked b' c'.
Proof.
  intros Hwf Hx Hy He Hv Hfit Hc Hcwf Hm.
  destruct (apply_move_cache_agrees b c x y v Hwf Hx Hy He Hv Hfit Hc
              (cache_marked_agrees b c Hm))
    as (b' & c' & Hap & Hg & Hs & Hq & Hc' & Hag').
  exists b', c'. split_and!; try done.
  { by apply (apply_move_cache_wf b c x y v b' c'). }
  intros p.
  destruct (decide (dict_get c' p = dict_get (get_move_cache b') p)) as [|Hne];
    [by left|].
  destruct (Hag' p) as [?|[-> Hp]]; [done|]. right. split_and!; [done..|].
  intros (σ & Hσ & Hext).
  destruct (Hm (0%nat, 0%nat)) as [H0|(_ & _ & Hdead)].
  - assert (Hex : cache_exact b).
    { intros c0 Hc0. rewrite Hc in Hc0. injection Hc0 as <-. split; [done|].
      intros q. destruct (Hm q) as [?|(-> & _)]; done. }
    destruct (apply_move_exact_at b x y v b' σ Hwf Hex Hx Hy He Hv Hap Hσ Hext c' Hc')
      as [_ Hget].
    apply Hne, Hget.
  - apply Hdead. exists σ. split; [done|].
    eapply extends_trans; [|exact Hext].
    exact (extends_placed b b' x y v Hwf Hx Hy He Hs Hq Hg).
Qed.

Lemma run_ops_cache_marked ops : ∀ b c,
  wf_board b → _move_cache b = Some c → dict_wf c → cache_marked b c →
  ops_ok (size b) (_board b) ops →
  ∃ b' c', run_ops ops b = Ok b' ∧ wf_board b' ∧
           _move_cache b' = Some c' ∧ cache_marked b' c'.
Proof.
  induction ops as [|[[[x y] v]|[[x y] v]] ops IH]; intros b c Hwf Hc Hcwf Hm Hok.
  - exists b, c. done.
  - destruct Hok as (Hx & Hy & Hempty & Hv & Hfit & Hok).
    destruct (apply_move_cache_marked b c x y v Hwf Hx Hy Hempty Hv Hfit Hc Hcwf Hm)
      as (b1 & c1 & Hap & Hg & Hs & Hq & Hc1 & Hcwf1 & Hm1).
    assert (Hwf1 : wf_board b1).
    { apply (wf_board_ext (with_board b (grid_set (_board b) x y v))); try done.
      by apply with_board_wf. }
    destruct (IH b1 c1 Hwf1 Hc1 Hcwf1 Hm1) as (b' & c' & Hrun & ?); [by rewrite Hs, Hg|].
    exists b', c'. cbn [run_ops]. by rewrite Hap.
  - destruct Hok as (Hx & Hy & Hok).
    destruct (undo_move_cache_agrees b c x y v Hwf Hx Hy Hc)
      as (b1 & Hun & Hg & Hs & Hq & Hc1 & _).
    assert (Hwf1 : wf_board b1).
    { apply (wf_board_ext (with_board b (grid_set (_board b) x y EMPTY_SPACE))); try done.
      by apply with_board_wf. }
    destruct (IH b1 _ Hwf1 Hc1) as (b' & c' & Hrun & ?).
    + rewrite get_move_cache_fresh. apply fresh_cache_wf.
    + intros p. by left.
    + by rewrite Hs, Hg.
    + exists b', c'. cbn [run_ops]. by rewrite Hun.
Qed.

(** C2 as stated fails: [board_C_cached] carries the cache the Cached
    strategy has just built; applying its move (3, 2, 1) leaves cell (3, 3)
    without candidates, [update_move_cache] writes its dead-end mark into
    the entry of the empty cell (0, 0), and a rebuild gives that cell
    the candidates 1 and 3. *)
Lemma C2_counterexample :
  _move_cache board_C_cached = Some (get_move_cache board_C_cached) ∧
  (3%nat, 2%nat, 1) ∈ (get_legal_moves board_C STORE_LEGAL).1 ∧
  ops_ok (size board_C_cached) (_board board_C_cached) [Apply (3%nat, 2%nat, 1)] ∧
  ∃ b' c', run_ops [Apply (3%nat, 2%nat, 1)] board_C_cached = Ok b' ∧
           _move_cache b' = Some c' ∧
           cell_value b' (0%nat, 0%nat) = EMPTY_SPACE ∧
           dict_get c' (0%nat, 0%nat) = Some ∅ ∧
           dict_get (get_move_cache b') (0%nat, 0%nat) = Some {[1; 3]}.
Proof.
  split; [reflexivity|].
  split; [apply (bool_decide_unpack _); vm_compute; exact I|].
  split.
  - simpl. unfold fits_int64. repeat split; (lia || done).
  - eexists _, _. split; [vm_compute; reflexivity|].
    split; [reflexivity|]. split; [reflexivity|].
    split; by vm_compute.
Qed.

(** C2 (amended): starting from a cache that equals a rebuild, after any
    sequence of [apply_move] (each onto an empty cell of the grid, with a
    value other than [EMPTY_SPACE] that fits a cell) and [undo_move], the
    operations all succeed and the cache gives every empty cell the
    candidate set of a from-scratch rebuild; the one exception is the
    entry of cell (0, 0) on a board that no solved board extends, which
    may be the empty dead-end mark. *)
Theorem C2_cache_matches_rebuild b ops :
  wf_board b → _move_cache b = Some (get_move_cache b) →
  ops_ok (size b) (_board b) ops →
  ∃ b' c', run_ops ops b = Ok b' ∧ _move_cache b' = Some c' ∧
    ∀ p, in_range b' p → cell_value b' p = EMPTY_SPACE →
      dict_get (get_move_cache b') p = Some (get_move_cache_field b' p) ∧
      (dict_get c' p = Some (get_move_cache_field b' p) ∨
       (p = (0%nat, 0%nat) ∧ dict_get c' p = Some ∅ ∧
        ¬ ∃ σ, solved σ ∧ extends b' σ)).
Proof.
  intros Hwf Hc Hok.
  destruct (run_ops_cache_marked ops b _ Hwf Hc)
    as (b' & c' & Hrun & Hwf' & Hc' & Hm); [| |done|].
  { rewrite get_move_cache_fresh. apply fresh_cache_wf. }
  { intros p. by left. }
  exists b', c'. split_and!; [done..|]. intros p Hp He.
  assert (Hf : dict_get (get_move_cache b') p = Some (get_move_cache_field b' p)).
  { rewrite get_move_cache_fresh, dict_get_fresh_cache. by rewrite decide_True. }
  split; [done|]. rewrite <- Hf. apply Hm.
Qed.

Lemma C2_cache_matches_rebuild_witness :
  ∃ b' c',
    run_ops [Apply (0%nat, 2%nat, 3); Undo (0%nat, 2%nat, 3); Apply (1%nat, 3%nat, 1)]
            board_A_cached = Ok b' ∧
    _move_cache b' = Some c' ∧
    ∀ p, in_range b' p → cell_value b' p = EMPTY_SPACE →
      dict_get (get_move_cache b') p = Some (get_move_cache_field b' p) ∧
      (dict_get c' p = Some (get_move_cache_field b' p) ∨
       (p = (0%nat, 0%nat) ∧ dict_get c' p = Some ∅ ∧
        ¬ ∃ σ, solved σ ∧ extends b' σ)).
Proof.
  apply (C2_cache_matches_rebuild board_A_cached _ wf_board_A_cached).
  - reflexivity.
  - simpl. unfold fits_int64. repeat split; (lia || done).
Defined.

(** * Completeness of [solve] *)

Lemma no_collision_check_sound md5 l :
  no_collision_check md5 l = true → no_collision md5 l.
Proof.
  unfold no_collision_check. rewrite forallb_forall. intros H s t Hs Ht Hh.
  apply list_elem_of_In in Hs, Ht. specialize (H s Hs).
  rewrite forallb_forall in H. specialize (H t Ht).
  rewrite bool_decide_eq_true_2 in H by done. simpl in H.
  by apply bool_decide_eq_true in H.
Qed.

Lemma extends_same_grid_r t s s' : same_grid s s' → extends t s → extends t s'.
Proof.
  intros (Hs & Hq & Hb) (Es & Eq & Ev). split_and!; [congruence..|].
  intros p Hp Hv. unfold cell_value at 1. rewrite <- Hb. by apply Ev.
Qed.

Lemma push_moves_pushed s moves : ∀ d queue d' queue',
  push_moves s moves d queue = Ok (d', queue') →
  ∃ pushed, queue' = pushed ++ queue ∧
            ∀ u, u ∈ pushed ↔ ∃ m, m ∈ moves ∧ apply_move s m = Ok u.
Proof.
  induction moves as [|m moves IH]; intros d queue d' queue'; cbn [push_moves].
  - intros [= <- <-]. exists []. split; [done|]. intros u. split.
    + by intros ?%not_elem_of_nil.
    + by intros (m & ?%not_elem_of_nil & _).
  - destruct (apply_move s m) as [u0|e] eqn:Ha; [|done]. cbn [res_bind].
    intros (pushed & -> & Hp)%IH. exists (pushed ++ [u0]). split.
    + by rewrite <- (assoc (++)).
    + intros u. rewrite elem_of_app, Hp, list_elem_of_singleton. split.
      * intros [(m' & Hm' & Hu)| ->].
        -- exists m'. split; [by right|done].
        -- exists m. split; [left|done].
      * intros (m' & [->|Hm']%elem_of_cons & Hu).
        -- right. congruence.
        -- left. by exists m'.
Qed.

Lemma cache_exact_get_legal_moves b version :
  cache_exact b → cache_exact (get_legal_moves b version).2.
Proof.
  intros Hex. destruct version; try done.
  unfold get_legal_moves, cache_get_legal_moves. cbn [snd].
  intros c [= <-]. destruct (_move_cache b) as [c|] eqn:Hc.
  - destruct (Hex c Hc) as [Hwf Hget]. split; [done|]. intros p. apply Hget.
  - split; [rewrite get_move_cache_fresh; apply fresh_cache_wf|done].
Qed.

Lemma solve_loop_S (md5 : list Z → Z) version n d queue :
  solve_loop md5 (S n) version d queue =
  match solve_iteration md5 version d queue with
  | Raise e => Raised e
  | Ok (Return d' s) => Returned d' s
  | Ok (Continue d' queue') => solve_loop md5 n version d' queue'
  end.
Proof. reflexivity. Qed.

(** One more pass at the end of the loop. *)
Lemma solve_loop_snoc (md5 : list Z → Z) version n : ∀ d queue,
  solve_loop md5 (S n) version d queue =
  match solve_loop md5 n version d queue with
  | Running d1 queue1 =>
      match solve_iteration md5 version d1 queue1 with
      | Raise e => Raised e
      | Ok (Return d' s) => Returned d' s
      | Ok (Continue d' queue') => Running d' queue'
      end
  | o => o
  end.
Proof.
  induction n as [|n IH]; intros d queue.
  - cbn [solve_loop]. destruct (solve_iteration _ _ _ _) as [[? ?|? ?]|?]; reflexivity.
  - rewrite (solve_loop_S md5 version (S n)), (solve_loop_S md5 version n).
    destruct (solve_iteration md5 version d queue) as [[d1 q1|d1 s]|e];
      [|reflexivity..].
    apply IH.
Qed.

Lemma solve_loop_Raised (md5 : list Z → Z) version fuel d queue e :
  solve_loop md5 fuel version d queue = Raised e →
  ∃ n d1 queue1, solve_loop md5 n version d queue = Running d1 queue1 ∧
                 solve_iteration md5 version d1 queue1 = Raise e.
Proof.
  induction fuel as [|fuel IH]; [done|]. rewrite solve_loop_snoc.
  destruct (solve_loop md5 fuel version d queue) as [d1 s|e1|d1 q1] eqn:Hrun.
  - done.
  - intros [= ->]. by apply IH.
  - intros Hit. exists fuel, d1, q1. split; [done|].
    by destruct (solve_iteration _ _ _ _) as [[? ?|? ?]|?]; simplify_eq.
Qed.

Section completeness.
Variable md5 : list Z → Z.
Variable version : Version.
Variables σ b0 : SudokuBoard.
Hypothesis Hσ : solved σ.

(** The successor of a board towards the solution. *)
Lemma solution_successor s s' moves :
  good s → cache_exact s → extends s σ → is_complete s = Ok false →
  get_legal_moves s version = (moves, s') →
  ∃ p m u, in_range s p ∧ cell_value s p = EMPTY_SPACE ∧
           m ∈ moves ∧ apply_move s' m = Ok u ∧ good u ∧
           size u = size s ∧ size_sqrt u = size_sqrt s ∧
           _board u = grid_set (_board s) m.1.1 m.1.2 m.2 ∧
           cell_value u p ≠ EMPTY_SPACE ∧
           extends s u ∧ extends u σ.
Proof.
  intros Hs Hex Hext Hc Hglm.
  pose proof (get_legal_moves_good s version Hs) as (Hs' & Hsg & Hmoves).
  rewrite Hglm in Hs', Hsg, Hmoves. cbn [fst snd] in *.
  assert (He : ∃ p, in_range s p ∧ cell_value s p = EMPTY_SPACE).
  { apply existsb_empty_cell. unfold is_complete in Hc.
    destruct (existsb _ _); [done|]. by destruct (is_legal_state s). }
  destruct He as (p & Hp & He).
  pose proof (solution_move s σ p version (proj1 Hs) Hex Hext Hσ Hp He) as Hm.
  rewrite Hglm in Hm. cbn [fst] in Hm.
  set (m := (p.1, p.2, cell_value σ p)) in *.
  assert (Hmok : move_ok s' m).
  { apply (move_ok_ext s s' m Hsg). rewrite Forall_forall in Hmoves. by apply Hmoves. }
  destruct (apply_move_good s' m Hs' Hmok) as (u & Ha & Hu & Hsz & Hsq & Hb & _).
  pose proof Hsg as (Hsz' & Hsq' & Hb').
  assert (Hcv : ∀ q, cell_value u q =
                     if decide (p = q) then cell_value σ p else cell_value s q).
  { intros q. unfold cell_value at 1. rewrite Hb, <- Hb'. simpl.
    change (grid_get _ q.1 q.2)
      with (cell_value (with_board s (grid_set (_board s) p.1 p.2 (cell_value σ p))) q).
    rewrite cell_value_with_board; [|apply Hs|apply Hp..].
    by destruct p. }
  assert (Hv : cell_value σ p ≠ EMPTY_SPACE).
  { destruct Hσ as (_ & _ & Hr). destruct Hext as (Es & _ & _).
    assert (in_range σ p) by (destruct Hp; split; lia).
    pose proof (Hr p ltac:(done)). unfold EMPTY_SPACE. lia. }
  exists p, m, u. split_and!; try done; try congruence.
  - rewrite Hcv. by rewrite decide_True.
  - split_and!; [congruence..|]. intros q Hq Hqv. rewrite Hcv.
    rewrite decide_False; [done|]. intros <-. done.
  - destruct Hext as (Es & Eq & Ev). split_and!; [congruence..|].
    intros q Hq. rewrite Hcv. destruct (decide (p = q)) as [<-|Hne]; [done|].
    apply Ev. destruct Hq as [? ?]. split; lia.
Qed.

Lemma search_inv_step d queue d' queue' :
  search_inv md5 σ b0 d queue →
  solve_iteration md5 version d queue = Ok (Continue d' queue') →
  no_collision md5 (visit_log d' ++ queue') →
  search_inv md5 σ b0 d' queue'.
Proof.
  intros (Hq & Hlog & HV & HK & HJ) Hit Hnc.
  destruct queue as [|s_top rest]; [done|]. cbn [solve_iteration] in Hit.
  apply Forall_cons in Hq as [(Hgood & Hsz & Hsq & Hlive) Hrest].
  change (visited_states (log_visit s_top d)) with (visited_states d) in Hit.
  destruct (decide (__hash__ md5 s_top ∈ visited_states d)) as [Hvis|Hvis].
  - (* the popped board is skipped *)
    injection Hit as <- <-. cbn [visit_log log_visit] in Hnc.
    assert (Hkeep : ∀ s, s ∈ s_top :: rest → __hash__ md5 s ∉ visited_states d →
                         s ∈ rest).
    { intros s [->|?]%elem_of_cons Hs; done. }
    split_and!.
    + done.
    + cbn [visit_log log_visit]. constructor; done.
    + intros h Hh. destruct (HV h Hh) as (t & Ht & Hth).
      exists t. split; [by right|done].
    + destruct HK as (s & Hs & Hsv & Hse). exists s. split; [by apply Hkeep|done].
    + intros t [->|Ht]%elem_of_cons Hte.
      * destruct (HV _ Hvis) as (t0 & Ht0 & Hh0).
        assert (Hb0 : _board t0 = _board s_top).
        { apply Hnc; [| |done]; apply elem_of_app; left; [by right|left]. }
        rewrite Forall_forall in Hlog. destruct (Hlog t0 Ht0) as [Hsz0 Hsq0].
        assert (Hsg : same_grid s_top t0) by (split_and!; congruence).
        destruct (HJ t0 Ht0) as (s & Hs & Hsv & Hse & Hts).
        { by eapply extends_same_grid. }
        exists s. split_and!; [by apply Hkeep|done|done|].
        eapply extends_same_grid; [|exact Hts]. by apply same_grid_sym.
      * destruct (HJ t Ht Hte) as (s & Hs & Hsv & Hse & Hts).
        exists s. split_and!; [by apply Hkeep|done..].
  - (* the popped board is expanded *)
    destruct (is_complete_legal s_top) as [c Hc]; [apply Hgood..|].
    rewrite Hc in Hit. cbn [res_bind] in Hit. destruct c; [done|].
    pose proof (get_legal_moves_good s_top version Hgood) as (Hs' & Hsg & Hmoves).
    pose proof (cache_exact_get_legal_moves s_top version) as Hex'.
    destruct (get_legal_moves s_top version) as [moves s'] eqn:Hglm.
    cbn [fst snd] in Hs', Hsg, Hmoves, Hex'.
    destruct (push_moves s' moves _ rest) as [[d2 q2]|e] eqn:Hp;
      cbn [res_bind fst snd] in Hit; [|done].
    injection Hit as <- <-.
    pose proof (push_moves_counts _ _ _ _ _ _ Hp) as (_ & _ & _ & HV2 & _ & _ & _ & HL2).
    apply push_moves_pushed in Hp as (pushed & -> & Hpushed).
    cbn [visited_states visit_log mark_expanded log_visit] in HV2, HL2.
    rewrite HL2 in Hnc.
    pose proof Hsg as (Hsz' & Hsq' & Hb').
    assert (Hnc_top : ∀ s, s ∈ pushed ++ rest →
              __hash__ md5 s = __hash__ md5 s_top → _board s = _board s_top).
    { intros s Hs Hh. apply Hnc; [| |done]; apply elem_of_app; [by right|left; left]. }
    (* a board on the stack that is kept and stays unexpanded, or else has
       the grid of the popped board *)
    assert (Hkeep : ∀ s, s ∈ s_top :: rest → __hash__ md5 s ∉ visited_states d →
              (s ∈ rest ∧ __hash__ md5 s ≠ __hash__ md5 s_top) ∨ same_grid s s_top).
    { intros s [->|Hs]%elem_of_cons Hsv; [by right|].
      destruct (decide (__hash__ md5 s = __hash__ md5 s_top)) as [Hh|Hh]; [|by left].
      right. rewrite Forall_forall in Hrest. destruct (Hrest s Hs) as (_ & ? & ? & _).
      split_and!; [congruence..|].
      apply Hnc_top; [|done]. apply elem_of_app. by right. }
    (* the new board towards the solution *)
    assert (HW : extends s_top σ →
              ∃ w, w ∈ pushed ++ rest ∧ (__hash__ md5 w ∉ visited_states d2) ∧
                   extends w σ ∧ extends s_top w).
    { intros Hte.
      destruct (solution_successor s_top s' moves Hgood (Hlive Hte) Hte Hc Hglm)
        as (p & m & u & Hp & Hpe & Hm & Ha & Hu & Hszu & Hsqu & _ & Hup & Hsu & Huσ).
      assert (Hupushed : u ∈ pushed) by (apply Hpushed; by exists m).
      assert (Hdiff : ∀ s, extends u s → _board s ≠ _board s_top).
      { intros s (_ & _ & Ev) Hb. apply Hup.
        rewrite <- (Ev p); [|destruct Hp; split; lia|done].
        unfold cell_value. rewrite Hb. exact Hpe. }
      destruct (decide (__hash__ md5 u ∈ visited_states d2)) as [Huv|Huv].
      2:{ exists u. split_and!; [apply elem_of_app; by left|done..]. }
      rewrite HV2 in Huv. apply elem_of_union in Huv as [Huv|Huv].
      { apply elem_of_singleton in Huv. exfalso.
        apply (Hdiff u (extends_refl u)). apply Hnc_top; [|done].
        apply elem_of_app. by left. }
      destruct (HV _ Huv) as (t0 & Ht0 & Hh0).
      assert (Hb0 : _board t0 = _board u).
      { apply Hnc; [| |done]; apply elem_of_app; [left; by right|right].
        apply elem_of_app. by left. }
      rewrite Forall_forall in Hlog. destruct (Hlog t0 Ht0) as [Hsz0 Hsq0].
      assert (Hsg0 : same_grid u t0) by (split_and!; congruence).
      destruct (HJ t0 Ht0) as (s & Hs & Hsv & Hse & Hts).
      { by eapply extends_same_grid. }
      assert (Hus : extends u s).
      { eapply extends_same_grid; [|exact Hts]. by apply same_grid_sym. }
      destruct (Hkeep s Hs Hsv) as [[Hsr Hsh]|(_ & _ & Hsb)].
      2:{ exfalso. by apply (Hdiff s Hus). }
      exists s. split_and!.
      - apply elem_of_app. by right.
      - rewrite HV2. intros [?%elem_of_singleton|?]%elem_of_union; done.
      - done.
      - by eapply extends_trans. }
    split_and!.
    + apply Forall_app. split; [|done]. apply Forall_forall. intros u Hu.
      apply Hpushed in Hu as (m & Hm & Ha).
      assert (Hmok : move_ok s' m).
      { apply (move_ok_ext s_top s' m Hsg). rewrite Forall_forall in Hmoves.
        by apply Hmoves. }
      destruct (apply_move_good s' m Hs' Hmok) as (u' & Ha' & Hu' & Hszu & Hsqu & Hbu & _).
      rewrite Ha in Ha'. injection Ha' as <-.
      split_and!; [done|congruence|congruence|]. intros Huσ.
      apply (apply_move_exact s' m u σ (proj1 Hs')); try done.
      apply Hex', Hlive.
      eapply extends_same_grid; [by apply same_grid_sym|].
      eapply extends_trans; [|exact Huσ].
      destruct Hmok as (Hx & Hy & He & _).
      by apply (extends_placed s' u m.1.1 m.1.2 m.2 (proj1 Hs')).
    + rewrite HL2. constructor; done.
    + intros h. rewrite HV2, HL2. intros [->%elem_of_singleton|Hh]%elem_of_union.
      * exists s_top. split; [left|done].
      * destruct (HV h Hh) as (t & Ht & Hth). exists t. split; [by right|done].
    + destruct HK as (s & Hs & Hsv & Hse).
      destruct (Hkeep s Hs Hsv) as [[Hsr Hsh]|Hsame].
      * exists s. split_and!; [apply elem_of_app; by right| |done].
        rewrite HV2. intros [?%elem_of_singleton|?]%elem_of_union; done.
      * destruct HW as (w & ? & ? & ? & ?); [by eapply extends_same_grid|].
        by exists w.
    + intros t. rewrite HL2. intros [->|Ht]%elem_of_cons Hte.
      * destruct (HW Hte) as (w & ? & ? & ? & ?). by exists w.
      * destruct (HJ t Ht Hte) as (s & Hs & Hsv & Hse & Hts).
        destruct (Hkeep s Hs Hsv) as [[Hsr Hsh]|Hsame].
        -- exists s. split_and!; [apply elem_of_app; by right| |done..].
           rewrite HV2. intros [?%elem_of_singleton|?]%elem_of_union; done.
        -- destruct HW as (w & ? & ? & ? & Hw); [by eapply extends_same_grid|].
           exists w. split_and!; [done..|].
           eapply extends_trans; [|exact Hw]. by eapply extends_same_grid_r.
Qed.
End completeness.

Lemma good_of_exact b : wf_board b → legal b → cache_exact b → good b.
Proof.
  intros Hwf Hl Hex. split_and!; [done..|]. intros c Hc.
  destruct (Hex c Hc) as [? Hget]. split; [done|]. intros p. left. apply Hget.
Qed.

Lemma search_inv_reach (md5 : list Z → Z) version σ d :
  solved σ → good (state d) → cache_exact (state d) → extends (state d) σ →
  (∀ n d' queue, solve md5 n version d = Running d' queue →
                 no_collision md5 (visit_log d' ++ queue)) →
  ∀ n d' queue, solve md5 n version d = Running d' queue →
                search_inv md5 σ (state d) d' queue.
Proof.
  intros Hσ Hg Hex Hext Hnc. unfold solve in *.
  induction n as [|n IH]; intros d' queue.
  - cbn [solve_loop]. intros [= <- <-]. split_and!.
    + constructor; [|constructor]. by split_and!.
    + constructor.
    + intros h Hh. simpl in Hh. by apply elem_of_empty in Hh.
    + exists (state d). split_and!; [left| |done]. simpl. apply not_elem_of_empty.
    + intros t Ht. simpl in Ht. by apply not_elem_of_nil in Ht.
  - intros Hrun. pose proof (Hnc (S n) d' queue Hrun) as Hnc'.
    rewrite solve_loop_snoc in Hrun.
    destruct (solve_loop md5 n version (reset_stats d) [state (reset_stats d)])
      as [d1 s|e|d1 q1] eqn:Hn; [done..|].
    destruct (solve_iteration md5 version d1 q1) as [[d2 q2|d2 s]|e] eqn:Hit; [|done..].
    injection Hrun as <- <-.
    eapply (search_inv_step md5 version σ (state d) Hσ d1 q1); [|exact Hit|exact Hnc'].
    by apply IH.
Qed.

(** X23: [solve] finds a solution when there is one, fingerprint collisions
    apart.  Started on a well-formed board (whose cache, if any, answers
    like a rebuild) that has a solution, and provided that at no time of
    the run two boards popped so far or waiting on the stack have the same
    fingerprint but different grids, the loop does not end with
    [queue.Empty]: within [solve_fuel] passes it returns a board, which is
    complete and keeps the filled cells of the initial board. *)
Theorem X23_solve_finds_a_solution (md5 : list Z → Z) version fuel d σ :
  wf_board (state d) → cache_exact (state d) →
  solved σ → extends (state d) σ →
  (∀ n d' queue, solve md5 n version d = Running d' queue →
                 no_collision md5 (visit_log d' ++ queue)) →
  (solve_fuel (state d) ≤ fuel)%nat →
  ∃ d' s, solve md5 fuel version d = Returned d' s ∧
          is_complete s = Ok true ∧ extends (state d) s.
Proof.
  intros Hwf Hex Hσ Hext Hnc Hfuel.
  assert (Hg : good (state d)).
  { apply good_of_exact; [done| |done]. eapply extends_legal; [exact Hext|apply Hσ]. }
  destruct (solve_terminates md5 version fuel d Hg Hfuel) as [(d' & s & Hrun)|Hrun].
  - exists d', s. split; [done|].
    destruct (solve_sound md5 version fuel d d' s Hg Hrun) as (? & ? & _). done.
  - exfalso. unfold solve in Hrun.
    apply solve_loop_Raised in Hrun as (n & d1 & q1 & Hn & Hit).
    pose proof (search_inv_reach md5 version σ d Hσ Hg Hex Hext Hnc n d1 q1 Hn)
      as (Hq & _ & _ & (s & Hs & _) & _).
    assert (Hgq : Forall good [state (reset_stats d)]) by (by constructor).
    assert (Hlog : Forall good (visit_log (reset_stats d))) by constructor.
    pose proof (solve_loop_good md5 n version (reset_stats d) [state (reset_stats d)]
                  Hgq Hlog) as (Hpop & _).
    rewrite Hn in Hpop. cbn [popped] in Hpop.
    pose proof (solve_iteration_good md5 version d1 q1) as Hgit.
    rewrite Hit in Hgit. destruct Hgit as [_ ->]; [|done|].
    + eapply Forall_impl; [exact Hq|]. by intros t (? & _).
    + by apply not_elem_of_nil in Hs.
Qed.


Lemma X23_solve_finds_a_solution_witness :
  ∃ d' s, solve toy_md5 (solve_fuel board_D) STORE_LEGAL (SudokuDFS_init board_D)
          = Returned d' s ∧
          is_complete s = Ok true ∧ extends board_D s.
Proof.
  apply (X23_solve_finds_a_solution toy_md5 STORE_LEGAL (solve_fuel board_D)
           (SudokuDFS_init board_D) board_full wf_board_D).
  - intros c Hc. simpl in Hc. discriminate Hc.
  - apply solved_board_full.
  - apply extends_board_D_full.
  - intros n d' queue Hrun.
    do 4 (destruct n as [|n];
          [vm_compute in Hrun; injection Hrun as <- <-;
           apply no_collision_check_sound; vm_compute; reflexivity|]).
    vm_compute in Hrun. discriminate Hrun.
  - apply le_n.
Defined.

(** * Completeness of [solve_recursive] *)

Lemma undo_move_exact b m b' :
  wf_board b → (m.1.1 < size b)%nat → (m.1.2 < size b)%nat →
  undo_move b m = Ok b' → cache_exact b'.
Proof.
  intros Hwf Hx Hy Hu. destruct m as [[x y] v]. simpl in Hx, Hy.
  destruct (undo_move_Ok b x y v Hwf Hx Hy) as (b2 & Hu2 & Hb & Hsz & Hsq & Hn & Hc).
  rewrite Hu in Hu2. injection Hu2 as <-. intros c' Hc'.
  destruct (_move_cache b) as [c|] eqn:Hcb.
  - rewrite (Hc c eq_refl) in Hc'. injection Hc' as <-. split.
    + rewrite get_move_cache_fresh. apply fresh_cache_wf.
    + intros p. f_equal. by apply get_move_cache_ext.
  - rewrite Hn in Hc'; done.
Qed.

Lemma extends_empty_cell t s p :
  extends t s → in_range t p → cell_value s p = EMPTY_SPACE →
  cell_value t p = EMPTY_SPACE.
Proof.
  intros (_ & _ & Ev) Hp Hs.
  destruct (decide (cell_value t p = EMPTY_SPACE)) as [|Hne]; [done|].
  rewrite <- (Ev p Hp Hne). done.
Qed.


Lemma visited_states_update_branching_factor d n :
  visited_states (update_branching_factor d n) = visited_states d.
Proof. unfold update_branching_factor. by repeat destruct (decide _). Qed.

Lemma no_collision_suffix md5 l1 l2 :
  l1 `suffix_of` l2 → no_collision md5 l2 → no_collision md5 l1.
Proof.
  intros [k ->] Hnc s t Hs Ht. apply Hnc; apply elem_of_app; by right.
Qed.

Section rec_completeness.
Variable md5 : list Z → Z.
Variable version : Version.
Variables σ b0 : SudokuBoard.
Hypothesis Hσ : solved σ.

Lemma rec_loop_complete rec fuel b :
  (∀ s d, good s → (length (empty_cells s) < fuel)%nat → Forall good (visit_log d) →
     ∃ r s' d', rec s d = Some (Ok (r, s', d')) ∧ good s' ∧
                Forall good (visit_log d') ∧
                (s :: visit_log d) `suffix_of` visit_log d' ∧
                (if r : bool then is_complete s' = Ok true else same_grid s s')) →
  rec_complete md5 σ b0 rec fuel →
  (length (empty_cells b) ≤ fuel)%nat →
  size b = size b0 → size_sqrt b = size_sqrt b0 →
  ∀ moves s d r s' d',
    Forall (move_ok b) moves → good s → (extends b σ → cache_exact s) →
    same_grid b s → Forall good (visit_log d) → rec_inv md5 b0 d →
    (∀ t, t ∈ visit_log d → extends t σ → extends t b) →
    solve_recursive_loop rec moves s d = Some (Ok (r, s', d')) →
    no_collision md5 (visit_log d') →
    rec_inv md5 b0 d' ∧
    ((∃ m, m ∈ moves ∧ extends (placed b m) σ) → r = true) ∧
    (r = false → ∀ t, t ∈ visit_log d' → extends t σ → t ∈ visit_log d).
Proof.
  intros Hrec Hcomp Hfuel Hbsz Hbsq moves.
  induction moves as [|m moves IH];
    intros s d r s' d' Hmoves Hs Hlive Hsg Hlog Hinv HLI.
  - intros [= <- <- <-] _. split_and!; [done| |done].
    by intros (m & ?%not_elem_of_nil & _).
  - apply Forall_cons in Hmoves as [Hm Hmoves]. cbn [solve_recursive_loop].
    pose proof (move_ok_ext b s m Hsg Hm) as Hms.
    destruct (apply_move_good s m Hs Hms) as (s1 & Ha & Hs1 & Hsz1 & Hsq1 & Hg1 & _).
    rewrite Ha.
    pose proof (move_ok_value s m (proj1 Hs) Hms) as Hv0.
    pose proof (empty_cells_after_move s s1 m (proj1 Hs) Hms Hv0 Hsz1 Hg1) as Hlen.
    rewrite <- (empty_cells_ext b s Hsg) in Hlen.
    pose proof Hsg as (Hsgz & Hsgq & Hsgb).
    pose proof Hms as (Hx & Hy & He & _).
    assert (Hss1 : extends s s1).
    { by apply (extends_placed s s1 m.1.1 m.1.2 m.2 (proj1 Hs)). }
    assert (Hbs1 : extends b s1).
    { eapply extends_same_grid; [by apply same_grid_sym|done]. }
    assert (Hplaced : same_grid (placed b m) s1).
    { unfold placed. split_and!; simpl; congruence. }
    assert (Hcell : cell_value s1 (m.1.1, m.1.2) ≠ EMPTY_SPACE).
    { unfold cell_value. rewrite Hg1.
      change (grid_get _ _ _) with (cell_value (placed s m) (m.1.1, m.1.2)).
      unfold placed. rewrite cell_value_with_board; [|apply Hs|done..].
      by rewrite decide_True. }
    destruct (Hrec s1 (count_branch d) Hs1)
      as (r1 & s2 & d2 & Hr1 & Hs2 & Hlog2 & Hsuf & Hr); [lia|done|].
    rewrite Hr1.
    (* the call on the successor *)
    assert (Hsub : no_collision md5 (visit_log d2) →
              rec_inv md5 b0 d2 ∧ (extends s1 σ → r1 = true) ∧
              (r1 = false → ∀ t, t ∈ visit_log d2 → extends t σ → t ∈ visit_log d)).
    { intros Hnc2.
      apply (Hcomp s1 (count_branch d) r1 s2 d2); try done; try congruence.
      - intros Hs1σ. apply (apply_move_exact s m s1 σ (proj1 Hs)); try done.
        apply Hlive. by eapply extends_trans.
      - lia.
      - intros t Ht Htσ. cbn [visit_log count_branch] in Ht.
        pose proof (HLI t Ht Htσ) as Htb. split; [by eapply extends_trans|].
        intros Hb. apply Hcell. unfold cell_value. rewrite <- Hb.
        apply (extends_empty_cell t s); [by eapply extends_same_grid_r| |done].
        destruct Hinv as [_ Hsizes]. rewrite Forall_forall in Hsizes.
        destruct (Hsizes t Ht) as [Htsz _]. split; simpl; lia. }
    destruct (is_complete_legal s2) as [c Hc]; [apply Hs2..|]. rewrite Hc.
    destruct c.
    + intros [= <- <- <-] Hnc. destruct (Hsub Hnc) as (? & _ & _). done.
    + destruct r1; [congruence|].
      destruct (undo_move_good s s2 m Hs) as (s3 & Hu & Hs3 & Hsg3); [apply Hs2| | | |done|].
      * destruct Hr as (<- & _ & _). done.
      * destruct Hr as (_ & <- & _). done.
      * destruct Hr as (_ & _ & <-). done.
      * rewrite Hu. intros Hloop Hnc.
        assert (Hbs3 : same_grid b s3) by (by eapply same_grid_trans).
        destruct (solve_recursive_loop_good rec fuel b Hrec Hfuel moves s3 d2)
          as (r' & s4 & d4 & Hloop' & _ & _ & Hsuf' & _); [done..|].
        rewrite Hloop in Hloop'. injection Hloop' as <- <- <-.
        destruct (Hsub (no_collision_suffix md5 _ _ Hsuf' Hnc)) as (Hinv2 & Hoff & Hold).
        assert (Hex3 : cache_exact s3).
        { apply (undo_move_exact s2 m s3); [apply Hs2| | |done].
          - destruct Hr as (<- & _ & _). lia.
          - destruct Hr as (<- & _ & _). lia. }
        destruct (IH s3 d2 r s' d') as (Hinv' & Hfind & Hnew); try done.
        { intros t Ht Htσ. apply HLI; [|done]. by apply Hold. }
        split_and!; [done| |].
        -- intros (m' & [->|Hm']%elem_of_cons & Hm'σ).
           ++ assert (false = true); [|done]. apply Hoff.
              by eapply extends_same_grid.
           ++ apply Hfind. by exists m'.
        -- intros Hrf t Ht Htσ. apply Hold; [done| |done]. by apply Hnew.
Qed.
End rec_completeness.

Lemma solve_recursive_complete (md5 : list Z → Z) hit version σ b0 :
  solved σ → (∀ d h, hit d h = false) →
  ∀ fuel, rec_complete md5 σ b0 (solve_recursive_shared md5 hit fuel version) fuel.
Proof.
  intros Hσ Hhit. induction fuel as [|fuel IH];
    intros s d r s' d' Hs Hlive Hfuel Hsz Hsq Hlog Hinv HPRE; [lia|].
  cbn [solve_recursive_shared].
  change (visited_states (log_visit s d)) with (visited_states d).
  destruct Hinv as [HV Hsizes].
  destruct (decide (__hash__ md5 s ∈ visited_states d ∨ _)) as [[Hvis|Hvis]|Hvis].
  2:{ by rewrite Hhit in Hvis. }
  - intros [= <- <- <-] Hnc. cbn [visit_log log_visit] in Hnc.
    assert (Hoff : ¬ extends s σ).
    { intros Hsσ. destruct (HV _ Hvis) as (t & Ht & Hh).
      assert (Hb : _board t = _board s).
      { apply Hnc; [by right|left|done]. }
      rewrite Forall_forall in Hsizes. destruct (Hsizes t Ht) as [? ?].
      assert (Hsg : same_grid s t) by (split_and!; congruence).
      destruct (HPRE t Ht) as [_ Hne]; [by eapply extends_same_grid|]. done. }
    split_and!.
    + split.
      * intros h Hh. destruct (HV h Hh) as (t & Ht & Hth). exists t.
        split; [by right|done].
      * cbn [visit_log log_visit]. by constructor.
    + intros Hsσ. by destruct Hoff.
    + intros _ t [->|Ht]%elem_of_cons Htσ; [by destruct Hoff|done].
  - clear Hvis.
    assert (Hinv1 : ∀ n, rec_inv md5 b0
              (update_branching_factor (mark_expanded md5 s (log_visit s d)) n)).
    { intros n. split.
      - intros h. rewrite visited_states_update_branching_factor,
          visit_log_update_branching_factor. cbn.
        intros [->%elem_of_singleton|Hh]%elem_of_union.
        + exists s. split; [left|done].
        + destruct (HV h Hh) as (t & Ht & Hth). exists t. split; [by right|done].
      - rewrite visit_log_update_branching_factor. cbn. by constructor. }
    destruct (is_complete_legal s) as [c Hc]; [apply Hs..|]. rewrite Hc.
    destruct c.
    + intros [= <- <- <-] _. split_and!; [|done..].
      destruct (Hinv1 0%nat) as [H1 H2].
      rewrite visited_states_update_branching_factor in H1.
      rewrite visit_log_update_branching_factor in H1, H2. by split.
    + pose proof (get_legal_moves_good s version Hs) as (Hs' & Hsg & Hmoves).
      pose proof (cache_exact_get_legal_moves s version) as Hex'.
      destruct (get_legal_moves s version) as [moves s1] eqn:Hglm.
      cbn [fst snd] in Hs', Hsg, Hmoves, Hex'.
      intros Hloop Hnc.
      assert (Hlive1 : extends s σ → cache_exact s1).
      { intros Hsσ. by apply Hex', Hlive. }
      assert (Hlog1 : Forall good (visit_log
                (update_branching_factor (mark_expanded md5 s (log_visit s d))
                                         (length moves)))).
      { rewrite visit_log_update_branching_factor. cbn. by constructor. }
      assert (HLI : ∀ t, t ∈ visit_log
                (update_branching_factor (mark_expanded md5 s (log_visit s d))
                                         (length moves)) →
                extends t σ → extends t s).
      { rewrite visit_log_update_branching_factor. cbn.
        intros t [->|Ht]%elem_of_cons Htσ; [apply extends_refl|].
        by apply HPRE. }
      assert (Hfuel' : (length (empty_cells s) ≤ fuel)%nat) by lia.
      destruct (rec_loop_complete md5 σ b0 Hσ
                  (solve_recursive_shared md5 hit fuel version) fuel s
                  (solve_recursive_shared_good md5 hit version fuel) IH Hfuel' Hsz Hsq
                  moves s1 _ r s' d' Hmoves Hs' Hlive1 Hsg Hlog1
                  (Hinv1 (length moves)) HLI Hloop Hnc) as (Hinv' & Hfind & Hnew).
      assert (Hon : extends s σ → r = true).
      { intros Hsσ. apply Hfind.
        destruct (solution_successor version σ Hσ s s1 moves Hs (Hlive Hsσ) Hsσ Hc Hglm)
          as (p & m & u & _ & _ & Hm & _ & _ & Hszu & Hsqu & Hbu & _ & _ & Huσ).
        exists m. split; [done|].
        eapply extends_same_grid; [|exact Huσ].
        unfold placed. split_and!; simpl; congruence. }
      split_and!; [done..|].
      intros Hrf t Ht Htσ. specialize (Hnew Hrf t Ht Htσ).
      rewrite visit_log_update_branching_factor in Hnew. cbn in Hnew.
      apply elem_of_cons in Hnew as [->|?]; [|done].
      specialize (Hon Htσ). congruence.
Qed.




(** * [solve_recursive] with the board object as the one dictionary key *)

Section shared_key_facts.
Variable md5 : list Z → Z.
Variable hit : SudokuDFS → Z → bool.

Lemma solve_recursive_shared_stats version fuel : ∀ s d r s' d',
  solve_recursive_shared md5 hit fuel version s d = Some (Ok (r, s', d')) →
  rec_stats d d'.
Proof.
  induction fuel as [|fuel IH]; intros s d r s' d'; [done|].
  cbn [solve_recursive_shared].
  change (visited_states (log_visit s d)) with (visited_states d).
  destruct (decide _) as [Hvis|Hvis].
  - intros [= <- <- <-]. by split_and!.
  - assert (Hnew : __hash__ md5 s ∉ visited_states d) by tauto.
    pose proof (rec_stats_mark_expanded md5 s d Hnew) as Hm.
    destruct (is_complete s) as [[|]|e]; [|  |done].
    + by intros [= <- <- <-].
    + destruct (get_legal_moves s version) as [moves s1].
      intros Hloop. eapply rec_stats_trans; [exact Hm|].
      eapply rec_stats_trans; [apply rec_stats_update_branching_factor|].
      eapply solve_recursive_loop_stats; [exact IH|exact Hloop].
Qed.

Section shared_key_invariant.
Variable Q : SudokuBoard → Prop.
Hypothesis Q_ext : ∀ s s', same_grid s s' → Q s → Q s'.
Hypothesis Q_move : ∀ s m s',
  good s → Q s → move_ok s m → apply_move s m = Ok s' → Q s'.

Lemma solve_recursive_shared_inv version fuel : ∀ s d r s' d',
  good s → Q s → (length (empty_cells s) < fuel)%nat → Forall good (visit_log d) →
  solve_recursive_shared md5 hit fuel version s d = Some (Ok (r, s', d')) → Q s'.
Proof.
  induction fuel as [|fuel IH]; intros s d r s' d' Hs HQ Hfuel Hlog; [lia|].
  cbn [solve_recursive_shared].
  assert (Hlog' : Forall good (s :: visit_log d)) by (by constructor).
  destruct (decide _); [by intros [= <- <- <-]|].
  destruct (is_complete_legal s) as [c Hc]; [apply Hs..|]. rewrite Hc.
  destruct c; [by intros [= <- <- <-]|].
  pose proof (get_legal_moves_good s version Hs) as (Hs' & Hsg & Hmoves).
  destruct (get_legal_moves s version) as [moves s1] eqn:Hglm. cbn [fst snd] in *.
  intros Hloop.
  eapply (solve_recursive_loop_inv Q Q_ext Q_move
            (solve_recursive_shared md5 hit fuel version) fuel s);
    [apply solve_recursive_shared_good|exact IH|lia|exact Hmoves|exact Hs'
    |by eapply Q_ext|exact Hsg| |exact Hloop].
  by rewrite visit_log_update_branching_factor.
Qed.
End shared_key_invariant.
End shared_key_facts.

Lemma solve_recursive_shared_sound (md5 : list Z → Z) hit version fuel s d :
  good s → (length (empty_cells s) < fuel)%nat → Forall good (visit_log d) →
  ∃ r s' d', solve_recursive_shared md5 hit fuel version s d = Some (Ok (r, s', d')) ∧
    if r : bool
    then is_complete s' = Ok true ∧ extends s s' ∧ (clues_in_range s → solved s')
    else same_grid s s'.
Proof.
  intros Hs Hfuel Hlog.
  destruct (solve_recursive_shared_good md5 hit version fuel s d Hs Hfuel Hlog)
    as (r & s' & d' & Hrun & Hs' & _ & _ & Hr).
  exists r, s', d'. split; [done|]. destruct r; [|done].
  pose proof (solve_recursive_shared_inv md5 hit (keeps_clues s)
                (keeps_clues_ext s) (keeps_clues_move s)
                version fuel s d true s' d' Hs (keeps_clues_refl s (proj1 Hs))
                Hfuel Hlog Hrun) as (Hwf & He & Hcl).
  split_and!; [done..|]. intros H0. apply complete_solved; [done|by apply Hcl|done].
Qed.

(** X19: [solve_recursive] returns, and what it returns can be relied on,
    whatever the dictionary lookups hit.  From a well-formed legal board
    (whose cache, if any, is sound), with recursion depth beyond the
    number of empty cells, the call raises nothing; when it returns the
    board, the board is complete and keeps every filled cell it had on
    entry (and holds only values 1 … size if the entry board held only
    [EMPTY_SPACE] and such values); when it returns [None], every move has
    been undone: the grid is the one of the entry board. *)
Theorem X19_solve_recursive_returns_a_solution
    (md5 : list Z → Z) hit version fuel s d :
  wf_board s → is_legal_state s = true → cache_sound s →
  (length (empty_cells s) < fuel)%nat → visit_log d = [] →
  ∃ r s' d', solve_recursive_shared md5 hit fuel version s d = Some (Ok (r, s', d')) ∧
    if r : bool
    then is_complete s' = Ok true ∧ extends s s' ∧ (clues_in_range s → solved s')
    else same_grid s s'.
Proof.
  intros Hwf Hl Hc Hfuel Hlog. apply solve_recursive_shared_sound; [|done|].
  - by apply good_of_checked.
  - rewrite Hlog. constructor.
Qed.

Lemma X19_solve_recursive_returns_a_solution_witness :
  ∃ r s' d', solve_recursive_shared toy_md5 slot_hit 4 STORE_LEGAL board_D
               (SudokuDFS_init board_D) = Some (Ok (r, s', d')) ∧
    if r : bool
    then is_complete s' = Ok true ∧ extends board_D s' ∧
         (clues_in_range board_D → solved s')
    else same_grid board_D s'.
Proof.
  apply (X19_solve_recursive_returns_a_solution toy_md5 slot_hit STORE_LEGAL 4 board_D
           (SudokuDFS_init board_D) wf_board_D).
  - vm_compute. reflexivity.
  - intros c Hc. simpl in Hc. discriminate Hc.
  - vm_compute. lia.
  - reflexivity.
Defined.

(** X26: the statistics of [solve_recursive], whatever the dictionary
    lookups hit.  Whenever a call returns (for every board and strategy):
    it has only added fingerprints to [visited_states]; [node_expansions]
    has grown by exactly the number of fingerprints added; and
    [revistited_states] is as it was: a call on a board whose fingerprint
    is already there answers [None] without adding or counting
    anything. *)
Theorem X26_solve_recursive_statistics
    (md5 : list Z → Z) hit version fuel s d r s' d' :
  solve_recursive_shared md5 hit fuel version s d = Some (Ok (r, s', d')) →
  visited_states d ⊆ visited_states d' ∧
  (node_expansions d' + base.size (visited_states d)
   = node_expansions d + base.size (visited_states d'))%nat ∧
  revistited_states d' = revistited_states d ∧
  (__hash__ md5 s ∈ visited_states d → r = false ∧ visited_states d' = visited_states d).
Proof.
  intros Hrun.
  destruct (solve_recursive_shared_stats md5 hit version fuel s d r s' d' Hrun)
    as (H1 & H2 & H3).
  split_and!; [done..|]. intros Hvis. destruct fuel as [|fuel]; [done|].
  cbn [solve_recursive_shared] in Hrun.
  change (visited_states (log_visit s d)) with (visited_states d) in Hrun.
  rewrite decide_True in Hrun by (by left). by injection Hrun as <- <- <-.
Qed.

Lemma X26_solve_recursive_statistics_witness :
  ∃ r s' d',
    solve_recursive_shared toy_md5 slot_hit 4 IMPROVED board_D (SudokuDFS_init board_D)
    = Some (Ok (r, s', d')) ∧
    visited_states (SudokuDFS_init board_D) ⊆ visited_states d' ∧
    (node_expansions d' + base.size (visited_states (SudokuDFS_init board_D))
     = node_expansions (SudokuDFS_init board_D) + base.size (visited_states d'))%nat ∧
    revistited_states d' = revistited_states (SudokuDFS_init board_D) ∧
    (__hash__ toy_md5 board_D ∈ visited_states (SudokuDFS_init board_D) →
     r = false ∧ visited_states d' = visited_states (SudokuDFS_init board_D)).
Proof.
  destruct (solve_recursive_shared toy_md5 slot_hit 4 IMPROVED board_D
              (SudokuDFS_init board_D)) as [[[[r s'] d']|e]|] eqn:E.
  - exists r, s', d'. split; [reflexivity|].
    exact (X26_solve_recursive_statistics toy_md5 slot_hit IMPROVED 4 board_D
             (SudokuDFS_init board_D) r s' d' E).
  - exfalso. vm_compute in E. discriminate E.
  - exfalso. vm_compute in E. discriminate E.
Defined.

(** X24: [solve_recursive] finds a solution when there is one, provided the
    lookups answer by fingerprint and fingerprints do not collide.  Called
    with a fresh driver on a well-formed board (whose cache, if any,
    answers like a rebuild) that has a solution, with recursion depth
    beyond the number of empty cells, if no lookup hits an entry stored
    under an earlier fingerprint of the board object, and no two of the
    boards it is called on have the same fingerprint but different grids,
    it returns the board, complete, with the filled cells of the entry
    board kept. *)
Theorem X24_solve_recursive_finds_a_solution
    (md5 : list Z → Z) hit version fuel b d σ :
  wf_board b → cache_exact b → solved σ → extends b σ →
  visited_states d = ∅ → visit_log d = [] →
  (length (empty_cells b) < fuel)%nat →
  (∀ d' h, hit d' h = false) →
  (∀ r s' d', solve_recursive_shared md5 hit fuel version b d = Some (Ok (r, s', d')) →
              no_collision md5 (visit_log d')) →
  ∃ s' d', solve_recursive_shared md5 hit fuel version b d = Some (Ok (true, s', d')) ∧
           is_complete s' = Ok true ∧ extends b s'.
Proof.
  intros Hwf Hex Hσ Hext HV HL Hfuel Hhit Hnc.
  assert (Hg : good b).
  { apply good_of_exact; [done| |done]. eapply extends_legal; [exact Hext|apply Hσ]. }
  assert (Hlog : Forall good (visit_log d)) by (rewrite HL; constructor).
  destruct (solve_recursive_shared_sound md5 hit version fuel b d Hg Hfuel Hlog)
    as (r & s' & d' & Hrun & Hr).
  destruct (solve_recursive_complete md5 hit version σ b Hσ Hhit fuel b d r s' d')
    as (_ & Hon & _); try done.
  - split; [|rewrite HL; constructor]. intros h. rewrite HV. by intros ?%elem_of_empty.
  - intros t. rewrite HL. by intros ?%not_elem_of_nil.
  - by eapply Hnc.
  - rewrite (Hon Hext) in Hrun, Hr. exists s', d'.
    destruct Hr as (? & ? & _). done.
Qed.

Lemma X24_solve_recursive_finds_a_solution_witness :
  ∃ s' d', solve_recursive_shared toy_md5 (λ _ _, false) 4 SORTED board_D
             (SudokuDFS_init board_D) = Some (Ok (true, s', d')) ∧
           is_complete s' = Ok true ∧ extends board_D s'.
Proof.
  apply (X24_solve_recursive_finds_a_solution toy_md5 (λ _ _, false) SORTED 4 board_D
           (SudokuDFS_init board_D) board_full wf_board_D).
  - intros c Hc. simpl in Hc. discriminate Hc.
  - apply solved_board_full.
  - apply extends_board_D_full.
  - reflexivity.
  - reflexivity.
  - vm_compute. lia.
  - reflexivity.
  - intros r s' d' Hrun. vm_compute in Hrun. injection Hrun as <- <- <-.
    apply no_collision_check_sound. vm_compute. reflexivity.
Defined.
